(** * Circular slider

    A shallow embedding of the circular slider: the geometry core,
    [utilities/circularGeometry.ts] (the mapping between values and
    angles, the conversion between angle descriptions, the conversion
    between angles and screen positions) and [utilities/svgPaths.ts]
    (the rounded-end arc path), and the component that uses it,
    [components/CircularSlider.tsx] (the handlers of the mouse and of
    the touches, and [render]) with [components/KnobSvg.tsx].

    A JavaScript [number] is an IEEE-754 binary64 value and is modelled
    by Rocq's primitive [float], whose operations are the binary64
    round-to-nearest-even operations JavaScript uses.  What the engine
    provides ([Math.sin], [Math.cos], [Math.atan2] and the conversion of
    a number to text) is not part of the repository; it is the fields of
    the classes [JSMath] and [NumberText], as what the browser provides
    is the field of the class [SvgDom].  [Math.round] and [Math.ceil],
    which ECMAScript fixes, are the functions of the module [Math].

    The handlers of the component act on an instance (the listeners of
    its mounted element) and call the functions the user of the
    component gave; a handler is a function from the instance to its
    [Outcome]: the instance it leaves, the calls it made, what it threw.

    Every statement is about these binary64 functions.  Where the
    order of two results matters, it is read on exact values: a finite
    number is a whole multiple of [2 ^ -1074] ([Rounding.scaled]), and
    an operation returns the number nearest to its exact result
    ([Rounding.Rounds]). *)

From Stdlib Require Import ZArith Lia Bool String Ascii List Floats.
From Stdlib Require Import Reals Lra.
Import ListNotations.

Set Warnings "-inexact-float".

(** ** JavaScript numbers *)

Module Number.

#[local] Open Scope float_scope.

(** The remainder operator [%] on numbers (ECMAScript
    [Number::remainder]): the result has the sign of the dividend, its
    magnitude is below the divisor's, and it is computed exactly. *)
Definition SFrem (n d : spec_float) : spec_float :=
  match n, d with
  | S754_nan, _ | _, S754_nan => S754_nan
  | S754_infinity _, _ => S754_nan
  | _, S754_zero _ => S754_nan
  | S754_zero _, _ => n
  | S754_finite _ _ _, S754_infinity _ => n
  | S754_finite sn mn en, S754_finite _ md ed =>
      let e := Z.min en ed in
      let zn := (Zpos mn * 2 ^ (en - e))%Z in
      let zd := (Zpos md * 2 ^ (ed - e))%Z in
      binary_normalize prec emax (cond_Zopp sn (Z.rem zn zd)) e sn
  end.

Definition rem (n d : float) : float :=
  SF2Prim (SFrem (Prim2SF n) (Prim2SF d)).

(** [Math.PI], the binary64 value nearest to pi (3.141592653589793). *)
Definition PI : float := 0x1.921fb54442d18p+1.

(** The literal [0.001] of [svgPaths.ts], as the binary64 value it
    denotes. *)
Definition milli : float := 0x1.0624dd2f1a9fcp-10.

(** [a > b] and [a >= b] are [b < a] and [b <= a]; [a !== b] is the
    negation of [a === b]. *)
Definition gtb (a b : float) : bool := b <? a.
Definition geb (a b : float) : bool := b <=? a.
Definition neqb (a b : float) : bool := negb (a =? b).

End Number.

Infix "%%" := Number.rem (at level 40, left associativity) : float_scope.
Infix ">?" := Number.gtb (at level 70, no associativity) : float_scope.
Infix ">=?" := Number.geb (at level 70, no associativity) : float_scope.
Infix "<>?" := Number.neqb (at level 70, no associativity) : float_scope.

(** ** Exceptions

    Both [throw new Error(...)] statements of the source are kept with
    their message; a function that can throw returns a [Result]. *)

Inductive Exception : Type :=
  | Error (message : string).

Definition InvalidRange : Exception :=
  Error "endAngle must be greater than startAngle".

Definition InternalInvariant : Exception :=
  Error "Unhandled conversion".

Inductive Result (A : Type) : Type :=
  | Ok (value : A)
  | Throw (e : Exception).

Arguments Ok {A} value.
Arguments Throw {A} e.

Definition bind {A B : Type} (r : Result A) (k : A -> Result B) : Result B :=
  match r with
  | Ok a => k a
  | Throw e => Throw e
  end.

Notation "x <- r ;; k" := (bind r (fun x => k))
  (at level 61, r at next level, right associativity).

(** ** What the engine provides

    ECMAScript leaves [Math.sin], [Math.cos] and [Math.atan2]
    implementation-approximated; the conversion of a number to text is
    [Number::toString]. *)

Class JSMath : Type := {
  Math_sin : float -> float;
  Math_cos : float -> float;
  Math_atan2 : float -> float -> float
}.

Class NumberText : Type := {
  Number_toString : float -> string
}.

(** ** utilities/circularGeometry.ts *)

Module circularGeometry.

#[local] Open Scope float_scope.
Import Number.

Inductive Direction : Type := cw | ccw.
Inductive Axis : Type := pos_x | neg_x | pos_y | neg_y.

(** The string each tag is in the source. *)
Definition direction_tag (d : Direction) : string :=
  match d with
  | cw => "cw"
  | ccw => "ccw"
  end.

Definition axis_tag (a : Axis) : string :=
  match a with
  | pos_x => "+x"
  | neg_x => "-x"
  | pos_y => "+y"
  | neg_y => "-y"
  end.

Record AngleDescription : Type := {
  direction : Direction;
  axis : Axis
}.

Record AngleWithDescription : Type := {
  degree : float;
  description : AngleDescription
}.

Record Position : Type := {
  x : float;
  y : float
}.

Record AngleToValueParams : Type := {
  atv_angle : float;
  atv_minValue : float;
  atv_maxValue : float;
  atv_startAngle : float;
  atv_endAngle : float
}.

Definition angleToValue (params : AngleToValueParams) : Result float :=
  let angle := atv_angle params in
  let minValue := atv_minValue params in
  let maxValue := atv_maxValue params in
  let startAngle := atv_startAngle params in
  let endAngle := atv_endAngle params in
  if endAngle <=? startAngle then Throw InvalidRange
  else if angle <? startAngle then Ok minValue
  else if angle >? endAngle then Ok maxValue
  else
    let ratio := (angle - startAngle) / (endAngle - startAngle) in
    let value := ratio * (maxValue - minValue) + minValue in
    Ok value.

Record ValueToAngleParams : Type := {
  vta_value : float;
  vta_minValue : float;
  vta_maxValue : float;
  vta_startAngle : float;
  vta_endAngle : float
}.

Definition valueToAngle (params : ValueToAngleParams) : Result float :=
  let value := vta_value params in
  let minValue := vta_minValue params in
  let maxValue := vta_maxValue params in
  let startAngle := vta_startAngle params in
  let endAngle := vta_endAngle params in
  if endAngle <=? startAngle then Throw InvalidRange
  else
    let ratio := (value - minValue) / (maxValue - minValue) in
    let angle := ratio * (endAngle - startAngle) + startAngle in
    Ok angle.

(** [s[1]]: the character at index 1 of a string, if there is one. *)
Definition char_at_1 (s : string) : option ascii := String.get 1 s.

Definition option_ascii_eqb (a b : option ascii) : bool :=
  match a, b with
  | Some c, Some c' => Ascii.eqb c c'
  | None, None => true
  | _, _ => false
  end.

(** [case] labels of a [switch]: the first group holding the key. *)
Definition is_case (key : string) (labels : list string) : bool :=
  existsb (String.eqb key) labels.

Definition ccw_pos_x : AngleDescription :=
  {| direction := ccw; axis := pos_x |}.

Definition convertAngle
    (degree : float) (from : AngleDescription) (to : option AngleDescription)
    : Result float :=
  let to :=
    match to with
    | Some t => t
    | None => ccw_pos_x
    end in
  let degree :=
    if negb (String.eqb (direction_tag (direction from))
                        (direction_tag (direction to)))
    then (if degree =? 0 then 0 else 360 - degree)
    else degree in
  if String.eqb (axis_tag (axis from)) (axis_tag (axis to)) then
    Ok degree
  else if option_ascii_eqb (char_at_1 (axis_tag (axis from)))
                           (char_at_1 (axis_tag (axis to))) then
    Ok ((180 + degree) %% 360)
  else
    let key :=
      (direction_tag (direction to) ++ axis_tag (axis from)
         ++ axis_tag (axis to))%string in
    if is_case key
         ["ccw+x-y"; "ccw-x+y"; "ccw+y+x"; "ccw-y-x";
          "cw+y-x"; "cw-y+x"; "cw-x-y"; "cw+x+y"]%string
    then Ok ((90 + degree) %% 360)
    else if is_case key
         ["ccw+y-x"; "ccw-y+x"; "ccw+x+y"; "ccw-x-y";
          "cw+x-y"; "cw-x+y"; "cw+y+x"; "cw-y-x"]%string
    then Ok ((270 + degree) %% 360)
    else Throw InternalInvariant.

Section WithMath.

Context {engine : JSMath}.

Definition angleToPosition
    (angle : AngleWithDescription) (radius svgSize : float)
    : Result Position :=
  angleConverted <-
    convertAngle (degree angle) (description angle) (Some ccw_pos_x) ;;
  let angleInRad := (angleConverted / 180) * PI in
  let '(dX, dY) :=
    if angleInRad <=? PI then
      if angleInRad <=? PI / 2 then
        (Math_cos angleInRad * radius,
         Math_sin angleInRad * radius)
      else
        (Math_cos (PI - angleInRad) * radius * -1,
         Math_sin (PI - angleInRad) * radius)
    else if angleInRad <=? PI * 1.5 then
      (Math_cos (angleInRad - PI) * radius * -1,
       Math_sin (angleInRad - PI) * radius * -1)
    else
      (Math_cos (2 * PI - angleInRad) * radius,
       Math_sin (2 * PI - angleInRad) * radius * -1) in
  let x := dX + svgSize / 2 in
  let y := svgSize / 2 - dY in
  Ok {| x := x; y := y |}.

Definition positionToAngle
    (position : Position) (svgSize : float) (angleType : AngleDescription)
    : Result float :=
  let dX := x position - svgSize / 2 in
  let dY := svgSize / 2 - y position in
  let theta := Math_atan2 dY dX in
  let theta := if theta <? 0 then theta + 2 * PI else theta in
  let degree := (theta / PI) * 180 in
  convertAngle degree ccw_pos_x (Some angleType).

End WithMath.

End circularGeometry.

(** ** utilities/svgPaths.ts *)

Module svgPaths.

#[local] Open Scope float_scope.
Import Number circularGeometry.

Record ArcOpts : Type := {
  startAngle : float;
  endAngle : float;
  angleType : AngleDescription;
  innerRadius : float;
  thickness : float;
  svgSize : float;
  arcDirection : Direction
}.

(** One [A rx ry 0 large-arc sweep x y] command of the path; a flag is
    [true] where the text has ["1"]. *)
Record ArcCommand : Type := {
  rx : float;
  ry : float;
  largeArcFlag : bool;
  sweepFlag : bool;
  target : Position
}.

(** The path: [M] to the start point, then the four arcs, then [Z]. *)
Record ArcPath : Type := {
  startPoint : Position;
  innerArc : ArcCommand;
  firstButt : ArcCommand;
  outerArc : ArcCommand;
  secondButt : ArcCommand
}.

(** The end angle after the full-circle test of the first statement:
    [if (startAngle % 360 === endAngle % 360 && startAngle !== endAngle)
       endAngle = endAngle - 0.001]. *)
Definition nudgedEndAngle (startAngle endAngle : float) : float :=
  if (startAngle %% 360 =? endAngle %% 360) && (startAngle <>? endAngle)
  then endAngle - milli
  else endAngle.

Definition is_cw (d : Direction) : bool :=
  String.eqb (direction_tag d) "cw".

Section WithEngine.

Context {engine : JSMath} {text : NumberText}.

Definition arcCommands (opts : ArcOpts) : Result ArcPath :=
  let startAngle := startAngle opts in
  let innerRadius := innerRadius opts in
  let thickness := thickness opts in
  let direction := arcDirection opts in
  let angleType := angleType opts in
  let svgSize := svgSize opts in
  let endAngle := nudgedEndAngle startAngle (endAngle opts) in
  let largeArc := endAngle - startAngle >=? 180 in
  let outerRadius := innerRadius + thickness in
  innerArcStart <-
    angleToPosition {| degree := startAngle; description := angleType |}
                    innerRadius svgSize ;;
  innerArcEnd <-
    angleToPosition {| degree := endAngle; description := angleType |}
                    innerRadius svgSize ;;
  outerArcStart <-
    angleToPosition {| degree := endAngle; description := angleType |}
                    outerRadius svgSize ;;
  outerArcEnd <-
    angleToPosition {| degree := startAngle; description := angleType |}
                    outerRadius svgSize ;;
  Ok {| startPoint := innerArcStart;
        innerArc :=
          {| rx := innerRadius; ry := innerRadius;
             largeArcFlag := if largeArc then true else false;
             sweepFlag := if is_cw direction then true else false;
             target := innerArcEnd |};
        firstButt :=
          {| rx := thickness / 2; ry := thickness / 2;
             largeArcFlag := if largeArc then true else false;
             sweepFlag := if is_cw direction then false else true;
             target := outerArcStart |};
        outerArc :=
          {| rx := outerRadius; ry := outerRadius;
             largeArcFlag := if largeArc then true else false;
             sweepFlag := if is_cw direction then false else true;
             target := outerArcEnd |};
        secondButt :=
          {| rx := thickness / 2; ry := thickness / 2;
             largeArcFlag := if largeArc then true else false;
             sweepFlag := if is_cw direction then false else true;
             target := innerArcStart |} |}.

(** The text of the template literals. *)
Definition nl : string := String (ascii_of_nat 10) EmptyString.

Definition flag_text (b : bool) : string := if b then "1" else "0".

Definition move_text (p : Position) : string :=
  (nl ++ "    M " ++ Number_toString (x p) ++ ","
      ++ Number_toString (y p) ++ nl ++ "  ")%string.

Definition arc_text (a : ArcCommand) : string :=
  (nl ++ "    A " ++ Number_toString (rx a) ++ " "
      ++ Number_toString (ry a) ++ " 0"
      ++ nl ++ "      " ++ flag_text (largeArcFlag a)
      ++ nl ++ "      " ++ flag_text (sweepFlag a)
      ++ nl ++ "      " ++ Number_toString (x (target a)) ++ " "
      ++ Number_toString (y (target a)) ++ nl ++ "  ")%string.

Definition path_text (p : ArcPath) : string :=
  (move_text (startPoint p) ++ arc_text (innerArc p)
     ++ arc_text (firstButt p) ++ arc_text (outerArc p)
     ++ arc_text (secondButt p) ++ " Z")%string.

Definition arcPathWithRoundedEnds (opts : ArcOpts) : Result string :=
  path <- arcCommands opts ;;
  Ok (path_text path).

End WithEngine.

End svgPaths.


(** ** Kinds of binary64 values

    Read on the specification-level value ([spec_float]) of a number. *)

Module FloatKinds.

(** A finite number: a zero, or a mantissa with an exponent. *)
Definition SFfinite (a : spec_float) : Prop :=
  match a with
  | S754_zero _ | S754_finite _ _ _ => True
  | S754_infinity _ | S754_nan => False
  end.

(** Neither a zero nor NaN. *)
Definition SFnonzero (a : spec_float) : Prop :=
  match a with
  | S754_finite _ _ _ | S754_infinity _ => True
  | S754_zero _ | S754_nan => False
  end.

(** A zero or NaN: what a division by it never gives a finite
    quotient for. *)
Definition SFzero_or_nan (a : spec_float) : Prop :=
  match a with
  | S754_zero _ | S754_nan => True
  | S754_infinity _ | S754_finite _ _ _ => False
  end.

(** An infinity or NaN. *)
Definition SFnot_finite (a : spec_float) : Prop :=
  match a with
  | S754_infinity _ | S754_nan => True
  | S754_zero _ | S754_finite _ _ _ => False
  end.

(** The power of two [2 ^ k], for [k] an exponent of a normal number:
    the mantissa [2 ^ 52] with the exponent [k - 52]. *)
Definition SFpow2 (k : Z) : spec_float :=
  S754_finite false 4503599627370496 (k - 52).

(** A finite whole number: a zero, or a mantissa of 53 digits whose
    exponent is not negative or cuts off zero digits only. *)
Definition SFwhole (a : spec_float) : Prop :=
  match a with
  | S754_zero _ => True
  | S754_finite _ m e =>
      digits2_pos m = 53%positive
      /\ (-52 <= e <= 971)%Z
      /\ exists k : positive, Z.pos m = (Z.pos k * 2 ^ Z.max 0 (- e))%Z
  | S754_infinity _ | S754_nan => False
  end.

(** A zero, or a finite number whose exponent is at most [E]. *)
Definition SFexponent_le (E : Z) (a : spec_float) : Prop :=
  match a with
  | S754_zero _ => True
  | S754_finite _ _ e => (e <= E)%Z
  | S754_infinity _ | S754_nan => False
  end.

End FloatKinds.

(** ** Exact values and rounding

    The value of a finite binary64 number is a whole multiple of
    [2 ^ -1074]; the operations on numbers return the number nearest
    to the exact result, the one with the even mantissa of two as
    near.  These definitions read that off [binary_round_aux]; the
    statements on the order of results are made with them. *)

Module Rounding.

#[local] Open Scope Z_scope.

(** Where the quotient [N / D] lies between two consecutive integers. *)
Definition locate (N D : Z) : location :=
  if N mod D =? 0 then loc_Exact else loc_Inexact (2 * (N mod D) ?= D).

Definition located (N D : Z) : shr_record :=
  shr_record_of_loc (N / D) (locate N D).

(** The integer nearest to [N / D], the even one of two as near. *)
Definition nearest (N D : Z) : Z :=
  round_nearest_even (N / D) (locate N D).

(** The number of a mantissa and an exponent: an infinity above the
    largest exponent. *)
Definition pack (s : bool) (M E : Z) : spec_float :=
  match M with
  | Z0 => S754_zero s
  | Zpos m => if E <=? emax - prec then S754_finite s m E else S754_infinity s
  | Zneg _ => S754_nan
  end.

(** The number nearest to [N / D * 2 ^ e], with the sign [s]. *)
Definition rounded (s : bool) (N D e : Z) : spec_float :=
  let t := fexp prec emax (Zdigits2 (N / D) + e) in
  let M := nearest N (D * 2 ^ (t - e)) in
  if M <? 2 ^ 53 then pack s M t else pack s (2 ^ 52) (t + 1).

(** The value of a finite number, in units of [2 ^ -1074]. *)
Definition scaled (f : spec_float) : Z :=
  match f with
  | S754_finite s m e => cond_Zopp s (Z.pos m * 2 ^ (e + 1074))
  | _ => 0
  end.

(** [f] is the number nearest to [A / D * 2 ^ c]. *)
Definition Rounds (c A D : Z) (f : spec_float) : Prop :=
  0 < D
  /\ ((A = 0 /\ exists s, f = S754_zero s)
      \/ exists s N e,
           0 < N /\ c <= e
           /\ e <= fexp prec emax (Zdigits2 (N / D) + e)
           /\ A = cond_Zopp s (N * 2 ^ (e - c))
           /\ f = rounded s N D e).

(** Not NaN and not below zero; not NaN and not above zero. *)
Definition SFnonneg (f : spec_float) : Prop :=
  match f with
  | S754_zero _ | S754_finite false _ _ | S754_infinity false => True
  | _ => False
  end.

Definition SFnonpos (f : spec_float) : Prop :=
  match f with
  | S754_zero _ | S754_finite true _ _ | S754_infinity true => True
  | _ => False
  end.

End Rounding.

(** ** Intervals of numbers *)

Module Interval.

#[local] Open Scope float_scope.

(** The value of a finite number, in units of [2 ^ -1074]. *)
Definition value (x : float) : Z := Rounding.scaled (Prim2SF x).

(** Neither NaN nor an infinity. *)
Definition finite (x : float) : Prop := FloatKinds.SFfinite (Prim2SF x).

(** [lo <= x && x <= hi]. *)
Definition within (lo hi x : float) : Prop :=
  (lo <=? x) = true /\ (x <=? hi) = true.

End Interval.

(** ** What the specification words

    The conversion between angle descriptions once more, written from
    the four steps of the specification, to be compared with
    [convertAngle]: the steps take the reduction modulo 360 as an
    argument, which is either the reduction into the turn from 0 to
    360 or the remainder with the sign of the dividend, both computed
    on exact values and not with [%].  And the sweep flags of the path
    as the specification describes them. *)

Module Spec.

#[local] Open Scope float_scope.
Import Number circularGeometry.

Definition direction_eqb (a b : Direction) : bool :=
  match a, b with
  | cw, cw | ccw, ccw => true
  | _, _ => false
  end.

Definition axis_eqb (a b : Axis) : bool :=
  match a, b with
  | pos_x, pos_x | neg_x, neg_x | pos_y, pos_y | neg_y, neg_y => true
  | _, _ => false
  end.

(** Step 1: 0 stays 0, any other [d] becomes [360 - d]. *)
Definition flip (d : float) : float :=
  if d =? 0 then 0 else 360 - d.

(** Step 3: two different axes on the same line. *)
Definition same_line (a b : Axis) : bool :=
  match a, b with
  | pos_x, neg_x | neg_x, pos_x | pos_y, neg_y | neg_y, pos_y => true
  | _, _ => false
  end.

Definition Pairing : Type := (Direction * (Axis * Axis))%type.

Definition pairing_eqb (p q : Pairing) : bool :=
  direction_eqb (fst p) (fst q)
  && axis_eqb (fst (snd p)) (fst (snd q))
  && axis_eqb (snd (snd p)) (snd (snd q)).

(** Step 4: the pairings (target direction, from-axis -> to-axis). *)
Definition offset_90 : list Pairing :=
  [ (ccw, (pos_x, neg_y)); (ccw, (neg_x, pos_y));
    (ccw, (pos_y, pos_x)); (ccw, (neg_y, neg_x));
    (cw, (pos_y, neg_x)); (cw, (neg_y, pos_x));
    (cw, (neg_x, neg_y)); (cw, (pos_x, pos_y)) ].

Definition offset_270 : list Pairing :=
  [ (ccw, (pos_y, neg_x)); (ccw, (neg_y, pos_x));
    (ccw, (pos_x, pos_y)); (ccw, (neg_x, neg_y));
    (cw, (pos_x, neg_y)); (cw, (neg_x, pos_y));
    (cw, (pos_y, pos_x)); (cw, (neg_y, neg_x)) ].

Definition listed (p : Pairing) (l : list Pairing) : bool :=
  existsb (pairing_eqb p) l.

(** The exact value of 360, one turn, in units of [2 ^ -1074]. *)
Definition turn : Z := 360 * 2 ^ 1074.

(** The number of the exact value [z * 2 ^ -1074]. *)
Definition of_scaled (z : Z) (negative_zero : bool) : float :=
  SF2Prim (binary_normalize prec emax z (-1074) negative_zero).

(** "Reduce modulo 360", as the specification glosses it: the degree
    from 0 (included) to 360 (excluded) that differs from [x] by whole
    turns, [x - 360 * floor (x / 360)] on the exact values. *)
Definition normalized (x : float) : float :=
  match Prim2SF x with
  | S754_nan | S754_infinity _ => nan
  | S754_zero _ | S754_finite _ _ _ =>
      let v := Rounding.scaled (Prim2SF x) in
      of_scaled (v - turn * (v / turn)) false
  end.

(** The remainder of the division by 360 whose quotient is truncated
    toward zero, [x - 360 * trunc (x / 360)] on the exact values: it
    has the sign of [x]. *)
Definition truncated (x : float) : float :=
  match Prim2SF x with
  | S754_nan | S754_infinity _ => nan
  | S754_zero s => of_scaled 0 s
  | S754_finite s _ _ =>
      let v := Rounding.scaled (Prim2SF x) in
      of_scaled (v - turn * Z.quot v turn) s
  end.

(** The four steps, with [reduce] for "reduce modulo 360". *)
Definition convertAngle_steps
    (reduce : float -> float)
    (degree : float) (from to : AngleDescription) : Result float :=
  let degree :=
    if direction_eqb (direction from) (direction to)
    then degree else flip degree in
  if axis_eqb (axis from) (axis to) then Ok degree
  else if same_line (axis from) (axis to) then Ok (reduce (180 + degree))
  else
    let p := (direction to, (axis from, axis to)) in
    if listed p offset_90 then Ok (reduce (90 + degree))
    else if listed p offset_270 then Ok (reduce (270 + degree))
    else Throw InternalInvariant.

(** The sweep flags as the specification words them: the inner and
    the outer arc sweep as [direction] says, the two caps the other
    way. *)
Definition caps_sweep_against_both_arcs
    (d : Direction) (p : svgPaths.ArcPath) : Prop :=
  svgPaths.sweepFlag (svgPaths.innerArc p) = svgPaths.is_cw d
  /\ svgPaths.sweepFlag (svgPaths.outerArc p) = svgPaths.is_cw d
  /\ svgPaths.sweepFlag (svgPaths.firstButt p) = negb (svgPaths.is_cw d)
  /\ svgPaths.sweepFlag (svgPaths.secondButt p) = negb (svgPaths.is_cw d).

End Spec.

(** ** An engine on the coordinate axes

    The values a correctly rounded library returns on and next to the
    coordinate axes: near 0 the sine is its argument and the cosine is 1;
    at the binary64 value of pi/2 the sine is 1 and the cosine is the
    small positive number 6.123233995736766e-17; [atan2] of a point of
    an axis is 0, pi/2, pi or -pi/2, and of a point next to the positive
    x axis it is the quotient of its coordinates.  Elsewhere this engine
    answers NaN.  It instantiates the statements below that assume some
    of these values. *)

Module AxisEngine.

#[local] Open Scope float_scope.
Import Number.

Definition cos_half_pi : float := 0x1.1a62633145c07p-54.

Definition sin (t : float) : float :=
  if abs t <? 0x1p-27 then t
  else if t =? PI / 2 then 1
  else if t =? - (PI / 2) then -1
  else nan.

Definition cos (t : float) : float :=
  if abs t <? 0x1p-27 then 1
  else if abs t =? PI / 2 then cos_half_pi
  else nan.

Definition atan2 (y x : float) : float :=
  if (0 <? x) && (abs (y / x) <? 0x1p-29) then y / x
  else if (x =? 0) && (0 <? y) then PI / 2
  else if (x =? 0) && (y <? 0) then - (PI / 2)
  else if (y =? 0) && (x <? 0) then (if get_sign y then - PI else PI)
  else nan.

Definition math : JSMath :=
  {| Math_sin := sin; Math_cos := cos; Math_atan2 := atan2 |}.

End AxisEngine.

(** ** The same engine, with the origin

    ECMAScript fixes [Math.atan2] where both arguments are zeros: the
    result is the zero [y] when [x] is [+0], and pi with the sign of
    [y] when [x] is [-0].  Elsewhere this engine is the engine on the
    axes. *)

Module CentreEngine.

#[local] Open Scope float_scope.
Import Number.

Definition atan2 (y x : float) : float :=
  if (y =? 0) && (x =? 0) then
    (if get_sign x then (if get_sign y then - PI else PI) else y)
  else AxisEngine.atan2 y x.

Definition math : JSMath :=
  {| Math_sin := AxisEngine.sin;
     Math_cos := AxisEngine.cos;
     Math_atan2 := atan2 |}.

End CentreEngine.

(** ** What the examples assume of the engine *)

Module Assumed.

#[local] Open Scope float_scope.
Import Number.

(** The values of [Math.sin], [Math.cos] and [Math.atan2] at the four
    cardinal directions of a circle of radius 50. *)
Record CardinalValues (engine : JSMath) : Prop := {
  sin_at_0 : Math_sin 0 = 0;
  cos_at_0 : Math_cos 0 = 1;
  sin_at_half_pi : Math_sin (PI / 2) = 1;
  cos_at_half_pi : Math_cos (PI / 2) = AxisEngine.cos_half_pi;
  atan2_on_pos_x : Math_atan2 0 50 = 0;
  atan2_on_pos_y : Math_atan2 50 0 = PI / 2;
  atan2_on_neg_x : Math_atan2 0 (-50) = PI;
  atan2_on_neg_y : Math_atan2 (-50) 0 = - (PI / 2)
}.

(** The values at the bottom of the circle, which is -90 degrees and
    also 270 degrees. *)
Record BottomValues (engine : JSMath) : Prop := {
  sin_of_half_pi : Math_sin (PI / 2) = 1;
  cos_of_half_pi : Math_cos (PI / 2) = AxisEngine.cos_half_pi;
  sin_of_minus_half_pi : Math_sin (- (PI / 2)) = -1;
  cos_of_minus_half_pi : Math_cos (- (PI / 2)) = AxisEngine.cos_half_pi
}.

End Assumed.
(** ** Whole turns

    Two degrees, as real numbers, that differ by a whole number of
    turns: what "congruent modulo 360" says. *)

Module Exact.

#[local] Open Scope R_scope.

Definition congruent_mod_360 (a b : R) : Prop :=
  exists k : Z, b = a + 360 * IZR k.

End Exact.

(** ** [Math.round] and [Math.ceil]

    ECMAScript fixes both exactly.  A number that is not finite or is
    integral is returned as it is; otherwise [Math.round] returns the
    integer nearest to it, the larger one at a tie, and [Math.ceil] the
    least integer not below it; a zero result has the sign of the
    argument.  A finite number with a negative exponent is below 2^53
    in magnitude, so the integer is a binary64 value. *)

Module Math.

#[local] Open Scope float_scope.

(** The number of value [z]; the zero of the given sign when [z] is 0. *)
Definition integer (z : Z) (negative_zero : bool) : float :=
  SF2Prim (binary_normalize prec emax z 0 negative_zero).

(** [floor (x + 1/2)] for [x = +-m * 2^e]. *)
Definition round (x : float) : float :=
  match Prim2SF x with
  | S754_finite s m e =>
      if (0 <=? e)%Z then x
      else
        integer ((2 * cond_Zopp s (Zpos m) + 2 ^ (- e)) / 2 ^ (1 - e))%Z s
  | _ => x
  end.

(** [- floor (- x)] for [x = +-m * 2^e]. *)
Definition ceil (x : float) : float :=
  match Prim2SF x with
  | S754_finite s m e =>
      if (0 <=? e)%Z then x
      else integer (- ((- cond_Zopp s (Zpos m)) / 2 ^ (- e)))%Z s
  | _ => x
  end.

End Math.

(** ** components/KnobSvg.tsx

    The attributes of the knob's [svg] element that the component
    computes; an optional boolean property that is left out is
    [false]. *)

Module KnobSvg.

#[local] Open Scope float_scope.

Record KnobProps : Type := {
  x : float;
  y : float;
  animated : bool;
  disabled : bool;
  noControl : bool;
  trackWidth : float
}.

Record KnobElement : Type := {
  svg_width : float;
  svg_height : float;
  svg_x : float;
  svg_y : float;
  cursor : string;
  circle_fill : string;
  hand_icon : bool
}.

Definition Knob (props : KnobProps) : KnobElement :=
  let knobColor := (if disabled props then "#999" else "#364F6B")%string in
  let cursorStyle :=
    (if disabled props then "not-allowed" else "pointer")%string in
  let scaleForTrack := Math.ceil (trackWidth props * 1.7) in
  {| svg_width := scaleForTrack;
     svg_height := scaleForTrack;
     svg_x := x props - scaleForTrack / 2;
     svg_y := y props - scaleForTrack / 2;
     cursor := if noControl props then "default"%string else cursorStyle;
     circle_fill := knobColor;
     hand_icon := animated props && negb (noControl props) |}.

End KnobSvg.

(** ** components/CircularSlider.tsx *)

(** What the browser provides: the point of the [svg] element's own
    coordinate system under a point of the screen,
    [svgPoint.matrixTransform(svgRef.getScreenCTM()?.inverse())] for
    the [svgPoint] with the given [x] and [y]. *)
Class SvgDom : Type := {
  coordsInSvg : float -> float -> circularGeometry.Position
}.

Module CircularSlider.

#[local] Open Scope float_scope.
Import Number circularGeometry.

(** [knob.onChange] and [onControlFinished] are functions of the user
    of the component: a property says whether one is given, and a call
    of it is recorded (see [Call]). *)
Record KnobConfig : Type := {
  value : float;
  onChange : bool
}.

Record CircularSliderProps : Type := {
  angleType : AngleDescription;
  animated : bool;
  arcBackgroundColor : string;
  arcColor : option string;
  className : option string;
  coerceToInt : bool;
  coerceToHalf : bool;
  coerceToQuarter : bool;
  disabled : bool;
  endAngle : float;
  knob : KnobConfig;
  onControlFinished : bool;
  maxValue : float;
  minValue : float;
  noControl : bool;
  sizeH : float;
  sizeW : float;
  startAngle : float;
  trackWidth : float
}.

(** *** The events *)

Record MouseEvent : Type := {
  buttons : Z;
  clientX : float;
  clientY : float
}.

Record Touch : Type := {
  touch_clientX : float;
  touch_clientY : float
}.

Inductive TouchEventType : Type :=
  | touchstart | touchend | touchmove | touchcancel.

Definition touch_type_eqb (a b : TouchEventType) : bool :=
  match a, b with
  | touchstart, touchstart | touchend, touchend
  | touchmove, touchmove | touchcancel, touchcancel => true
  | _, _ => false
  end.

Record TouchEvent : Type := {
  type : TouchEventType;
  touches : list Touch;
  changedTouches : list Touch
}.

(** *** The instance

    [this.svgRef.current] is the mounted [svg] element, or null.  Of
    the element the handlers use its event listeners: the pairs of an
    event type and one of the two handlers that are registered on it. *)

Inductive ListenerType : Type := mousemove | mouseleave | mouseup.

Inductive Listener : Type := handleMouseMove_ref | removeMouseListeners_ref.

Definition Registration : Type := (ListenerType * Listener)%type.

Definition registration_eqb (a b : Registration) : bool :=
  match fst a, fst b with
  | mousemove, mousemove | mouseleave, mouseleave | mouseup, mouseup =>
      match snd a, snd b with
      | handleMouseMove_ref, handleMouseMove_ref
      | removeMouseListeners_ref, removeMouseListeners_ref => true
      | _, _ => false
      end
  | _, _ => false
  end.

Record SvgElement : Type := {
  listeners : list Registration
}.

(** [addEventListener] does nothing when the same listener is already
    registered for the type; [removeEventListener] removes it. *)
Definition addEventListener
    (t : ListenerType) (l : Listener) (svg : SvgElement) : SvgElement :=
  if existsb (registration_eqb (t, l)) (listeners svg) then svg
  else {| listeners := listeners svg ++ [(t, l)] |}.

Definition removeEventListener
    (t : ListenerType) (l : Listener) (svg : SvgElement) : SvgElement :=
  {| listeners :=
       filter (fun r => negb (registration_eqb (t, l) r)) (listeners svg) |}.

Record Instance : Type := {
  svgRef : option SvgElement
}.

(** *** What a handler does

    A handler leaves the instance in a state, has called the user's
    functions in some order, and has returned or thrown. *)

Inductive Call : Type :=
  | onChange_call (value : float)
  | onControlFinished_call
  | stopPropagation_call.

Record Outcome : Type := {
  after : Instance;
  calls : list Call;
  thrown : option Exception
}.

Definition returns (this : Instance) : Outcome :=
  {| after := this; calls := []; thrown := None |}.

Definition throws (e : Exception) (this : Instance) : Outcome :=
  {| after := this; calls := []; thrown := Some e |}.

Definition call (c : Call) (this : Instance) : Outcome :=
  {| after := this; calls := [c]; thrown := None |}.

(** One statement after another: the second runs when the first
    returned. *)
Definition and_then (o : Outcome) (k : Instance -> Outcome) : Outcome :=
  match thrown o with
  | Some _ => o
  | None =>
      let o' := k (after o) in
      {| after := after o';
         calls := calls o ++ calls o';
         thrown := thrown o' |}
  end.

(** Reading a property of [undefined] ([touch.clientX] when
    [changedTouches] is empty) throws a TypeError. *)
Definition UndefinedTouch : Exception :=
  Error "Cannot read properties of undefined (reading 'clientX')".

Section WithBrowser.

Context {engine : JSMath} {text : NumberText} {dom : SvgDom}.

(** The three statements that coerce the value. *)
Definition coerce (props : CircularSliderProps) (value : float) : float :=
  let value := if coerceToInt props then Math.round value else value in
  let value :=
    if coerceToHalf props then Math.round (value * 2) / 2 else value in
  let value :=
    if coerceToQuarter props then Math.round (value * 4) / 4 else value in
  value.

Definition processSelection
    (props : CircularSliderProps) (x y : float) (this : Instance)
    : Outcome :=
  if negb (onChange (knob props)) then returns this
  else
    match svgRef this with
    | None => returns this
    | Some svgRef =>
        let coordsInSvg := coordsInSvg x y in
        match
          angle <- positionToAngle coordsInSvg (sizeW props)
                                   (angleType props) ;;
          angleToValue {| atv_angle := angle;
                          atv_minValue := minValue props;
                          atv_maxValue := maxValue props;
                          atv_startAngle := startAngle props;
                          atv_endAngle := endAngle props |}
        with
        | Throw e => throws e this
        | Ok value =>
            let value := coerce props value in
            if negb (disabled props) then call (onChange_call value) this
            else returns this
        end
    end.

(** The value [processSelection] computes for the point [(x, y)] of
    the screen, before it coerces it: its calls of [positionToAngle]
    and [angleToValue]. *)
Definition selected
    (props : CircularSliderProps) (x y : float) : Result float :=
  angle <- positionToAngle (coordsInSvg x y) (sizeW props)
                           (angleType props) ;;
  angleToValue {| atv_angle := angle;
                  atv_minValue := minValue props;
                  atv_maxValue := maxValue props;
                  atv_startAngle := startAngle props;
                  atv_endAngle := endAngle props |}.

Definition handleMousePosition
    (props : CircularSliderProps) (ev : MouseEvent) (this : Instance)
    : Outcome :=
  if animated props || noControl props then returns this
  else processSelection props (clientX ev) (clientY ev) this.

Definition handleMouseMove
    (props : CircularSliderProps) (ev : MouseEvent) (this : Instance)
    : Outcome :=
  handleMousePosition props ev this.

Definition onMouseDown
    (props : CircularSliderProps) (ev : MouseEvent) (this : Instance)
    : Outcome :=
  let this :=
    match svgRef this with
    | Some svgRef =>
        let svgRef := addEventListener mousemove handleMouseMove_ref svgRef in
        let svgRef :=
          addEventListener mouseleave removeMouseListeners_ref svgRef in
        let svgRef :=
          addEventListener mouseup removeMouseListeners_ref svgRef in
        {| svgRef := Some svgRef |}
    | None => this
    end in
  handleMousePosition props ev this.

Definition onMouseEnter
    (props : CircularSliderProps) (ev : MouseEvent) (this : Instance)
    : Outcome :=
  if (buttons ev =? 1)%Z then onMouseDown props ev this
  else returns this.

Definition removeMouseListeners
    (props : CircularSliderProps) (this : Instance) : Outcome :=
  let this :=
    match svgRef this with
    | Some svgRef =>
        let svgRef :=
          removeEventListener mousemove handleMouseMove_ref svgRef in
        let svgRef :=
          removeEventListener mouseleave removeMouseListeners_ref svgRef in
        let svgRef :=
          removeEventListener mouseup removeMouseListeners_ref svgRef in
        {| svgRef := Some svgRef |}
    | None => this
    end in
  if onControlFinished props then call onControlFinished_call this
  else returns this.

Definition onTouch
    (props : CircularSliderProps) (ev : TouchEvent) (this : Instance)
    : Outcome :=
  if animated props || noControl props then returns this
  else if (1 <? length (touches ev))%nat
          || (touch_type_eqb (type ev) touchend
              && (0 <? length (touches ev))%nat)
  then returns this
  else
    match changedTouches ev with
    | [] => throws UndefinedTouch this
    | touch :: _ =>
        let x := touch_clientX touch in
        let y := touch_clientY touch in
        and_then (processSelection props x y this) (fun this =>
          if touch_type_eqb (type ev) touchend
             || touch_type_eqb (type ev) touchcancel
          then
            if onControlFinished props
            then call onControlFinished_call this
            else returns this
          else returns this)
    end.

(** [controllable] of [render], and the [onClick] handler it guards. *)
Definition controllable (props : CircularSliderProps) : bool :=
  negb (disabled props) && onChange (knob props).

Definition onClick (props : CircularSliderProps) (this : Instance)
    : Outcome :=
  if controllable props then call stopPropagation_call this
  else returns this.

(** The registrations [onMouseDown] makes, in its order. *)
Definition drag_listeners : list Registration :=
  [ (mousemove, handleMouseMove_ref);
    (mouseleave, removeMouseListeners_ref);
    (mouseup, removeMouseListeners_ref) ].

(** *** The handlers, one invocation after another

    An invocation of one of the handlers of the instance; each one
    starts from the state the one before left, whether that one
    returned or threw. *)
Inductive Invocation : Type :=
  | invoke_onMouseEnter (ev : MouseEvent)
  | invoke_onMouseDown (ev : MouseEvent)
  | invoke_handleMouseMove (ev : MouseEvent)
  | invoke_removeMouseListeners
  | invoke_onTouch (ev : TouchEvent)
  | invoke_onClick.

Definition invoke
    (props : CircularSliderProps) (i : Invocation) (this : Instance)
    : Outcome :=
  match i with
  | invoke_onMouseEnter ev => onMouseEnter props ev this
  | invoke_onMouseDown ev => onMouseDown props ev this
  | invoke_handleMouseMove ev => handleMouseMove props ev this
  | invoke_removeMouseListeners => removeMouseListeners props this
  | invoke_onTouch ev => onTouch props ev this
  | invoke_onClick => onClick props this
  end.

Fixpoint session
    (props : CircularSliderProps) (invocations : list Invocation)
    (this : Instance) : Instance * list Call :=
  match invocations with
  | [] => (this, [])
  | i :: rest =>
      let o := invoke props i this in
      let '(final, later) := session props rest (after o) in
      (final, calls o ++ later)
  end.

(** *** [render]

    The attributes of the elements that [render] computes.  [uuid] is
    the string the call of [uuidv4] returns. *)

Inductive ArcElement : Type :=
  | FilledPath (d fill : string)
  | ClippedGradient
      (clipPathId d : string) (width height : float)
      (clipPath backgroundImage : string).

Record SliderElement : Type := {
  svg_className : string;
  svg_width : float;
  svg_height : float;
  svg_viewBox : string;
  click_stops : bool;
  background_d : string;
  background_fill : string;
  arc : ArcElement;
  knob_props : KnobSvg.KnobProps
}.

(** [clsx] of the fixed class name and the optional one: the strings
    that are given and not empty, joined by a space. *)
Definition clsx (name : string) (className : option string) : string :=
  match className with
  | Some (String c rest) => (name ++ " " ++ String c rest)%string
  | _ => name
  end.

Definition truthy (s : option string) : bool :=
  match s with
  | Some (String _ _) => true
  | _ => false
  end.

Definition disabled_gradient : string :=
  "conic-gradient(from 150deg at center, #474747 -41.78deg, #8a8a8a 94.31deg, #b0b0b0 148.26deg, #9f9f9f 231.17deg, #474747 318.22deg, #a6a6a6 454.31deg)".

Definition enabled_gradient : string :=
  "conic-gradient(from 150deg at center, #008e77 -41.78deg, #fc5185 94.31deg, #ffb961 148.26deg, #71c9ce 231.17deg, #008e77 318.22deg, #fc5185 454.31deg)".

Definition render (props : CircularSliderProps) (uuid : string)
    : Result SliderElement :=
  let trackInnerRadius := sizeW props / 2 - trackWidth props in
  knobAngle <-
    valueToAngle {| vta_value := value (knob props);
                    vta_minValue := minValue props;
                    vta_maxValue := maxValue props;
                    vta_startAngle := startAngle props;
                    vta_endAngle := endAngle props |} ;;
  knobPosition <-
    angleToPosition
      {| degree := knobAngle; description := angleType props |}
      (trackInnerRadius + trackWidth props / 2) (sizeW props) ;;
  let controllable := controllable props in
  archBackgroundPath <-
    svgPaths.arcPathWithRoundedEnds
      {| svgPaths.startAngle := startAngle props;
         svgPaths.endAngle := knobAngle;
         svgPaths.angleType := angleType props;
         svgPaths.innerRadius := trackInnerRadius;
         svgPaths.thickness := trackWidth props;
         svgPaths.svgSize := sizeW props;
         svgPaths.arcDirection := direction (angleType props) |} ;;
  let clipPathUrl := ("arc-background-clip-" ++ uuid)%string in
  let scaleForTrack := Math.ceil (trackWidth props * 0.45) in
  background <-
    svgPaths.arcPathWithRoundedEnds
      {| svgPaths.startAngle := knobAngle;
         svgPaths.endAngle := endAngle props;
         svgPaths.angleType := angleType props;
         svgPaths.innerRadius := trackInnerRadius;
         svgPaths.thickness := trackWidth props;
         svgPaths.svgSize := sizeW props;
         svgPaths.arcDirection := direction (angleType props) |} ;;
  Ok {| svg_className := clsx "circular-slider-svg" (className props);
        svg_width := sizeW props;
        svg_height := sizeH props;
        svg_viewBox :=
          ("-" ++ Number_toString (scaleForTrack / 2)
           ++ " -" ++ Number_toString (scaleForTrack / 2)
           ++ " " ++ Number_toString (sizeW props + scaleForTrack)
           ++ " " ++ Number_toString (sizeH props + scaleForTrack))%string;
        click_stops := controllable;
        background_d := background;
        background_fill := arcBackgroundColor props;
        arc :=
          if truthy (arcColor props) then
            FilledPath archBackgroundPath
              (if disabled props then "#999"%string
               else match arcColor props with
                    | Some color => color
                    | None => EmptyString
                    end)
          else
            ClippedGradient clipPathUrl archBackgroundPath
              (sizeW props) (sizeH props)
              ("url(#" ++ clipPathUrl ++ ")")%string
              (if disabled props then disabled_gradient
               else enabled_gradient);
        knob_props :=
          {| KnobSvg.x := x knobPosition;
             KnobSvg.y := y knobPosition;
             KnobSvg.disabled := disabled props;
             KnobSvg.animated := animated props;
             KnobSvg.noControl := noControl props;
             KnobSvg.trackWidth := trackWidth props |} |}.

End WithBrowser.

(** *** States and call records the statements speak of *)

(** No call of [knob.onChange] among the calls. *)
Definition silent (cs : list Call) : Prop :=
  forall value, ~ In (onChange_call value) cs.

(** The conditions under which the slider is not to report values. *)
Definition not_interactive (props : CircularSliderProps) : Prop :=
  disabled props = true
  \/ animated props = true
  \/ noControl props = true
  \/ onChange (knob props) = false
  \/ (endAngle props <=? startAngle props) = true.

(** The element is mounted and has exactly these listeners. *)
Definition listening (this : Instance) (l : list Registration) : Prop :=
  svgRef this = Some {| listeners := l |}.

Definition idle_or_dragging (this : Instance) : Prop :=
  listening this [] \/ listening this drag_listeners.

End CircularSlider.

(** ** A browser for the examples

    The [svg] element sits at the origin of the screen, unscaled: a
    point of the screen is the same point of the element. *)

Module OriginDom.

Definition same_point (x y : float) : circularGeometry.Position :=
  {| circularGeometry.x := x; circularGeometry.y := y |}.

Definition dom : SvgDom := {| coordsInSvg := same_point |}.

End OriginDom.

(** ** A slider for the examples

    The properties the tests of the component start from
    ([baseProps] of [CircularSlider.test.tsx]), the same slider
    disabled, the same with the three coercions, an instance whose element is mounted without listeners,
    a press of the left button, and the end of a touch at the bottom
    of the element. *)

Module Examples.

#[local] Open Scope float_scope.
Import circularGeometry CircularSlider.

Definition propsWith (isDisabled coerced : bool) : CircularSliderProps :=
  {| angleType := {| direction := cw; axis := neg_y |};
     animated := false;
     arcBackgroundColor := "#ccc";
     arcColor := Some "#f00"%string;
     className := None;
     coerceToInt := coerced;
     coerceToHalf := coerced;
     coerceToQuarter := coerced;
     disabled := isDisabled;
     endAngle := 270;
     knob := {| value := 5; onChange := true |};
     onControlFinished := true;
     maxValue := 10;
     minValue := 0;
     noControl := false;
     sizeH := 100;
     sizeW := 100;
     startAngle := 0;
     trackWidth := 10 |}.

Definition baseProps : CircularSliderProps := propsWith false false.

Definition disabledProps : CircularSliderProps := propsWith true false.

Definition coercingProps : CircularSliderProps := propsWith false true.

Definition mounted : Instance :=
  {| svgRef := Some {| listeners := [] |} |}.

Definition press : MouseEvent :=
  {| buttons := 1; clientX := 50; clientY := 100 |}.

Definition lastTouch : Touch :=
  {| touch_clientX := 50; touch_clientY := 100 |}.

Definition touchEnds : TouchEvent :=
  {| type := touchend; touches := []; changedTouches := [lastTouch] |}.

End Examples.

(** ** Whole degrees

    The conversion between angle descriptions in integer arithmetic, to
    be compared with [convertAngle] on the numbers of the whole degrees
    from 0 to 359. *)

Module WholeDegrees.

Import circularGeometry.

(** The number of the whole degree [n]. *)
Definition number (n : Z) : float := Math.integer n false.

Definition sense (from to : AngleDescription) : Z :=
  if Spec.direction_eqb (direction from) (direction to) then 1 else -1.

Definition offset (from to : AngleDescription) : Z :=
  if Spec.axis_eqb (axis from) (axis to) then 0
  else if Spec.same_line (axis from) (axis to) then 180
  else if Spec.listed (direction to, (axis from, axis to)) Spec.offset_90
  then 90
  else 270.

Definition converted (n : Z) (from to : AngleDescription) : Z :=
  (sense from to * n + offset from to) mod 360.

Definition descriptions : list AngleDescription :=
  [ {| direction := cw; axis := pos_x |};
    {| direction := cw; axis := neg_x |};
    {| direction := cw; axis := pos_y |};
    {| direction := cw; axis := neg_y |};
    {| direction := ccw; axis := pos_x |};
    {| direction := ccw; axis := neg_x |};
    {| direction := ccw; axis := pos_y |};
    {| direction := ccw; axis := neg_y |} ].

(** A call returned exactly this number. *)
Definition returned (r : Result float) (expected : float) : bool :=
  match r with
  | Ok f => PrimFloat.Leibniz.eqb f expected
  | Throw _ => false
  end.

(** [convertAngle] on the degree [n], between all descriptions: it
    returns the number of [converted n], and the conversion back
    returns the number of [n]. *)
Definition agrees (n : nat) : bool :=
  let n := Z.of_nat n in
  forallb (fun from =>
    forallb (fun to =>
      returned (convertAngle (number n) from (Some to))
               (number (converted n from to))
      && returned (convertAngle (number (converted n from to)) to
                                (Some from))
                  (number n))
      descriptions)
    descriptions.

(** In integer arithmetic, converting the degree [n] from a
    description to a second and on to a third gives what converting
    from the first to the third gives. *)
Definition composes (n : nat) : bool :=
  let n := Z.of_nat n in
  forallb (fun a =>
    forallb (fun b =>
      forallb (fun c =>
        Z.eqb (converted (converted n a b) b c) (converted n a c))
        descriptions)
      descriptions)
    descriptions.

End WholeDegrees.

(** * Facts about binary64 arithmetic

    Derived from the specification of the primitive operations
    ([FloatAxioms]) by unfolding the operations of [SpecFloat]. *)

Module FloatFacts.

#[local] Open Scope float_scope.
Import FloatKinds.

(** ** Comparisons *)

Lemma SFcompare_swap (a b : spec_float) :
  SFcompare b a = option_map CompOpp (SFcompare a b).
Proof.
  destruct a as [sa | sa | | sa ma ea], b as [sb | sb | | sb mb eb];
    simpl; try reflexivity;
    try (destruct sa; reflexivity);
    try (destruct sb; reflexivity);
    try (destruct sa, sb; reflexivity).
  destruct sa, sb; simpl; try reflexivity;
    rewrite (Z.compare_antisym ea eb);
    destruct (ea ?= eb)%Z; simpl; try reflexivity;
    rewrite (Pos.compare_cont_antisym ma mb Eq); reflexivity.
Qed.

(** [a < b] excludes [b <= a]. *)
Lemma ltb_leb_false (a b : float) :
  (a <? b) = true -> (b <=? a) = false.
Proof.
  rewrite ltb_spec, leb_spec. unfold SFltb, SFleb.
  rewrite (SFcompare_swap (Prim2SF a) (Prim2SF b)).
  destruct (SFcompare (Prim2SF a) (Prim2SF b)) as [[ | | ] | ];
    simpl; congruence.
Qed.

(** Equal numbers are in the relation [<=]. *)
Lemma eqb_leb (a b : float) :
  (a =? b) = true -> (a <=? b) = true.
Proof.
  rewrite eqb_spec, leb_spec. unfold SFeqb, SFleb.
  destruct (SFcompare (Prim2SF a) (Prim2SF b)) as [[ | | ] | ];
    congruence.
Qed.

Lemma SFeqb_refl (a : spec_float) : SFfinite a -> SFeqb a a = true.
Proof.
  destruct a as [s | s | | s m e]; simpl; try (intros []; fail); intros _.
  - reflexivity.
  - unfold SFeqb, SFcompare.
    rewrite Z.compare_refl, Pos.compare_cont_refl.
    destruct s; reflexivity.
Qed.

(** ** Addition commutes *)

Lemma SFadd_comm (a b : spec_float) :
  SFadd prec emax a b = SFadd prec emax b a.
Proof.
  destruct a as [sa | sa | | sa ma ea], b as [sb | sb | | sb mb eb];
    simpl; try reflexivity;
    try (destruct sa, sb; reflexivity).
  rewrite (Z.min_comm eb ea). f_equal. apply Z.add_comm.
Qed.

(** A NaN has no payload here, as in JavaScript, where it cannot be
    observed. *)
Lemma add_comm (a b : float) : a + b = b + a.
Proof.
  apply Prim2SF_inj. rewrite !add_spec. apply SFadd_comm.
Qed.

(** ** Finite numbers *)

Lemma is_finite_SFfinite (a : float) :
  is_finite a = true -> SFfinite (Prim2SF a).
Proof.
  unfold is_finite, is_nan, is_infinity.
  rewrite !eqb_spec, abs_spec.
  change (Prim2SF infinity) with (S754_infinity false).
  destruct (Prim2SF a) as [s | s | | s m e]; simpl; try exact (fun _ => I).
  - destruct s; discriminate.
  - discriminate.
Qed.

(** A difference is finite only if both numbers are. *)
Lemma SFsub_finite_inv (a b : spec_float) :
  SFfinite (SFsub prec emax a b) -> SFfinite a /\ SFfinite b.
Proof.
  destruct a as [sa | sa | | sa ma ea], b as [sb | sb | | sb mb eb];
    simpl; try (intros []; fail); try (split; exact I);
    destruct sa, sb; simpl; intros []; split; exact I.
Qed.

Lemma sub_finite_inv (a b : float) :
  is_finite (a - b) = true ->
  SFfinite (Prim2SF a) /\ SFfinite (Prim2SF b).
Proof.
  intros Hfin. apply is_finite_SFfinite in Hfin.
  rewrite sub_spec in Hfin. exact (SFsub_finite_inv _ _ Hfin).
Qed.

(** ** Zeros *)

(** [a - a] is [+0]. *)
Lemma SFsub_diag (a : spec_float) :
  SFfinite a -> SFsub prec emax a a = S754_zero false.
Proof.
  destruct a as [s | s | | s m e]; simpl; try (intros []; fail); intros _.
  - destruct s; reflexivity.
  - rewrite Z.min_id, Z.sub_diag. reflexivity.
Qed.

(** A zero divided by a number that is neither a zero nor NaN is a
    zero; so is a zero multiplied by a finite number; a zero added to a
    finite number is that number, up to the sign of a zero. *)
Lemma SFdiv_zero_l (s : bool) (d : spec_float) :
  SFnonzero d -> exists s', SFdiv prec emax (S754_zero s) d = S754_zero s'.
Proof.
  destruct d as [sd | sd | | sd md ed]; simpl; try (intros []; fail);
    intros _; eexists; reflexivity.
Qed.

Lemma SFmul_zero_l (s : bool) (t : spec_float) :
  SFfinite t -> exists s', SFmul prec emax (S754_zero s) t = S754_zero s'.
Proof.
  destruct t as [st | st | | st mt et]; simpl; try (intros []; fail);
    intros _; eexists; reflexivity.
Qed.

Lemma SFadd_zero_l (s : bool) (a : spec_float) :
  SFfinite a -> SFeqb (SFadd prec emax (S754_zero s) a) a = true.
Proof.
  destruct a as [sa | sa | | sa ma ea]; simpl; try (intros []; fail);
    intros _.
  - destruct s, sa; reflexivity.
  - apply (SFeqb_refl (S754_finite sa ma ea)). exact I.
Qed.

(** ** Rounding keeps a number away from zero

    A nonzero integer times a power of two that is at least the least
    exponent rounds to a nonzero number: a sum or a difference does not
    underflow to zero. *)

Section Rounding.

#[local] Open Scope Z_scope.

Lemma digits2_pos_iter_xO (m d : positive) :
  digits2_pos (Pos.iter xO m d) = (digits2_pos m + d)%positive.
Proof.
  induction d as [ | d IH] using Pos.peano_ind.
  - cbn. lia.
  - rewrite Pos.iter_succ. cbn [digits2_pos]. rewrite IH. lia.
Qed.

(** A shift to the right by one digit, and by [p] digits. *)
Lemma shr_1_digits (mrs : shr_record) :
  Zdigits2 (shr_m (shr_1 mrs)) = Z.max 0 (Zdigits2 (shr_m mrs) - 1).
Proof.
  destruct mrs as [[ | [p | p | ] | [p | p | ]] r s];
    cbn [shr_1 shr_m Zdigits2 digits2_pos]; lia.
Qed.

Lemma shr_1_nonneg (mrs : shr_record) :
  0 <= shr_m mrs -> 0 <= shr_m (shr_1 mrs).
Proof.
  destruct mrs as [[ | [p | p | ] | [p | p | ]] r s]; cbn; lia.
Qed.

Lemma iter_shr_1_digits (p : positive) (mrs : shr_record) :
  Zdigits2 (shr_m (SpecFloat.iter_pos shr_1 p mrs))
  = Z.max 0 (Zdigits2 (shr_m mrs) - Z.pos p).
Proof.
  revert mrs.
  induction p as [p IH | p IH | ]; intros mrs; cbn [SpecFloat.iter_pos].
  - rewrite !IH, shr_1_digits. lia.
  - rewrite !IH. lia.
  - apply shr_1_digits.
Qed.

Lemma iter_shr_1_nonneg (p : positive) (mrs : shr_record) :
  0 <= shr_m mrs -> 0 <= shr_m (SpecFloat.iter_pos shr_1 p mrs).
Proof.
  revert mrs.
  induction p as [p IH | p IH | ]; intros mrs H; cbn [SpecFloat.iter_pos].
  - apply IH, IH, shr_1_nonneg, H.
  - apply IH, IH, H.
  - apply shr_1_nonneg, H.
Qed.

Lemma Zdigits2_pos_inv (z : Z) : 0 <= z -> 0 < Zdigits2 z -> 0 < z.
Proof. destruct z; cbn; lia. Qed.

Lemma Zdigits2_of_pos (z : Z) : 0 < z -> 0 < Zdigits2 z.
Proof. destruct z; cbn; lia. Qed.

Lemma shr_m_of_loc (m : Z) (l : location) :
  shr_m (shr_record_of_loc m l) = m.
Proof. destruct l as [ | [ | | ]]; reflexivity. Qed.

(** Bringing a positive mantissa to the format leaves it positive:
    above the least exponent at most the digits beyond the precision
    are shifted out. *)
Lemma shr_fexp_positive (m e : Z) (l : location) :
  0 < m -> SpecFloat.emin prec emax <= e ->
  0 < shr_m (fst (shr_fexp prec emax m e l))
  /\ SpecFloat.emin prec emax <= snd (shr_fexp prec emax m e l).
Proof.
  intros Hm He. unfold shr_fexp, shr.
  pose proof (Zdigits2_of_pos m Hm) as Hd.
  destruct (fexp prec emax (Zdigits2 m + e) - e) as [ | p | p] eqn:Hn;
    cbn [fst snd]; rewrite ?shr_m_of_loc; try (split; assumption).
  split.
  - apply Zdigits2_pos_inv.
    + apply iter_shr_1_nonneg. rewrite shr_m_of_loc. lia.
    + rewrite iter_shr_1_digits, shr_m_of_loc.
      unfold fexp in Hn. change prec with 53 in *. lia.
  - lia.
Qed.

Lemma round_nearest_even_positive (m : Z) (l : location) :
  0 < m -> 0 < round_nearest_even m l.
Proof.
  intros Hm. destruct l as [ | [ | | ]]; cbn; try lia.
  destruct (Z.even m); lia.
Qed.

Lemma binary_round_aux_nonzero (s : bool) (m e : Z) (l : location) :
  0 < m -> SpecFloat.emin prec emax <= e ->
  SFnonzero (binary_round_aux prec emax s m e l).
Proof.
  intros Hm He. unfold binary_round_aux.
  destruct (shr_fexp_positive m e l Hm He) as [Hm1 He1].
  destruct (shr_fexp prec emax m e l) as [mrs1 e1]. cbn [fst snd] in *.
  pose proof (round_nearest_even_positive
                (shr_m mrs1) (loc_of_shr_record mrs1) Hm1) as Hm2.
  destruct (shr_fexp_positive _ e1 loc_Exact Hm2 He1) as [Hm3 _].
  destruct (shr_fexp prec emax _ e1 loc_Exact) as [mrs2 e2].
  cbn [fst snd] in *.
  destruct (shr_m mrs2); try lia.
  destruct (e2 <=? emax - prec); exact I.
Qed.

Lemma binary_round_nonzero (s : bool) (m : positive) (e : Z) :
  SpecFloat.emin prec emax <= e ->
  SFnonzero (binary_round prec emax s m e).
Proof.
  intros He. unfold binary_round, shl_align.
  set (e' := fexp prec emax (Z.pos (digits2_pos m) + e)).
  assert (He' : SpecFloat.emin prec emax <= e') by (unfold e', fexp; lia).
  destruct (e' - e); apply binary_round_aux_nonzero; lia.
Qed.

(** What [valid_binary] says of a mantissa and its exponent. *)
Lemma valid_finite_inv (s : bool) (m : positive) (e : Z) :
  valid_binary (S754_finite s m e) = true ->
  fexp prec emax (Z.pos (digits2_pos m) + e) = e
  /\ SpecFloat.emin prec emax <= e /\ e <= emax - prec.
Proof.
  cbn [SpecFloat.valid_binary]. unfold bounded, canonical_mantissa.
  intros Hv. apply andb_prop in Hv. destruct Hv as [Hc Hb].
  apply Z.eqb_eq in Hc. apply Z.leb_le in Hb.
  repeat split; try assumption.
  rewrite <- Hc. unfold fexp. lia.
Qed.

(** Aligning a mantissa to a smaller exponent adds digits. *)
Lemma shl_align_digits (m : positive) (e e' : Z) :
  e' <= e ->
  Z.pos (digits2_pos (fst (shl_align m e e')))
  = Z.pos (digits2_pos m) + (e - e').
Proof.
  intros Hle. unfold shl_align.
  destruct (e' - e) as [ | d | d] eqn:Hd; cbn [fst]; try lia.
  rewrite digits2_pos_iter_xO. lia.
Qed.

Lemma shl_align_same (m : positive) (e : Z) : fst (shl_align m e e) = m.
Proof. unfold shl_align. rewrite Z.sub_diag. reflexivity. Qed.

Lemma cond_Zopp_pos_inj (s s' : bool) (p q : positive) :
  cond_Zopp s (Z.pos p) - cond_Zopp s' (Z.pos q) = 0 -> s = s' /\ p = q.
Proof.
  destruct s, s'; cbn [cond_Zopp]; intros H; split;
    try lia; try reflexivity.
Qed.

(** The difference of two finite numbers that are not equal is neither
    a zero nor NaN: equal aligned mantissas would be equal numbers, a
    number having one mantissa and exponent only. *)
Lemma SFsub_nonzero (a b : spec_float) :
  valid_binary a = true -> valid_binary b = true ->
  SFfinite a -> SFfinite b -> SFeqb a b = false ->
  SFnonzero (SFsub prec emax a b).
Proof.
  destruct a as [sa | sa | | sa ma ea], b as [sb | sb | | sb mb eb];
    cbn [SFfinite]; intros Va Vb Fa Fb Hne; try contradiction;
    try exact I.
  - discriminate Hne.
  - unfold SFsub.
    destruct (valid_finite_inv _ _ _ Va) as (Ca & La & _).
    destruct (valid_finite_inv _ _ _ Vb) as (Cb & Lb & _).
    set (ez := Z.min ea eb).
    set (z := cond_Zopp sa (Z.pos (fst (shl_align ma ea ez)))
              - cond_Zopp sb (Z.pos (fst (shl_align mb eb ez)))).
    assert (Hez : SpecFloat.emin prec emax <= ez) by (unfold ez; lia).
    destruct z as [ | p | p] eqn:Hz; cbn [binary_normalize].
    + exfalso. unfold z in Hz.
      apply cond_Zopp_pos_inj in Hz. destruct Hz as [Hs Hm].
      assert (Hd : Z.pos (digits2_pos ma) + ea
                   = Z.pos (digits2_pos mb) + eb).
      { pose proof (shl_align_digits ma ea ez ltac:(unfold ez; lia)) as Da.
        pose proof (shl_align_digits mb eb ez ltac:(unfold ez; lia)) as Db.
        rewrite Hm in Da. lia. }
      assert (He : ea = eb) by (rewrite <- Ca, <- Cb, Hd; reflexivity).
      subst eb. unfold ez in Hm. rewrite Z.min_id, !shl_align_same in Hm.
      subst mb sb. rewrite SFeqb_refl in Hne by exact I.
      discriminate Hne.
    + apply binary_round_nonzero, Hez.
    + apply binary_round_nonzero, Hez.
Qed.

(** ** The product by one and the quotient of a number by itself *)

Lemma shr_fexp_noop (m e : Z) (l : location) :
  fexp prec emax (Zdigits2 m + e) - e <= 0 ->
  shr_fexp prec emax m e l = (shr_record_of_loc m l, e).
Proof.
  intros H. unfold shr_fexp, shr.
  destruct (fexp prec emax (Zdigits2 m + e) - e); try reflexivity. lia.
Qed.

(** The product of the mantissas has 52 more digits, all zero, and the
    shift back to the format drops exactly these. *)
Lemma SFmul_1_l_finite (s : bool) (m : positive) (e : Z) :
  valid_binary (S754_finite s m e) = true ->
  SFmul prec emax (Prim2SF 1) (S754_finite s m e) = S754_finite s m e.
Proof.
  intros Hv. destruct (valid_finite_inv _ _ _ Hv) as (Hc & _ & Hb).
  change (Prim2SF 1) with (S754_finite false 4503599627370496 (-52)).
  unfold SFmul. cbn [xorb]. unfold binary_round_aux.
  assert (Hd : Zdigits2 (Z.pos (4503599627370496 * m))
               = Z.pos (digits2_pos m) + 52).
  { cbn [Pos.mul Zdigits2 digits2_pos]. lia. }
  assert (Hs : shr_fexp prec emax
                 (Z.pos (4503599627370496 * m)) (-52 + e) loc_Exact
               = ({| shr_m := Z.pos m; shr_r := false; shr_s := false |},
                  e)).
  { unfold shr_fexp. rewrite Hd.
    replace (Z.pos (digits2_pos m) + 52 + (-52 + e))
      with (Z.pos (digits2_pos m) + e) by lia.
    rewrite Hc. replace (e - (-52 + e)) with 52 by lia.
    unfold shr. f_equal. lia. }
  rewrite Hs. cbn [shr_m loc_of_shr_record round_nearest_even].
  rewrite shr_fexp_noop by (cbn [Zdigits2]; lia).
  cbn [shr_record_of_loc shr_m].
  apply Z.leb_le in Hb. rewrite Hb. reflexivity.
Qed.

Lemma div_eucl_mul_l (a b : Z) :
  0 < b -> Z.div_eucl (b * a) b = (a, 0).
Proof.
  intros Hb.
  generalize (Z.div_mul a b ltac:(lia)) (Z.mod_mul a b ltac:(lia)).
  unfold Z.div, Z.modulo. rewrite (Z.mul_comm a b).
  destruct (Z.div_eucl (b * a) b) as [q r]. intros -> ->. reflexivity.
Qed.

(** The mantissa shifted by 53 digits, divided by itself, is [2 ^ 53]
    with no remainder, which rounds to 1. *)
Lemma SFdiv_diag (s : bool) (m : positive) (e : Z) :
  SFdiv prec emax (S754_finite s m e) (S754_finite s m e) = Prim2SF 1.
Proof.
  change (Prim2SF 1) with (S754_finite false 4503599627370496 (-52)).
  unfold SFdiv, SFdiv_core_binary.
  replace (Zdigits2 (Z.pos m) + e - (Zdigits2 (Z.pos m) + e)) with 0 by lia.
  rewrite Z.sub_diag.
  change (Z.min (fexp prec emax 0) 0) with (-53).
  change (0 - -53) with 53.
  rewrite Z.shiftl_mul_pow2 by lia.
  rewrite (div_eucl_mul_l (2 ^ 53) (Z.pos m)) by lia.
  replace (new_location (Z.pos m) 0) with loc_Exact
    by (unfold new_location; destruct (Z.even (Z.pos m)); reflexivity).
  destruct s; reflexivity.
Qed.

End Rounding.

(** ** The same on numbers *)

Lemma mul_1_l (a : float) : 1 * a = a.
Proof.
  apply Prim2SF_inj. rewrite mul_spec.
  pose proof (Prim2SF_valid a) as Hv.
  destruct (Prim2SF a) as [s | s | | s m e]; try reflexivity.
  apply SFmul_1_l_finite, Hv.
Qed.

Lemma div_diag (d : float) :
  SFfinite (Prim2SF d) -> SFnonzero (Prim2SF d) -> d / d = 1.
Proof.
  intros Hf Hn. apply Prim2SF_inj. rewrite div_spec.
  destruct (Prim2SF d) as [s | s | | s m e]; try contradiction.
  apply SFdiv_diag.
Qed.

Lemma sub_diag (a : float) : SFfinite (Prim2SF a) -> a - a = 0.
Proof.
  intros Hf. apply Prim2SF_inj. rewrite sub_spec. apply SFsub_diag, Hf.
Qed.

(** Two different numbers whose difference does not overflow have a
    finite difference that is not a zero. *)
Lemma sub_finite_nonzero (a b : float) :
  is_finite (a - b) = true -> (a <>? b) = true ->
  SFfinite (Prim2SF (a - b)) /\ SFnonzero (Prim2SF (a - b)).
Proof.
  intros Hfin Hne. split; [apply is_finite_SFfinite, Hfin | ].
  destruct (sub_finite_inv a b Hfin) as [Fa Fb].
  unfold Number.neqb in Hne. apply negb_true_iff in Hne.
  rewrite eqb_spec in Hne. rewrite sub_spec.
  apply SFsub_nonzero; try assumption; apply Prim2SF_valid.
Qed.

(** [0 / d * t + a] is [a], up to the sign of a zero, when [d] is
    neither a zero nor NaN and [t] and [a] are finite. *)
Lemma zero_ratio_scaled (d t a : float) :
  SFnonzero (Prim2SF d) -> SFfinite (Prim2SF t) -> SFfinite (Prim2SF a) ->
  (0 / d * t + a =? a) = true.
Proof.
  intros Hd Ht Ha.
  rewrite eqb_spec, add_spec, mul_spec, div_spec.
  unfold SF64add, SF64mul, SF64div.
  change (Prim2SF 0) with (S754_zero false).
  destruct (SFdiv_zero_l false (Prim2SF d) Hd) as [s1 ->].
  destruct (SFmul_zero_l s1 (Prim2SF t) Ht) as [s2 ->].
  apply SFadd_zero_l, Ha.
Qed.

End FloatFacts.
(** * Whole numbers in binary64: doubling, halving and rounding

    The product of a normal number by 2 or 4 and its quotient by 2 or 4
    change the exponent only, and [Math.round] returns a whole number
    and leaves a whole number as it is. *)

Module ScalingFacts.

#[local] Open Scope Z_scope.
Import FloatKinds FloatFacts.

(** ** Digits *)

Lemma digits2_pos_size (p : positive) : digits2_pos p = Pos.size p.
Proof. induction p as [p IH | p IH | ]; cbn; congruence. Qed.

Lemma digits2_pos_bounds (p : positive) :
  2 ^ (Z.pos (digits2_pos p) - 1) <= Z.pos p < 2 ^ Z.pos (digits2_pos p).
Proof.
  rewrite digits2_pos_size.
  pose proof (Pos.size_gt p) as Hgt. pose proof (Pos.size_le p) as Hle.
  apply Pos2Z.pos_lt_pos in Hgt. apply Pos2Z.pos_le_pos in Hle.
  rewrite Pos2Z.inj_pow in Hgt, Hle.
  rewrite Pos2Z.inj_xO in Hle. rewrite ?Z.mul_1_r in Hle.
  assert (Hpow : 2 ^ Z.pos (Pos.size p)
                 = 2 * 2 ^ (Z.pos (Pos.size p) - 1)).
  { rewrite <- Z.pow_succ_r by lia. f_equal. lia. }
  lia.
Qed.

Lemma iter_xO_value (k d : positive) :
  Z.pos (Pos.iter xO k d) = Z.pos k * 2 ^ Z.pos d.
Proof.
  induction d as [ | d IH] using Pos.peano_ind.
  - cbn. lia.
  - rewrite Pos.iter_succ, Pos2Z.inj_xO, IH, Pos2Z.inj_succ,
      Z.pow_succ_r by lia.
    lia.
Qed.

(** ** A mantissa in the format is rounded to itself *)

Lemma fexp_value (x : Z) : fexp prec emax x = Z.max (x - 53) (-1074).
Proof. reflexivity. Qed.

Lemma binary_round_aux_canonical (s : bool) (m : positive) (e : Z) :
  digits2_pos m = 53%positive ->
  -1074 <= e <= 971 ->
  binary_round_aux prec emax s (Z.pos m) e loc_Exact = S754_finite s m e.
Proof.
  intros Hd He. unfold binary_round_aux.
  assert (Hf : fexp prec emax (Zdigits2 (Z.pos m) + e) - e <= 0).
  { cbn [Zdigits2]. rewrite Hd. rewrite fexp_value.
    lia. }
  rewrite (shr_fexp_noop _ _ _ Hf).
  cbn [shr_record_of_loc shr_m loc_of_shr_record round_nearest_even].
  rewrite (shr_fexp_noop _ _ _ Hf).
  cbn [shr_record_of_loc shr_m].
  change (emax - prec) with 971.
  destruct He as [_ He]. apply Z.leb_le in He. rewrite He. reflexivity.
Qed.

(** ** The product by a power of two *)

Lemma SFmul_pow2 (s : bool) (m : positive) (e k : Z) :
  digits2_pos m = 53%positive ->
  -1074 <= e + k <= 971 ->
  SFmul prec emax (S754_finite s m e) (SFpow2 k) = S754_finite s m (e + k).
Proof.
  intros Hd He. unfold SFmul, SFpow2.
  replace (xorb s false) with s by (destruct s; reflexivity).
  rewrite Pos.mul_comm. unfold binary_round_aux.
  assert (Hdigits : Zdigits2 (Z.pos (4503599627370496 * m)) = 105).
  { cbn [Pos.mul Zdigits2 digits2_pos]. rewrite Hd. reflexivity. }
  assert (Hs : shr_fexp prec emax
                 (Z.pos (4503599627370496 * m)) (e + (k - 52)) loc_Exact
               = ({| shr_m := Z.pos m; shr_r := false; shr_s := false |},
                  e + k)).
  { unfold shr_fexp. rewrite Hdigits. rewrite fexp_value.
    replace (Z.max (105 + (e + (k - 52)) - 53) (-1074) - (e + (k - 52)))
      with 52 by lia.
    unfold shr. f_equal. lia. }
  rewrite Hs. cbn [shr_m loc_of_shr_record round_nearest_even].
  rewrite shr_fexp_noop.
  - cbn [shr_record_of_loc shr_m].
    change (emax - prec) with 971.
    destruct He as [_ He]. apply Z.leb_le in He. rewrite He. reflexivity.
  - cbn [Zdigits2]. rewrite Hd. rewrite fexp_value.
    lia.
Qed.

(** ** The quotient by a power of two *)

Lemma SFdiv_pow2 (s : bool) (m : positive) (e k : Z) :
  digits2_pos m = 53%positive ->
  -1074 < e - k <= 971 ->
  SFdiv prec emax (S754_finite s m e) (SFpow2 k) = S754_finite s m (e - k).
Proof.
  intros Hd He. unfold SFdiv, SFpow2, SFdiv_core_binary.
  replace (xorb s false) with s by (destruct s; reflexivity).
  cbn [Zdigits2]. rewrite Hd.
  change (Z.pos (digits2_pos 4503599627370496)) with 53.
  rewrite fexp_value.
  replace (Z.min (Z.max (53 + e - (53 + (k - 52)) - 53) (-1074))
                 (e - (k - 52)))
    with (e - k - 1) by lia.
  replace (e - (k - 52) - (e - k - 1)) with 53 by lia.
  rewrite Z.shiftl_mul_pow2 by lia.
  replace (Z.pos m * 2 ^ 53) with (4503599627370496 * (2 * Z.pos m))
    by (change (2 ^ 53) with 9007199254740992; lia).
  rewrite (div_eucl_mul_l (2 * Z.pos m) 4503599627370496) by lia.
  change (new_location 4503599627370496 0) with loc_Exact.
  unfold binary_round_aux.
  assert (Hs : shr_fexp prec emax (2 * Z.pos m) (e - k - 1) loc_Exact
               = ({| shr_m := Z.pos m; shr_r := false; shr_s := false |},
                  e - k)).
  { unfold shr_fexp. change (2 * Z.pos m) with (Z.pos m~0).
    cbn [Zdigits2 digits2_pos]. rewrite Hd. rewrite fexp_value.
    replace (Z.max (Z.pos (Pos.succ 53) + (e - k - 1) - 53) (-1074)
             - (e - k - 1)) with 1 by lia.
    unfold shr. f_equal. lia. }
  rewrite Hs. cbn [shr_m loc_of_shr_record round_nearest_even].
  rewrite shr_fexp_noop.
  - cbn [shr_record_of_loc shr_m].
    change (emax - prec) with 971.
    destruct He as [_ He]. apply Z.leb_le in He. rewrite He. reflexivity.
  - cbn [Zdigits2]. rewrite Hd. rewrite fexp_value.
    lia.
Qed.

(** A number that is not normal has the least exponent, and its double
    has one digit more. *)
Lemma SFmul_2_subnormal (s : bool) (m : positive) :
  (Z.pos (digits2_pos m) < 53) ->
  SFmul prec emax (S754_finite s m (-1074)) (SFpow2 1)
  = S754_finite s m~0 (-1074).
Proof.
  intros Hd. unfold SFmul, SFpow2.
  replace (xorb s false) with s by (destruct s; reflexivity).
  rewrite Pos.mul_comm. unfold binary_round_aux.
  assert (Hdigits : Zdigits2 (Z.pos (4503599627370496 * m))
                    = Z.pos (digits2_pos m) + 52).
  { cbn [Pos.mul Zdigits2 digits2_pos]. lia. }
  assert (Hs : shr_fexp prec emax
                 (Z.pos (4503599627370496 * m)) (-1074 + (1 - 52)) loc_Exact
               = ({| shr_m := Z.pos m~0; shr_r := false; shr_s := false |},
                  -1074)).
  { unfold shr_fexp. rewrite Hdigits, fexp_value.
    replace (Z.max (Z.pos (digits2_pos m) + 52 + (-1074 + (1 - 52)) - 53)
                   (-1074) - (-1074 + (1 - 52)))
      with 51 by lia.
    unfold shr. f_equal. }
  rewrite Hs. cbn [shr_m loc_of_shr_record round_nearest_even].
  rewrite shr_fexp_noop.
  - reflexivity.
  - cbn [Zdigits2 digits2_pos]. rewrite fexp_value. lia.
Qed.

(** ** Whole numbers *)

Lemma SFwhole_valid (a : spec_float) :
  SFwhole a -> valid_binary a = true.
Proof.
  destruct a as [s | s | | s m e]; cbn [SFwhole]; try tauto;
    try reflexivity.
  intros (Hd & He & _).
  cbn [SpecFloat.valid_binary]. unfold SpecFloat.bounded, SpecFloat.canonical_mantissa.
  rewrite Hd, fexp_value. change (emax - prec) with 971.
  apply andb_true_intro. split; [apply Z.eqb_eq | apply Z.leb_le]; lia.
Qed.

(** What [valid_binary] says of the digits of a mantissa. *)
Lemma valid_digits (s : bool) (m : positive) (e : Z) :
  valid_binary (S754_finite s m e) = true ->
  Z.pos (digits2_pos m) <= 53
  /\ (-1074 < e -> digits2_pos m = 53%positive)
  /\ -1074 <= e <= 971.
Proof.
  intros Hv. destruct (valid_finite_inv _ _ _ Hv) as (Hc & _ & _).
  cbn [SpecFloat.valid_binary] in Hv. unfold SpecFloat.bounded in Hv.
  apply andb_prop in Hv. destruct Hv as [_ Hb]. apply Z.leb_le in Hb.
  change (emax - prec) with 971 in Hb.
  rewrite fexp_value in Hc.
  repeat split; lia.
Qed.

(** The number of a positive integer of at most 53 digits. *)
Lemma binary_round_whole (s : bool) (p : positive) :
  Z.pos (digits2_pos p) <= 53 ->
  exists m : positive,
    binary_round prec emax s p 0
    = S754_finite s m (Z.pos (digits2_pos p) - 53)
    /\ digits2_pos m = 53%positive
    /\ Z.pos m = Z.pos p * 2 ^ (53 - Z.pos (digits2_pos p)).
Proof.
  intros Hd. unfold binary_round, shl_align.
  rewrite fexp_value, Z.add_0_r, Z.sub_0_r.
  replace (Z.max (Z.pos (digits2_pos p) - 53) (-1074))
    with (Z.pos (digits2_pos p) - 53) by lia.
  destruct (Z.pos (digits2_pos p) - 53) as [ | d | d] eqn:Hshift;
    try lia.
  - exists p. split; [ | split].
    + apply binary_round_aux_canonical; [ | lia].
      apply Pos2Z.inj. lia.
    + apply Pos2Z.inj. lia.
    + replace (53 - Z.pos (digits2_pos p)) with 0 by lia. lia.
  - exists (Pos.iter xO p d).
    assert (Hdigits : digits2_pos (Pos.iter xO p d) = 53%positive).
    { rewrite digits2_pos_iter_xO. apply Pos2Z.inj.
      rewrite Pos2Z.inj_add. lia. }
    split; [ | split].
    + apply binary_round_aux_canonical; [exact Hdigits | lia].
    + exact Hdigits.
    + rewrite iter_xO_value. f_equal. f_equal. lia.
Qed.

(** A positive integer up to [2 ^ 52] has at most 53 digits. *)
Lemma digits_of_small (p : positive) :
  Z.pos p <= 2 ^ 52 -> Z.pos (digits2_pos p) <= 53.
Proof.
  intros Hp. destruct (digits2_pos_bounds p) as [Hlow _].
  destruct (Z_le_gt_dec (Z.pos (digits2_pos p)) 53) as [H | H];
    [exact H | exfalso].
  assert (Hpow : 2 ^ 53 <= 2 ^ (Z.pos (digits2_pos p) - 1))
    by (apply Z.pow_le_mono_r; lia).
  change (2 ^ 53) with 9007199254740992 in Hpow.
  change (2 ^ 52) with 4503599627370496 in Hp. lia.
Qed.

(** The number of an integer up to [2 ^ 52] in magnitude is a whole
    number whose exponent is not positive. *)
Lemma binary_normalize_whole (n : Z) (s : bool) :
  - 2 ^ 52 <= n <= 2 ^ 52 ->
  SFwhole (binary_normalize prec emax n 0 s)
  /\ SFexponent_le 0 (binary_normalize prec emax n 0 s).
Proof.
  intros Hn. destruct n as [ | p | p]; cbn [binary_normalize].
  - split; exact I.
  - destruct (binary_round_whole false p) as (m & -> & Hd & Hm);
      [apply digits_of_small; lia | ].
    pose proof (Pos2Z.is_pos (digits2_pos p)).
    assert (Hdp : Z.pos (digits2_pos p) <= 53)
      by (apply digits_of_small; lia).
    cbn [SFwhole SFexponent_le]. repeat split; try lia; try exact Hd.
    exists p. rewrite Hm. f_equal. f_equal. lia.
  - destruct (binary_round_whole true p) as (m & -> & Hd & Hm);
      [apply digits_of_small; lia | ].
    pose proof (Pos2Z.is_pos (digits2_pos p)).
    assert (Hdp : Z.pos (digits2_pos p) <= 53)
      by (apply digits_of_small; lia).
    cbn [SFwhole SFexponent_le]. repeat split; try lia; try exact Hd.
    exists p. rewrite Hm. f_equal. f_equal. lia.
Qed.

(** ** [Math.round] *)

(** [Math.round] and [Math.ceil] at some numbers: a tie goes up, the
    largest number below one half goes down, and a zero result keeps
    the sign of the argument. *)
Lemma round_and_ceil_examples :
  (Math.round 2.5 = 3 /\ Math.round (-2.5) = -2
   /\ Math.round 0.49999999999999994 = 0
   /\ Prim2SF (Math.round (-0.5)) = S754_zero true
   /\ Math.round 7.3 = 7 /\ Math.round (-7.75) = -8
   /\ Math.round 4503599627370497 = 4503599627370497
   /\ Math.round infinity = infinity)%float
  /\ (Math.ceil 4.5 = 5 /\ Math.ceil (-2.5) = -2 /\ Math.ceil 17 = 17
      /\ Prim2SF (Math.ceil (-0.4)) = S754_zero true)%float.
Proof. repeat split. Qed.

(** The integer [Math.round] computes for a number below [2 ^ 52] in
    magnitude is at most [2 ^ 52] in magnitude. *)
Lemma rounded_integer_bound (s : bool) (m : positive) (e : Z) :
  Z.pos (digits2_pos m) <= 53 -> e < 0 ->
  - 2 ^ 52
  <= (2 * cond_Zopp s (Z.pos m) + 2 ^ (- e)) / 2 ^ (1 - e)
  <= 2 ^ 52.
Proof.
  intros Hd He.
  destruct (digits2_pos_bounds m) as [_ Hm].
  assert (Hm53 : Z.pos m < 2 ^ 53).
  { apply Z.lt_le_trans with (1 := Hm). apply Z.pow_le_mono_r; lia. }
  change (2 ^ 53) with 9007199254740992 in Hm53.
  change (2 ^ 52) with 4503599627370496.
  assert (HP : 2 <= 2 ^ (- e)).
  { change 2 with (2 ^ 1) at 1. apply Z.pow_le_mono_r; lia. }
  replace (1 - e) with (Z.succ (- e)) by lia.
  rewrite Z.pow_succ_r by lia.
  set (P := 2 ^ (- e)) in *.
  set (a := 2 * cond_Zopp s (Z.pos m) + P).
  assert (Ha : - 18014398509481984 + P < a < 18014398509481984 + P)
    by (unfold a; destruct s; cbn [cond_Zopp]; lia).
  pose proof (Z.mul_div_le a (2 * P) ltac:(lia)) as Hlow.
  pose proof (Z.mul_succ_div_gt a (2 * P) ltac:(lia)) as Hhigh.
  set (n := a / (2 * P)) in *.
  split; nia.
Qed.

(** [Math.round] returns a whole number, whose exponent is not above
    that of its argument. *)
Lemma round_whole (w : float) :
  SFfinite (Prim2SF w) ->
  SFwhole (Prim2SF (Math.round w))
  /\ forall E, 0 <= E ->
       SFexponent_le E (Prim2SF w) ->
       SFexponent_le E (Prim2SF (Math.round w)).
Proof.
  intros Hfinite. pose proof (Prim2SF_valid w) as Hvalid.
  unfold Math.round.
  destruct (Prim2SF w) as [s | s | | s m e] eqn:Hw;
    try contradiction.
  - rewrite Hw. split; [exact I | intros E _ _; exact I].
  - destruct (valid_digits s m e Hvalid) as (Hd & Hnormal & He).
    destruct (0 <=? e) eqn:Hsign.
    + apply Z.leb_le in Hsign. rewrite Hw. split.
      * cbn [SFwhole]. split; [apply Hnormal; lia | ].
        split; [lia | ]. exists m.
        replace (Z.max 0 (- e)) with 0 by lia. lia.
      * intros E _ HE. exact HE.
    + apply Z.leb_gt in Hsign. unfold Math.integer.
      destruct (binary_normalize_whole
                  ((2 * cond_Zopp s (Z.pos m) + 2 ^ (- e)) / 2 ^ (1 - e)) s
                  (rounded_integer_bound s m e Hd Hsign))
        as [Hwhole Hexp].
      rewrite (Prim2SF_SF2Prim _ (SFwhole_valid _ Hwhole)).
      split; [exact Hwhole | ].
      intros E HE _.
      destruct (binary_normalize _ _ _ _ _) as [s' | s' | | s' m' e'];
        cbn [SFexponent_le] in *; try tauto. lia.
Qed.

(** [Math.round] leaves a whole number as it is. *)
Lemma round_of_whole (z : float) :
  SFwhole (Prim2SF z) -> Math.round z = z.
Proof.
  intros Hwhole. unfold Math.round.
  destruct (Prim2SF z) as [s | s | | s m e] eqn:Hz; try reflexivity.
  destruct (0 <=? e) eqn:Hsign; [reflexivity | ].
  apply Z.leb_gt in Hsign.
  destruct Hwhole as (Hd & He & k & Hk).
  replace (Z.max 0 (- e)) with (- e) in Hk by lia.
  assert (Hn : (2 * cond_Zopp s (Z.pos m) + 2 ^ (- e)) / 2 ^ (1 - e)
               = cond_Zopp s (Z.pos k)).
  { replace (1 - e) with (Z.succ (- e)) by lia.
    rewrite Z.pow_succ_r by lia.
    assert (HP : 0 < 2 ^ (- e)) by (apply Z.pow_pos_nonneg; lia).
    set (P := 2 ^ (- e)) in *.
    replace (2 * cond_Zopp s (Z.pos m) + P)
      with ((2 * cond_Zopp s (Z.pos k) + 1) * P)
      by (destruct s; cbn [cond_Zopp]; lia).
    rewrite Z.div_mul_cancel_r by lia.
    symmetry. apply (Z.div_unique _ 2 _ 1); lia. }
  rewrite Hn. unfold Math.integer.
  assert (Hround : binary_normalize prec emax (cond_Zopp s (Z.pos k)) 0 s
                   = binary_round prec emax s k 0)
    by (destruct s; reflexivity).
  rewrite Hround.
  destruct (- e) as [ | d | d] eqn:Hd'; try lia.
  assert (Hiter : m = Pos.iter xO k d).
  { apply Pos2Z.inj. rewrite iter_xO_value. exact Hk. }
  assert (Hdk : Z.pos (digits2_pos k) = 53 - Z.pos d).
  { rewrite Hiter, digits2_pos_iter_xO in Hd.
    apply (f_equal Z.pos) in Hd. rewrite Pos2Z.inj_add in Hd. lia. }
  destruct (binary_round_whole s k ltac:(lia)) as (m' & -> & _ & Hm').
  rewrite Hdk in *.
  replace (53 - (53 - Z.pos d)) with (Z.pos d) in Hm' by lia.
  rewrite <- Hk in Hm'. apply Pos2Z.inj in Hm'. subst m'.
  replace (53 - Z.pos d - 53) with e by lia.
  rewrite <- Hz. apply SF2Prim_Prim2SF.
Qed.

End ScalingFacts.
(** * Rounding

    What [binary_round_aux] returns is the number nearest to the exact
    value it is given; the nearer of two exact values never gets the
    larger number; and each operation on finite numbers rounds its
    exact result. *)

Module RoundingFacts.

#[local] Open Scope Z_scope.
Import FloatKinds FloatFacts ScalingFacts Rounding.

(** ** Shifting a mantissa to the right *)

Lemma shr_1_value (m : Z) (r s : bool) :
  0 <= m ->
  shr_1 {| shr_m := m; shr_r := r; shr_s := s |}
  = {| shr_m := m / 2; shr_r := (m mod 2 =? 1); shr_s := r || s |}.
Proof.
  intros Hm.
  destruct m as [ | [p | p | ] | p]; try lia; cbn [shr_1].
  - reflexivity.
  - rewrite Pos2Z.inj_xI.
    replace ((2 * Z.pos p + 1) / 2) with (Z.pos p)
      by (apply (Z.div_unique _ 2 _ 1); lia).
    replace ((2 * Z.pos p + 1) mod 2) with 1
      by (apply (Z.mod_unique _ 2 (Z.pos p) 1); lia).
    reflexivity.
  - rewrite Pos2Z.inj_xO.
    replace ((2 * Z.pos p) / 2) with (Z.pos p)
      by (apply (Z.div_unique _ 2 _ 0); lia).
    replace ((2 * Z.pos p) mod 2) with 0
      by (apply (Z.mod_unique _ 2 (Z.pos p) 0); lia).
    reflexivity.
  - reflexivity.
Qed.

Lemma div_mod_double (N D : Z) :
  0 <= N -> 0 < D ->
  N / (2 * D) = N / D / 2
  /\ N mod (2 * D) = (N / D) mod 2 * D + N mod D.
Proof.
  intros HN HD.
  pose proof (Z.div_mod N D ltac:(lia)) as H1.
  pose proof (Z.mod_pos_bound N D HD) as H2.
  pose proof (Z.div_mod (N / D) 2 ltac:(lia)) as H3.
  pose proof (Z.mod_pos_bound (N / D) 2 ltac:(lia)) as H4.
  set (q := N / D) in *. set (r := N mod D) in *.
  set (q2 := q / 2) in *. set (b := q mod 2) in *.
  assert (Hr : 0 <= b * D + r < 2 * D) by nia.
  assert (HNN : N = 2 * D * q2 + (b * D + r)) by nia.
  split.
  - symmetry. apply (Z.div_unique _ _ _ (b * D + r)); [lia | exact HNN].
  - symmetry. apply (Z.mod_unique _ _ q2); [lia | exact HNN].
Qed.

Lemma shr_1_located (N D : Z) :
  0 <= N -> 0 < D -> shr_1 (located N D) = located N (2 * D).
Proof.
  intros HN HD.
  destruct (div_mod_double N D HN HD) as [Hq Hr].
  pose proof (Z.mod_pos_bound N D HD) as Hb.
  pose proof (Z.mod_pos_bound (N / D) 2 ltac:(lia)) as Hb2.
  assert (Hnn : 0 <= N / D) by (apply Z.div_pos; lia).
  unfold located, locate. rewrite Hq, Hr.
  set (q := N / D) in *. set (r := N mod D) in *.
  set (b := q mod 2) in *.
  assert (Hcases : b = 0 \/ b = 1) by lia.
  destruct (r =? 0) eqn:Hr0;
    [apply Z.eqb_eq in Hr0 | apply Z.eqb_neq in Hr0].
  - cbn [shr_record_of_loc]. rewrite shr_1_value by exact Hnn. fold b.
    destruct Hcases as [-> | ->]; cbn [Z.eqb orb].
    + replace (0 * D + r =? 0) with true by (symmetry; apply Z.eqb_eq; lia).
      reflexivity.
    + replace (1 * D + r =? 0) with false
        by (symmetry; apply Z.eqb_neq; lia).
      replace (2 * (1 * D + r) ?= 2 * D) with Eq
        by (symmetry; apply Z.compare_eq_iff; lia).
      reflexivity.
  - assert (Hs : forall c, shr_1 (shr_record_of_loc q (loc_Inexact c))
                 = {| shr_m := q / 2; shr_r := (b =? 1); shr_s := true |}).
    { intros c. destruct c; cbn [shr_record_of_loc];
        rewrite shr_1_value by exact Hnn; reflexivity. }
    rewrite Hs.
    destruct Hcases as [-> | ->]; cbn [Z.eqb].
    + replace (0 * D + r =? 0) with false
        by (symmetry; apply Z.eqb_neq; lia).
      replace (2 * (0 * D + r) ?= 2 * D) with Lt
        by (symmetry; apply Z.compare_lt_iff; lia).
      reflexivity.
    + replace (1 * D + r =? 0) with false
        by (symmetry; apply Z.eqb_neq; lia).
      replace (2 * (1 * D + r) ?= 2 * D) with Gt
        by (symmetry; apply Z.compare_gt_iff; lia).
      reflexivity.
Qed.

Lemma iter_shr_1_located (p : positive) (N D : Z) :
  0 <= N -> 0 < D ->
  SpecFloat.iter_pos shr_1 p (located N D) = located N (D * 2 ^ Z.pos p).
Proof.
  intros HN. revert D.
  induction p as [p IH | p IH | ]; intros D HD; cbn [SpecFloat.iter_pos].
  - assert (0 < 2 ^ Z.pos p) by (apply Z.pow_pos_nonneg; lia).
    rewrite shr_1_located, IH, IH by (try exact HN; nia).
    f_equal.
    replace (Z.pos p~1) with (1 + Z.pos p + Z.pos p) by lia.
    rewrite !Z.pow_add_r by lia. change (2 ^ 1) with 2. lia.
  - assert (0 < 2 ^ Z.pos p) by (apply Z.pow_pos_nonneg; lia).
    rewrite IH, IH by (try exact HN; nia).
    f_equal.
    replace (Z.pos p~0) with (Z.pos p + Z.pos p) by lia.
    rewrite !Z.pow_add_r by lia. lia.
  - rewrite shr_1_located by assumption. f_equal. change (2 ^ 1) with 2. lia.
Qed.


Lemma loc_of_shr_record_of_loc (m : Z) (l : location) :
  loc_of_shr_record (shr_record_of_loc m l) = l.
Proof. destruct l as [ | [ | | ]]; reflexivity. Qed.

Lemma Zdigits2_bounds (z : Z) :
  0 < z -> 2 ^ (Zdigits2 z - 1) <= z < 2 ^ Zdigits2 z.
Proof.
  intros Hz. destruct z as [ | p | p]; try lia.
  cbn [Zdigits2]. apply digits2_pos_bounds.
Qed.

Lemma Zdigits2_nonneg (z : Z) : 0 <= Zdigits2 z.
Proof. destruct z; cbn [Zdigits2]; lia. Qed.

Lemma Zdigits2_upper (z : Z) : 0 <= z -> z < 2 ^ Zdigits2 z.
Proof.
  intros Hz. destruct (Z.eq_dec z 0) as [-> | Hne].
  - cbn. lia.
  - apply Zdigits2_bounds. lia.
Qed.

Lemma Zdigits2_le (z k : Z) : 0 <= k -> 0 <= z < 2 ^ k -> Zdigits2 z <= k.
Proof.
  intros Hk Hz. destruct (Z.eq_dec z 0) as [-> | Hne]; [cbn; lia | ].
  destruct (Zdigits2_bounds z ltac:(lia)) as [Hlow _].
  destruct (Z_le_gt_dec (Zdigits2 z) k) as [H | H]; [exact H | exfalso].
  assert (2 ^ k <= 2 ^ (Zdigits2 z - 1)) by (apply Z.pow_le_mono_r; lia).
  lia.
Qed.

Lemma Zdigits2_ge (z k : Z) : 2 ^ k <= z -> 0 <= k -> k + 1 <= Zdigits2 z.
Proof.
  intros Hz Hk.
  assert (0 < 2 ^ k) by (apply Z.pow_pos_nonneg; lia).
  pose proof (Zdigits2_upper z ltac:(lia)) as Hup.
  pose proof (Zdigits2_nonneg z).
  destruct (Z_le_gt_dec (k + 1) (Zdigits2 z)) as [H' | H']; [exact H' | exfalso].
  assert (2 ^ Zdigits2 z <= 2 ^ k) by (apply Z.pow_le_mono_r; lia).
  lia.
Qed.

Lemma nearest_bounds (N D : Z) :
  N / D <= nearest N D <= N / D + 1.
Proof.
  unfold nearest, round_nearest_even.
  destruct (locate N D) as [ | [ | | ]]; try lia.
  destruct (Z.even (N / D)); lia.
Qed.

(** The quotient by the scaled divisor has at most 53 digits. *)
Lemma scaled_quotient_bound (N D e : Z) :
  0 <= N -> 0 < D ->
  let t := fexp prec emax (Zdigits2 (N / D) + e) in
  e <= t ->
  0 < D * 2 ^ (t - e) /\ 0 <= N / (D * 2 ^ (t - e)) < 2 ^ 53.
Proof.
  intros HN HD t Het.
  assert (HP : 0 < 2 ^ (t - e)) by (apply Z.pow_pos_nonneg; lia).
  assert (HDP : 0 < D * 2 ^ (t - e)) by nia.
  split; [exact HDP | ].
  split; [apply Z.div_pos; lia | ].
  rewrite <- Z.div_div by lia.
  assert (Hq : 0 <= N / D) by (apply Z.div_pos; lia).
  pose proof (Zdigits2_upper (N / D) Hq) as Hup.
  pose proof (Zdigits2_nonneg (N / D)) as Hd.
  set (d := Zdigits2 (N / D)) in *.
  assert (Ht : d + e - 53 <= t) by (unfold t; rewrite fexp_value; lia).
  destruct (Z_le_gt_dec (t - e) d) as [Hle | Hgt].
  - apply Z.div_lt_upper_bound; [exact HP | ].
    apply Z.lt_le_trans with (1 := Hup).
    rewrite <- Z.pow_add_r by lia.
    apply Z.pow_le_mono_r; lia.
  - rewrite Z.div_small.
    + apply Z.pow_pos_nonneg; lia.
    + split; [exact Hq | ].
      apply Z.lt_le_trans with (1 := Hup).
      apply Z.pow_le_mono_r; lia.
Qed.

Lemma shr_fexp_located (N D e : Z) :
  0 <= N -> 0 < D ->
  let t := fexp prec emax (Zdigits2 (N / D) + e) in
  e <= t ->
  shr_fexp prec emax (N / D) e (locate N D)
  = (located N (D * 2 ^ (t - e)), t).
Proof.
  intros HN HD t Het. unfold shr_fexp, shr. fold t. fold (located N D).
  destruct (t - e) as [ | p | p] eqn:Hshift; try lia.
  - rewrite Z.pow_0_r, Z.mul_1_r. f_equal. lia.
  - rewrite iter_shr_1_located by assumption. f_equal. lia.
Qed.

(** What [binary_round_aux] returns for a quotient given by its integer
    part and by where it lies above it. *)
Lemma binary_round_aux_rounded (s : bool) (N D e : Z) :
  0 <= N -> 0 < D ->
  e <= fexp prec emax (Zdigits2 (N / D) + e) ->
  binary_round_aux prec emax s (N / D) e (locate N D) = rounded s N D e.
Proof.
  intros HN HD Het.
  destruct (scaled_quotient_bound N D e HN HD Het) as [HDP Hq].
  unfold binary_round_aux, rounded.
  rewrite (shr_fexp_located N D e HN HD Het).
  set (t := fexp prec emax (Zdigits2 (N / D) + e)) in *.
  set (D' := D * 2 ^ (t - e)) in *.
  unfold located at 1 2.
  rewrite shr_m_of_loc, loc_of_shr_record_of_loc.
  fold (nearest N D').
  pose proof (nearest_bounds N D') as HM.
  set (M := nearest N D') in *.
  assert (Htmin : -1074 <= t) by (unfold t; rewrite fexp_value; lia).
  destruct (M <? 2 ^ 53) eqn:Hcarry;
    [apply Z.ltb_lt in Hcarry | apply Z.ltb_ge in Hcarry].
  - assert (Hd : Zdigits2 M <= 53) by (apply Zdigits2_le; lia).
    rewrite shr_fexp_noop by (rewrite fexp_value; lia).
    rewrite shr_m_of_loc. reflexivity.
  - assert (HM53 : M = 2 ^ 53) by lia.
    rewrite HM53.
    unfold shr_fexp.
    change (Zdigits2 (2 ^ 53)) with 54. rewrite fexp_value.
    replace (Z.max (54 + t - 53) (-1074) - t) with 1 by lia.
    cbn [shr shr_record_of_loc SpecFloat.iter_pos].
    reflexivity.
Qed.


(** ** The nearest integer *)

Lemma nearest_spec (N D : Z) :
  0 < D ->
  let M := nearest N D in
  (2 * M - 1) * D <= 2 * N <= (2 * M + 1) * D
  /\ (2 * N = (2 * M + 1) * D -> Z.even M = true)
  /\ (2 * N = (2 * M - 1) * D -> Z.even M = true).
Proof.
  intros HD M. unfold M, nearest, locate, round_nearest_even.
  pose proof (Z.div_mod N D ltac:(lia)) as H1.
  pose proof (Z.mod_pos_bound N D HD) as H2.
  set (q := N / D) in *. set (r := N mod D) in *.
  destruct (r =? 0) eqn:Hr0;
    [apply Z.eqb_eq in Hr0 | apply Z.eqb_neq in Hr0].
  - repeat split; try nia.
  - destruct (2 * r ?= D) eqn:Hc.
    + rewrite Z.compare_eq_iff in Hc.
      destruct (Z.even q) eqn:Heven.
      * repeat split; try nia. intros _. exact Heven.
      * repeat split; try nia. intros _.
        rewrite Z.even_add, Heven. reflexivity.
    + rewrite Z.compare_lt_iff in Hc. repeat split; try nia.
    + rewrite Z.compare_gt_iff in Hc. repeat split; try nia.
Qed.

Lemma nearest_mono (N1 D1 N2 D2 : Z) :
  0 < D1 -> 0 < D2 -> N1 * D2 <= N2 * D1 ->
  nearest N1 D1 <= nearest N2 D2.
Proof.
  intros HD1 HD2 Hle.
  destruct (nearest_spec N1 D1 HD1) as ([Hl1 _] & _ & He1).
  destruct (nearest_spec N2 D2 HD2) as ([_ Hu2] & He2 & _).
  set (M1 := nearest N1 D1) in *. set (M2 := nearest N2 D2) in *.
  destruct (Z_le_gt_dec M1 M2) as [H | H]; [exact H | exfalso].
  assert (Hchain : (2 * M1 - 1) * (D1 * D2) <= (2 * M2 + 1) * (D1 * D2)).
  { apply Z.le_trans with (2 * N1 * D2); [nia | ].
    apply Z.le_trans with (2 * N2 * D1); [nia | nia]. }
  assert (HDD : 0 < D1 * D2) by nia.
  assert (HM : M1 = M2 + 1) by nia.
  assert (Heq1 : 2 * N1 = (2 * M1 - 1) * D1) by nia.
  assert (Heq2 : 2 * N2 = (2 * M2 + 1) * D2) by nia.
  specialize (He1 Heq1). specialize (He2 Heq2).
  rewrite HM, Z.even_add, He2 in He1. discriminate.
Qed.

(** ** The order of two rounded numbers *)

Lemma pack_zero_le (M E E' : Z) :
  0 <= M -> SFleb (pack false 0 E) (pack false M E') = true.
Proof.
  intros HM. destruct M as [ | m | m]; try lia; cbn [pack].
  - reflexivity.
  - destruct (E' <=? emax - prec); reflexivity.
Qed.

Lemma pack_le (M1 E1 M2 E2 : Z) :
  0 < M1 -> 0 < M2 ->
  E1 < E2 \/ (E1 = E2 /\ M1 <= M2) ->
  SFleb (pack false M1 E1) (pack false M2 E2) = true.
Proof.
  intros H1 H2 Hlex.
  destruct M1 as [ | m1 | m1]; try lia.
  destruct M2 as [ | m2 | m2]; try lia.
  cbn [pack].
  destruct (E1 <=? emax - prec) eqn:Hb1, (E2 <=? emax - prec) eqn:Hb2;
    try reflexivity.
  - unfold SFleb. cbn [SFcompare].
    destruct Hlex as [Hlt | [-> Hle]].
    + apply Z.compare_lt_iff in Hlt. rewrite Hlt. reflexivity.
    + rewrite Z.compare_refl.
      change (Pos.compare_cont Eq m1 m2) with (Z.pos m1 ?= Z.pos m2).
      destruct (Z.pos m1 ?= Z.pos m2) eqn:Hc; try reflexivity.
      rewrite Z.compare_gt_iff in Hc. lia.
  - apply Z.leb_gt in Hb1. apply Z.leb_le in Hb2. lia.
Qed.


Lemma pow2_pos (k : Z) : 0 <= k -> 0 < 2 ^ k.
Proof. intros Hk. apply Z.pow_pos_nonneg; lia. Qed.

(** The exponent of the format grows with the value. *)
Lemma rounded_exponent_mono (N1 D1 e1 N2 D2 e2 c : Z) :
  0 <= N1 -> 0 < D1 -> 0 <= N2 -> 0 < D2 ->
  e1 <= fexp prec emax (Zdigits2 (N1 / D1) + e1) ->
  c <= e1 -> c <= e2 ->
  N1 * 2 ^ (e1 - c) * D2 <= N2 * 2 ^ (e2 - c) * D1 ->
  fexp prec emax (Zdigits2 (N1 / D1) + e1)
  <= fexp prec emax (Zdigits2 (N2 / D2) + e2).
Proof.
  intros HN1 HD1 HN2 HD2 Het1 Hc1 Hc2 Hle.
  rewrite !fexp_value in *.
  assert (Hq1 : 0 <= N1 / D1) by (apply Z.div_pos; lia).
  assert (Hq2 : 0 <= N2 / D2) by (apply Z.div_pos; lia).
  pose proof (Zdigits2_nonneg (N1 / D1)) as Hd1.
  pose proof (Zdigits2_nonneg (N2 / D2)) as Hd2.
  pose proof (Zdigits2_upper (N2 / D2) Hq2) as Hup2.
  destruct (Z.eq_dec (N1 / D1) 0) as [Hz | Hnz].
  - rewrite Hz in *. cbn [Zdigits2] in *. lia.
  - destruct (Zdigits2_bounds (N1 / D1) ltac:(lia)) as [Hlow1 _].
    set (d1 := Zdigits2 (N1 / D1)) in *.
    set (d2 := Zdigits2 (N2 / D2)) in *.
    assert (Hd1pos : 1 <= d1).
    { destruct (N1 / D1) as [ | p | p]; try lia. unfold d1. cbn. lia. }
    pose proof (Z.mul_div_le N1 D1 HD1) as Hm1.
    pose proof (Z.mul_succ_div_gt N2 D2 HD2) as Hm2.
    pose proof (pow2_pos (e1 - c) ltac:(lia)) as Ha1.
    pose proof (pow2_pos (e2 - c) ltac:(lia)) as Ha2.
    pose proof (pow2_pos (d1 - 1) ltac:(lia)) as HA.
    pose proof (pow2_pos d2 ltac:(lia)) as HB.
    assert (Hpow : 2 ^ (d1 - 1 + (e1 - c)) < 2 ^ (d2 + (e2 - c))).
    { rewrite !Z.pow_add_r by lia.
      set (A := 2 ^ (d1 - 1)) in *. set (B := 2 ^ d2) in *.
      set (a1 := 2 ^ (e1 - c)) in *. set (a2 := 2 ^ (e2 - c)) in *.
      assert (H1 : A * D1 <= N1) by nia.
      assert (H2 : N2 < B * D2) by nia.
      assert (H3 : A * a1 * (D1 * D2) <= N1 * a1 * D2) by nia.
      assert (H4 : N2 * a2 * D1 < B * a2 * (D1 * D2)) by nia.
      assert (H5 : A * a1 * (D1 * D2) < B * a2 * (D1 * D2)) by lia.
      assert (HDD : 0 < D1 * D2) by nia.
      nia. }
    apply Z.pow_lt_mono_r_iff in Hpow; lia.
Qed.

(** The nearest integer to the scaled value has at most 54 digits, and
    is not below [2 ^ 52] above the least exponent. *)
Lemma nearest_scaled_bounds (N D e : Z) :
  0 <= N -> 0 < D ->
  let t := fexp prec emax (Zdigits2 (N / D) + e) in
  e <= t ->
  0 <= nearest N (D * 2 ^ (t - e)) <= 2 ^ 53
  /\ (-1074 < t -> 2 ^ 52 <= nearest N (D * 2 ^ (t - e))).
Proof.
  intros HN HD t Het.
  destruct (scaled_quotient_bound N D e HN HD Het) as [HDP Hq].
  fold t in HDP, Hq.
  pose proof (nearest_bounds N (D * 2 ^ (t - e))) as HM.
  split; [lia | ].
  intros Hnormal.
  apply Z.le_trans with (2 := proj1 HM).
  assert (Hq0 : 0 <= N / D) by (apply Z.div_pos; lia).
  pose proof (Zdigits2_nonneg (N / D)) as Hd.
  assert (Ht : t = Zdigits2 (N / D) + e - 53)
    by (unfold t in *; rewrite fexp_value in *; lia).
  assert (Hdpos : 53 <= Zdigits2 (N / D)) by lia.
  destruct (Zdigits2_bounds (N / D)) as [Hlow _].
  { destruct (N / D) as [ | p | p]; try lia. cbn in Hdpos. lia. }
  rewrite <- Z.div_div by (try apply pow2_pos; lia).
  apply Z.div_le_lower_bound; [apply pow2_pos; lia | ].
  apply Z.le_trans with (2 := Hlow).
  rewrite <- Z.pow_add_r by lia.
  apply Z.pow_le_mono_r; lia.
Qed.

Lemma rounded_mono (N1 D1 e1 N2 D2 e2 c : Z) :
  0 <= N1 -> 0 < D1 -> 0 <= N2 -> 0 < D2 ->
  e1 <= fexp prec emax (Zdigits2 (N1 / D1) + e1) ->
  e2 <= fexp prec emax (Zdigits2 (N2 / D2) + e2) ->
  c <= e1 -> c <= e2 ->
  N1 * 2 ^ (e1 - c) * D2 <= N2 * 2 ^ (e2 - c) * D1 ->
  SFleb (rounded false N1 D1 e1) (rounded false N2 D2 e2) = true.
Proof.
  intros HN1 HD1 HN2 HD2 Het1 Het2 Hc1 Hc2 Hle.
  pose proof (rounded_exponent_mono N1 D1 e1 N2 D2 e2 c
                HN1 HD1 HN2 HD2 Het1 Hc1 Hc2 Hle) as Ht.
  destruct (nearest_scaled_bounds N1 D1 e1 HN1 HD1 Het1) as [HM1 _].
  destruct (nearest_scaled_bounds N2 D2 e2 HN2 HD2 Het2) as [HM2 Hnormal2].
  destruct (scaled_quotient_bound N1 D1 e1 HN1 HD1 Het1) as [HDP1 _].
  destruct (scaled_quotient_bound N2 D2 e2 HN2 HD2 Het2) as [HDP2 _].
  unfold rounded.
  set (t1 := fexp prec emax (Zdigits2 (N1 / D1) + e1)) in *.
  set (t2 := fexp prec emax (Zdigits2 (N2 / D2) + e2)) in *.
  set (M1 := nearest N1 (D1 * 2 ^ (t1 - e1))) in *.
  set (M2 := nearest N2 (D2 * 2 ^ (t2 - e2))) in *.
  assert (Htmin : -1074 <= t1) by (unfold t1; rewrite fexp_value; lia).
  change (2 ^ 53) with 9007199254740992 in *.
  change (2 ^ 52) with 4503599627370496 in *.
  destruct (Z.eq_dec M1 0) as [Hzero | Hpos1].
  { rewrite Hzero. cbn [Z.ltb Z.compare].
    destruct (M2 <? 9007199254740992);
      apply pack_zero_le; lia. }
  destruct (Z.eq_dec t1 t2) as [Heq | Hne].
  - assert (HM : M1 <= M2).
    { unfold M1, M2. apply nearest_mono; try assumption.
      rewrite <- Heq.
      pose proof (pow2_pos (e1 - c) ltac:(lia)) as Ha1.
      pose proof (pow2_pos (e2 - c) ltac:(lia)) as Ha2.
      pose proof (pow2_pos (t1 - e1) ltac:(lia)) as Hb1.
      pose proof (pow2_pos (t1 - e2) ltac:(lia)) as Hb2.
      assert (HP : 2 ^ (e1 - c) * 2 ^ (t1 - e1)
                   = 2 ^ (e2 - c) * 2 ^ (t1 - e2)).
      { rewrite <- !Z.pow_add_r by lia. f_equal. lia. }
      set (a1 := 2 ^ (e1 - c)) in *. set (a2 := 2 ^ (e2 - c)) in *.
      set (b1 := 2 ^ (t1 - e1)) in *. set (b2 := 2 ^ (t1 - e2)) in *.
      assert (HPpos : 0 < a1 * b1) by nia.
      apply Z.mul_le_mono_pos_r with (a1 * b1); [exact HPpos | ].
      replace (N1 * (D2 * b2) * (a1 * b1))
        with (N1 * a1 * D2 * (b1 * b2)) by ring.
      rewrite HP at 1.
      replace (N2 * (D1 * b1) * (a2 * b2))
        with (N2 * a2 * D1 * (b1 * b2)) by ring.
      apply Z.mul_le_mono_nonneg_r; [nia | exact Hle]. }
    rewrite <- Heq.
    destruct (M1 <? 9007199254740992) eqn:Hc1';
      [apply Z.ltb_lt in Hc1' | apply Z.ltb_ge in Hc1'];
      (destruct (M2 <? 9007199254740992) eqn:Hc2';
         [apply Z.ltb_lt in Hc2' | apply Z.ltb_ge in Hc2']).
    + apply pack_le; lia.
    + apply pack_le; lia.
    + lia.
    + apply pack_le; lia.
  - assert (Hlt : t1 < t2) by lia.
    specialize (Hnormal2 ltac:(lia)).
    destruct (M1 <? 9007199254740992) eqn:Hc1';
      [apply Z.ltb_lt in Hc1' | apply Z.ltb_ge in Hc1'];
      (destruct (M2 <? 9007199254740992) eqn:Hc2';
         [apply Z.ltb_lt in Hc2' | apply Z.ltb_ge in Hc2']);
      apply pack_le; lia.
Qed.


(** ** Signs *)

Lemma SFcompare_opp (a b : spec_float) :
  SFcompare (SFopp a) (SFopp b) = SFcompare b a.
Proof.
  destruct a as [sa | sa | | sa ma ea], b as [sb | sb | | sb mb eb];
    cbn [SFopp SFcompare]; try reflexivity;
    try (destruct sa; reflexivity); try (destruct sb; reflexivity);
    try (destruct sa, sb; reflexivity).
  destruct sa, sb; cbn [negb]; try reflexivity.
  - rewrite (Z.compare_antisym ea eb).
    destruct (ea ?= eb); cbn [CompOpp]; try reflexivity.
    change (Pos.compare_cont Eq ma mb) with (ma ?= mb)%positive.
    change (Pos.compare_cont Eq mb ma) with (mb ?= ma)%positive.
    rewrite (Pos.compare_antisym ma mb), ?CompOpp_involutive. reflexivity.
  - rewrite (Z.compare_antisym ea eb).
    destruct (ea ?= eb); cbn [CompOpp]; try reflexivity.
    change (Pos.compare_cont Eq ma mb) with (ma ?= mb)%positive.
    change (Pos.compare_cont Eq mb ma) with (mb ?= ma)%positive.
    rewrite (Pos.compare_antisym ma mb), ?CompOpp_involutive. reflexivity.
Qed.

Lemma SFleb_opp (a b : spec_float) :
  SFleb (SFopp a) (SFopp b) = SFleb b a.
Proof. unfold SFleb. rewrite SFcompare_opp. reflexivity. Qed.

Lemma pack_opp (M E : Z) : pack true M E = SFopp (pack false M E).
Proof.
  destruct M as [ | m | m]; cbn [pack SFopp]; try reflexivity.
  destruct (E <=? emax - prec); reflexivity.
Qed.

Lemma rounded_opp (N D e : Z) :
  rounded true N D e = SFopp (rounded false N D e).
Proof.
  unfold rounded.
  destruct (nearest N _ <? 2 ^ 53); apply pack_opp.
Qed.

Lemma pack_nonneg (M E : Z) : 0 <= M -> SFnonneg (pack false M E).
Proof.
  intros HM. destruct M as [ | m | m]; try lia; cbn [pack].
  - exact I.
  - destruct (E <=? emax - prec); exact I.
Qed.

Lemma rounded_nonneg (N D e : Z) :
  0 <= N -> 0 < D -> e <= fexp prec emax (Zdigits2 (N / D) + e) ->
  SFnonneg (rounded false N D e).
Proof.
  intros HN HD Het.
  destruct (nearest_scaled_bounds N D e HN HD Het) as [HM _].
  unfold rounded.
  destruct (nearest N _ <? 2 ^ 53); apply pack_nonneg; lia.
Qed.

Lemma SFnonpos_opp (f : spec_float) : SFnonneg f -> SFnonpos (SFopp f).
Proof. destruct f as [s | [ | ] | | [ | ] m e]; cbn; tauto. Qed.

Lemma SFleb_nonpos_nonneg (a b : spec_float) :
  SFnonpos a -> SFnonneg b -> SFleb a b = true.
Proof.
  destruct a as [sa | [ | ] | | [ | ] ma ea], b as [sb | [ | ] | | [ | ] mb eb];
    cbn [SFnonpos SFnonneg]; try tauto; reflexivity.
Qed.

(** ** The order of two roundings *)

Theorem Rounds_mono (c A1 D1 A2 D2 : Z) (f1 f2 : spec_float) :
  Rounds c A1 D1 f1 -> Rounds c A2 D2 f2 ->
  A1 * D2 <= A2 * D1 ->
  SFleb f1 f2 = true.
Proof.
  intros [HD1 H1] [HD2 H2] Hle.
  assert (Hsign1 : (A1 <= 0 -> SFnonpos f1) /\ (0 <= A1 -> SFnonneg f1)).
  { destruct H1 as [[-> [s ->]] | (s & N & e & HN & Hc & Het & -> & ->)].
    - split; intros _; exact I.
    - pose proof (pow2_pos (e - c) ltac:(lia)).
      destruct s; cbn [cond_Zopp]; split; intros Hs; try nia.
      + rewrite rounded_opp. apply SFnonpos_opp, rounded_nonneg; lia.
      + apply rounded_nonneg; lia. }
  assert (Hsign2 : (A2 <= 0 -> SFnonpos f2) /\ (0 <= A2 -> SFnonneg f2)).
  { destruct H2 as [[-> [s ->]] | (s & N & e & HN & Hc & Het & -> & ->)].
    - split; intros _; exact I.
    - pose proof (pow2_pos (e - c) ltac:(lia)).
      destruct s; cbn [cond_Zopp]; split; intros Hs; try nia.
      + rewrite rounded_opp. apply SFnonpos_opp, rounded_nonneg; lia.
      + apply rounded_nonneg; lia. }
  destruct (Z_le_gt_dec A1 0) as [Hn1 | Hp1].
  - destruct (Z_le_gt_dec 0 A2) as [Hp2 | Hn2].
    + apply SFleb_nonpos_nonneg; tauto.
    + (* both negative *)
      assert (HA1 : A1 < 0) by nia.
      destruct H1 as [[-> _] | (s1 & N1 & e1 & HN1 & Hc1 & Het1 & E1 & ->)];
        [lia | ].
      destruct H2 as [[-> _] | (s2 & N2 & e2 & HN2 & Hc2 & Het2 & E2 & ->)];
        [lia | ].
      pose proof (pow2_pos (e1 - c) ltac:(lia)).
      pose proof (pow2_pos (e2 - c) ltac:(lia)).
      destruct s1; cbn [cond_Zopp] in E1; [ | nia].
      destruct s2; cbn [cond_Zopp] in E2; [ | nia].
      rewrite !rounded_opp, SFleb_opp.
      apply (rounded_mono N2 D2 e2 N1 D1 e1 c); try lia.
  - destruct (Z_le_gt_dec A2 0) as [Hn2 | Hp2]; [nia | ].
    destruct H1 as [[-> _] | (s1 & N1 & e1 & HN1 & Hc1 & Het1 & E1 & ->)];
      [lia | ].
    destruct H2 as [[-> _] | (s2 & N2 & e2 & HN2 & Hc2 & Het2 & E2 & ->)];
      [lia | ].
    pose proof (pow2_pos (e1 - c) ltac:(lia)).
    pose proof (pow2_pos (e2 - c) ltac:(lia)).
    destruct s1; cbn [cond_Zopp] in E1; [nia | ].
    destruct s2; cbn [cond_Zopp] in E2; [nia | ].
    apply (rounded_mono N1 D1 e1 N2 D2 e2 c); try lia.
Qed.


(** ** What the operations round *)

Lemma locate_whole (N : Z) : N / 1 = N /\ locate N 1 = loc_Exact.
Proof.
  split; [apply Z.div_1_r | ].
  unfold locate. rewrite Z.mod_1_r. reflexivity.
Qed.

Lemma shl_align_value (m : positive) (e e' : Z) :
  e' <= e ->
  Z.pos (fst (shl_align m e e')) = Z.pos m * 2 ^ (e - e')
  /\ snd (shl_align m e e') = e'.
Proof.
  intros He. unfold shl_align.
  destruct (e' - e) as [ | d | d] eqn:Hd; try lia; cbn [fst snd].
  - replace (e - e') with 0 by lia. split; lia.
  - rewrite iter_xO_value. replace (e - e') with (Z.pos d) by lia.
    split; reflexivity.
Qed.

Lemma binary_round_aux_whole (s : bool) (N e : Z) :
  0 <= N -> e <= fexp prec emax (Zdigits2 N + e) ->
  binary_round_aux prec emax s N e loc_Exact = rounded s N 1 e.
Proof.
  intros HN He. destruct (locate_whole N) as [Hq Hl].
  rewrite <- (binary_round_aux_rounded s N 1 e);
    rewrite ?Hq, ?Hl; try reflexivity; try lia.
Qed.

Lemma binary_round_Rounds (s : bool) (m : positive) (e c : Z) :
  c <= e -> c <= -1074 ->
  Rounds c (cond_Zopp s (Z.pos m * 2 ^ (e - c))) 1
    (binary_round prec emax s m e).
Proof.
  intros Hce Hc. split; [lia | right].
  unfold binary_round.
  set (t := fexp prec emax (Z.pos (digits2_pos m) + e)).
  assert (Htmin : -1074 <= t) by (unfold t; rewrite fexp_value; lia).
  destruct (Z_le_gt_dec t e) as [Hle | Hgt].
  - destruct (shl_align_value m e t Hle) as [Hv He'].
    pose proof (shl_align_digits m e t Hle) as Hd.
    destruct (shl_align m e t) as [mz ez]. cbn [fst snd] in Hv, He', Hd.
    subst ez.
    assert (Hdig : Zdigits2 (Z.pos mz) + t = Z.pos (digits2_pos m) + e)
      by (cbn [Zdigits2]; lia).
    exists s, (Z.pos mz), t.
    destruct (locate_whole (Z.pos mz)) as [Hq _].
    rewrite Hq, Hdig. fold t.
    repeat split; try lia.
    + rewrite Hv, <- Z.mul_assoc, <- Z.pow_add_r by lia.
      do 3 f_equal. lia.
    + apply binary_round_aux_whole; [lia | ]. rewrite Hdig. fold t. lia.
  - assert (Hs : shl_align m e t = (m, e)).
    { unfold shl_align. destruct (t - e) as [ | d | d] eqn:Hd; try lia;
        reflexivity. }
    rewrite Hs.
    exists s, (Z.pos m), e.
    destruct (locate_whole (Z.pos m)) as [Hq _].
    rewrite Hq. cbn [Zdigits2]. fold t.
    repeat split; try lia.
    apply binary_round_aux_whole; [lia | ]. cbn [Zdigits2]. fold t. lia.
Qed.

Lemma binary_normalize_Rounds (z e c : Z) (s0 : bool) :
  c <= e -> c <= -1074 ->
  Rounds c (z * 2 ^ (e - c)) 1 (binary_normalize prec emax z e s0).
Proof.
  intros Hce Hc. destruct z as [ | m | m]; cbn [binary_normalize].
  - split; [lia | left]. split; [lia | eexists; reflexivity].
  - apply (binary_round_Rounds false m e c Hce Hc).
  - pose proof (binary_round_Rounds true m e c Hce Hc) as H.
    cbn [cond_Zopp] in H.
    replace (Z.neg m * 2 ^ (e - c)) with (- (Z.pos m * 2 ^ (e - c)))
      by (rewrite <- Pos2Z.opp_pos; ring).
    exact H.
Qed.

Lemma cond_Zopp_mul_r (s : bool) (a b : Z) :
  cond_Zopp s a * b = cond_Zopp s (a * b).
Proof. destruct s; cbn [cond_Zopp]; ring. Qed.

(** A number of the format is the nearest to its own value. *)
Lemma valid_Rounds (f : spec_float) :
  valid_binary f = true -> SFfinite f ->
  Rounds (-1074) (scaled f) 1 f.
Proof.
  intros Hv Hf. destruct f as [s | s | | s m e]; try contradiction.
  - split; [lia | left]. split; [reflexivity | eexists; reflexivity].
  - destruct (valid_digits s m e Hv) as (Hd & Hn & He).
    destruct (valid_finite_inv s m e Hv) as (Hc & _ & _).
    split; [lia | right].
    exists s, (Z.pos m), e.
    destruct (locate_whole (Z.pos m)) as [Hq Hl].
    rewrite Hq. cbn [Zdigits2]. rewrite Hc.
    repeat split; try lia.
    unfold rounded. rewrite Hq. cbn [Zdigits2]. rewrite Hc.
    rewrite Z.sub_diag, Z.pow_0_r, Z.mul_1_r.
    unfold nearest. rewrite Hq, Hl. cbn [round_nearest_even].
    destruct (digits2_pos_bounds m) as [_ Hup].
    assert (Hm : Z.pos m < 2 ^ 53).
    { apply Z.lt_le_trans with (1 := Hup). apply Z.pow_le_mono_r; lia. }
    apply Z.ltb_lt in Hm. rewrite Hm. cbn [pack].
    change (emax - prec) with 971.
    replace (e <=? 971) with true by (symmetry; apply Z.leb_le; lia).
    reflexivity.
Qed.


(** The same, in smaller units. *)
Lemma valid_Rounds_at (c : Z) (f : spec_float) :
  c <= -1074 ->
  valid_binary f = true -> SFfinite f ->
  Rounds c (scaled f * 2 ^ (-1074 - c)) 1 f.
Proof.
  intros Hc Hv Hf.
  destruct (valid_Rounds f Hv Hf)
    as [HD [[Hz Hs] | (s & N & e & HN & He & Het & HA & Hr)]].
  - split; [exact HD | left]. split; [rewrite Hz; reflexivity | exact Hs].
  - split; [exact HD | right].
    exists s, N, e. repeat split; try assumption; try lia.
    rewrite HA, cond_Zopp_mul_r. f_equal.
    rewrite <- Z.mul_assoc, <- Z.pow_add_r by lia.
    do 2 f_equal. lia.
Qed.

(** ** The order of numbers is the order of their values *)

Lemma SFcompare_Eq_scaled (a b : spec_float) :
  SFfinite a -> SFfinite b ->
  SFcompare a b = Some Eq -> scaled a = scaled b.
Proof.
  destruct a as [sa | sa | | sa ma ea], b as [sb | sb | | sb mb eb];
    cbn [SFfinite]; try contradiction; intros _ _; cbn [SFcompare scaled].
  - reflexivity.
  - destruct sb; discriminate.
  - destruct sa; discriminate.
  - destruct sa, sb; try discriminate;
      (destruct (ea ?= eb) eqn:He; try discriminate;
       rewrite Z.compare_eq_iff in He; subst eb;
       change (Pos.compare_cont Eq ma mb) with (ma ?= mb)%positive;
       destruct (ma ?= mb)%positive eqn:Hm; try discriminate;
       rewrite Pos.compare_eq_iff in Hm; subst mb; reflexivity).
Qed.

Lemma SFleb_antisym (a b : spec_float) :
  SFleb a b = true -> SFleb b a = true -> SFcompare a b = Some Eq.
Proof.
  unfold SFleb. rewrite (SFcompare_swap a b).
  destruct (SFcompare a b) as [[ | | ] | ]; cbn; congruence.
Qed.

Lemma SFleb_total (a b : spec_float) :
  SFfinite a -> SFfinite b -> SFleb a b = false -> SFltb b a = true.
Proof.
  unfold SFleb, SFltb. rewrite (SFcompare_swap a b).
  destruct a as [sa | sa | | sa ma ea], b as [sb | sb | | sb mb eb];
    cbn [SFfinite]; try contradiction; intros _ _;
    destruct (SFcompare _ _) as [[ | | ] | ] eqn:Hc; cbn;
    try congruence; cbn in Hc; discriminate.
Qed.

Theorem SFleb_scaled (a b : spec_float) :
  valid_binary a = true -> valid_binary b = true ->
  SFfinite a -> SFfinite b ->
  SFleb a b = true <-> scaled a <= scaled b.
Proof.
  intros Va Vb Fa Fb.
  assert (Hmono : forall x y,
            valid_binary x = true -> valid_binary y = true ->
            SFfinite x -> SFfinite y ->
            scaled x <= scaled y -> SFleb x y = true).
  { intros x y Vx Vy Fx Fy Hle.
    apply (Rounds_mono (-1074) (scaled x) 1 (scaled y) 1);
      try (apply valid_Rounds; assumption).
    lia. }
  split; [ | apply Hmono; assumption].
  intros Hle.
  destruct (Z_le_gt_dec (scaled a) (scaled b)) as [H | H];
    [exact H | exfalso].
  pose proof (Hmono b a Vb Va Fb Fa ltac:(lia)) as Hge.
  pose proof (SFcompare_Eq_scaled a b Fa Fb (SFleb_antisym a b Hle Hge)).
  lia.
Qed.

Theorem SFltb_scaled (a b : spec_float) :
  valid_binary a = true -> valid_binary b = true ->
  SFfinite a -> SFfinite b ->
  SFltb a b = true <-> scaled a < scaled b.
Proof.
  intros Va Vb Fa Fb.
  pose proof (SFleb_scaled b a Vb Va Fb Fa) as Hle.
  split.
  - intros Hlt.
    destruct (Z_lt_ge_dec (scaled a) (scaled b)) as [H | H];
      [exact H | exfalso].
    assert (Hba : SFleb b a = true) by (apply Hle; lia).
    unfold SFltb in Hlt. unfold SFleb in Hba.
    rewrite (SFcompare_swap a b) in Hba.
    destruct (SFcompare a b) as [[ | | ] | ]; cbn in Hba; congruence.
  - intros Hlt.
    clear Hle. destruct (SFleb b a) eqn:Hba.
    + apply (SFleb_scaled b a Vb Va Fb Fa) in Hba. lia.
    + apply SFleb_total; assumption.
Qed.

Theorem SFeqb_scaled (a b : spec_float) :
  valid_binary a = true -> valid_binary b = true ->
  SFfinite a -> SFfinite b ->
  SFeqb a b = true <-> scaled a = scaled b.
Proof.
  intros Va Vb Fa Fb. split.
  - unfold SFeqb. intros H. apply SFcompare_Eq_scaled; try assumption.
    destruct (SFcompare a b) as [[ | | ] | ]; congruence.
  - intros Heq. unfold SFeqb.
    rewrite (SFleb_antisym a b); [reflexivity | | ];
      apply SFleb_scaled; try assumption; lia.
Qed.

(** What lies between two finite numbers is finite. *)
Lemma SFfinite_between (lo x hi : spec_float) :
  SFfinite lo -> SFfinite hi ->
  SFleb lo x = true -> SFleb x hi = true -> SFfinite x.
Proof.
  destruct lo as [sl | sl | | sl ml el], hi as [sh | sh | | sh mh eh];
    cbn [SFfinite]; try contradiction; intros _ _;
    destruct x as [s | [ | ] | | s m e]; cbn [SFfinite];
    try (intros; exact I); unfold SFleb; cbn [SFcompare];
    try discriminate;
    try (destruct sl; discriminate);
    try (destruct sh; intros _; discriminate);
    try (intros _; discriminate).
Qed.


(** ** Sums and differences *)

Lemma pow2_shift (e ez c : Z) :
  c <= ez <= e -> 2 ^ (e - ez) * 2 ^ (ez - c) = 2 ^ (e - c).
Proof.
  intros H. rewrite <- Z.pow_add_r by lia. f_equal. lia.
Qed.

Lemma aligned_scaled (s : bool) (m : positive) (e ez : Z) :
  -1074 <= ez <= e ->
  cond_Zopp s (Z.pos (fst (shl_align m e ez))) * 2 ^ (ez - -1074)
  = scaled (S754_finite s m e).
Proof.
  intros H. destruct (shl_align_value m e ez ltac:(lia)) as [-> _].
  rewrite cond_Zopp_mul_r, <- Z.mul_assoc, pow2_shift by lia.
  reflexivity.
Qed.

Lemma SFadd_Rounds (a b : spec_float) :
  valid_binary a = true -> valid_binary b = true ->
  SFfinite a -> SFfinite b ->
  Rounds (-1074) (scaled a + scaled b) 1 (SFadd prec emax a b).
Proof.
  intros Va Vb Fa Fb.
  destruct a as [sa | sa | | sa ma ea]; try contradiction;
    destruct b as [sb | sb | | sb mb eb]; try contradiction.
  - split; [lia | left]. split; [reflexivity | ].
    destruct sa, sb; eexists; reflexivity.
  - cbn [SFadd]. rewrite Z.add_0_l. apply valid_Rounds; assumption.
  - cbn [SFadd]. change (scaled (S754_zero sb)) with 0.
    rewrite Z.add_0_r. apply valid_Rounds; assumption.
  - destruct (valid_digits sa ma ea Va) as (_ & _ & Hea).
    destruct (valid_digits sb mb eb Vb) as (_ & _ & Heb).
    cbn [SFadd].
    rewrite <- (aligned_scaled sa ma ea (Z.min ea eb)) by lia.
    rewrite <- (aligned_scaled sb mb eb (Z.min ea eb)) by lia.
    rewrite <- Z.mul_add_distr_r.
    apply binary_normalize_Rounds; lia.
Qed.

Lemma SFsub_Rounds (a b : spec_float) :
  valid_binary a = true -> valid_binary b = true ->
  SFfinite a -> SFfinite b ->
  Rounds (-1074) (scaled a - scaled b) 1 (SFsub prec emax a b).
Proof.
  intros Va Vb Fa Fb.
  destruct a as [sa | sa | | sa ma ea]; try contradiction;
    destruct b as [sb | sb | | sb mb eb]; try contradiction.
  - split; [lia | left]. split; [reflexivity | ].
    destruct sa, sb; eexists; reflexivity.
  - cbn [SFsub].
    replace (scaled (S754_zero sa) - scaled (S754_finite sb mb eb))
      with (scaled (S754_finite (negb sb) mb eb))
      by (cbn [scaled]; destruct sb; cbn [negb cond_Zopp]; lia).
    apply valid_Rounds; [exact Vb | exact I].
  - cbn [SFsub]. change (scaled (S754_zero sb)) with 0.
    rewrite Z.sub_0_r. apply valid_Rounds; assumption.
  - destruct (valid_digits sa ma ea Va) as (_ & _ & Hea).
    destruct (valid_digits sb mb eb Vb) as (_ & _ & Heb).
    cbn [SFsub].
    rewrite <- (aligned_scaled sa ma ea (Z.min ea eb)) by lia.
    rewrite <- (aligned_scaled sb mb eb (Z.min ea eb)) by lia.
    rewrite <- Z.mul_sub_distr_r.
    apply binary_normalize_Rounds; lia.
Qed.

(** ** Products *)

Lemma SFmul_Rounds (a b : spec_float) :
  valid_binary a = true -> valid_binary b = true ->
  SFfinite a -> SFfinite b ->
  Rounds (-2148) (scaled a * scaled b) 1 (SFmul prec emax a b).
Proof.
  intros Va Vb Fa Fb.
  destruct a as [sa | sa | | sa ma ea]; try contradiction;
    destruct b as [sb | sb | | sb mb eb]; try contradiction;
    try (split; [lia | left]; split;
         [cbn [scaled]; lia | eexists; reflexivity]).
  destruct (valid_digits sa ma ea Va) as (Hda & Hna & Hea).
  destruct (valid_digits sb mb eb Vb) as (Hdb & Hnb & Heb).
  destruct (digits2_pos_bounds ma) as [Hla _].
  destruct (digits2_pos_bounds mb) as [Hlb _].
  pose proof (Pos2Z.is_pos (digits2_pos ma)) as Hpa.
  pose proof (Pos2Z.is_pos (digits2_pos mb)) as Hpb.
  assert (Hdig : Z.pos (digits2_pos ma) + Z.pos (digits2_pos mb) - 1
                 <= Zdigits2 (Z.pos (ma * mb))).
  { replace (Z.pos (digits2_pos ma) + Z.pos (digits2_pos mb) - 1)
      with (Z.pos (digits2_pos ma) - 1 + (Z.pos (digits2_pos mb) - 1) + 1)
      by lia.
    apply Zdigits2_ge; [ | lia].
    rewrite Z.pow_add_r by lia. rewrite Pos2Z.inj_mul.
    pose proof (pow2_pos (Z.pos (digits2_pos ma) - 1) ltac:(lia)).
    pose proof (pow2_pos (Z.pos (digits2_pos mb) - 1) ltac:(lia)).
    nia. }
  assert (Hfine : ea + eb
                  <= fexp prec emax (Zdigits2 (Z.pos (ma * mb)) + (ea + eb))).
  { rewrite fexp_value.
    assert (Hna' : -1074 < ea -> Z.pos (digits2_pos ma) = 53)
      by (intros H; rewrite (Hna H); reflexivity).
    assert (Hnb' : -1074 < eb -> Z.pos (digits2_pos mb) = 53)
      by (intros H; rewrite (Hnb H); reflexivity).
    lia. }
  split; [lia | right].
  exists (xorb sa sb), (Z.pos (ma * mb)), (ea + eb).
  destruct (locate_whole (Z.pos (ma * mb))) as [Hq _]. rewrite Hq.
  repeat split; try lia.
  - cbn [scaled]. rewrite Pos2Z.inj_mul.
    replace (ea + eb - -2148) with (ea + 1074 + (eb + 1074)) by lia.
    rewrite (Z.pow_add_r 2 (ea + 1074) (eb + 1074)) by lia.
    destruct sa, sb; cbn [xorb cond_Zopp]; ring.
  - cbn [SFmul]. apply binary_round_aux_whole; [lia | exact Hfine].
Qed.

(** ** Quotients *)

Lemma new_location_locate (D r : Z) :
  0 < D -> 0 <= r < D ->
  new_location D r
  = if r =? 0 then loc_Exact else loc_Inexact (2 * r ?= D).
Proof.
  intros HD Hr. unfold new_location.
  destruct (Z.even D) eqn:Heven;
    unfold new_location_even, new_location_odd;
    destruct (r =? 0) eqn:Hr0; try reflexivity.
  f_equal.
  assert (Hodd : 2 * r <> D).
  { intros Heq. rewrite <- Heq, Z.even_mul in Heven. discriminate. }
  destruct (2 * r + 1 ?= D) eqn:Hc;
    [rewrite Z.compare_eq_iff in Hc
    | rewrite Z.compare_lt_iff in Hc
    | rewrite Z.compare_gt_iff in Hc];
    symmetry;
    [apply Z.compare_lt_iff | apply Z.compare_lt_iff
    | apply Z.compare_gt_iff]; lia.
Qed.

Lemma SFdiv_Rounds (a : spec_float) (mb : positive) (eb : Z) :
  valid_binary a = true -> valid_binary (S754_finite false mb eb) = true ->
  SFfinite a ->
  Rounds (-2045) (scaled a * 2 ^ (971 - eb)) (Z.pos mb)
    (SFdiv prec emax a (S754_finite false mb eb)).
Proof.
  intros Va Vb Fa.
  destruct a as [sa | sa | | sa ma ea]; try contradiction.
  - split; [lia | left]. split; [reflexivity | eexists; reflexivity].
  - destruct (valid_digits sa ma ea Va) as (Hda & Hna & Hea).
    destruct (valid_digits false mb eb Vb) as (Hdb & Hnb & Heb).
    destruct (digits2_pos_bounds ma) as [Hla _].
    destruct (digits2_pos_bounds mb) as [_ Hub].
    pose proof (Pos2Z.is_pos (digits2_pos ma)) as Hpa.
    pose proof (Pos2Z.is_pos (digits2_pos mb)) as Hpb.
    cbn [SFdiv]. unfold SFdiv_core_binary. cbn [Zdigits2].
    set (da := Z.pos (digits2_pos ma)) in *.
    set (db := Z.pos (digits2_pos mb)) in *.
    set (g := da + ea - (db + eb)).
    set (e' := Z.min (fexp prec emax g) (ea - eb)).
    assert (He' : -2045 <= e' /\ e' <= ea - eb
                  /\ e' <= fexp prec emax g).
    { unfold e'. rewrite fexp_value. lia. }
    set (N := Z.pos ma * 2 ^ (ea - eb - e')).
    assert (HN : match ea - eb - e' with
                 | 0 => Z.pos ma
                 | Z.pos _ => Z.shiftl (Z.pos ma) (ea - eb - e')
                 | Z.neg _ => 0
                 end = N).
    { unfold N. destruct (ea - eb - e') as [ | p | p] eqn:Hs; try lia.
      apply Z.shiftl_mul_pow2. lia. }
    rewrite HN.
    pose proof (pow2_pos (ea - eb - e') ltac:(lia)) as HP.
    assert (HNpos : 0 < N) by (unfold N; nia).
    pose proof (Z.mod_pos_bound N (Z.pos mb) ltac:(lia)) as Hr.
    assert (Heucl : Z.div_eucl N (Z.pos mb)
                    = (N / Z.pos mb, N mod Z.pos mb)).
    { unfold Z.div, Z.modulo.
      destruct (Z.div_eucl N (Z.pos mb)); reflexivity. }
    rewrite Heucl.
    rewrite (new_location_locate (Z.pos mb) (N mod Z.pos mb)) by lia.
    fold (locate N (Z.pos mb)).
    assert (Hfine : e' <= fexp prec emax (Zdigits2 (N / Z.pos mb) + e')).
    { rewrite fexp_value.
      destruct (Z_le_gt_dec e' (-1074)) as [Hlow | Hhigh]; [lia | ].
      assert (Hg : e' <= g - 53)
        by (destruct He' as (_ & _ & H); rewrite fexp_value in H; lia).
      assert (Hq : 2 ^ 52 <= N / Z.pos mb).
      { apply Z.div_le_lower_bound; [lia | ].
        apply Z.le_trans with (2 ^ db * 2 ^ 52); [nia | ].
        apply Z.le_trans with (2 ^ (da - 1) * 2 ^ (ea - eb - e')).
        - rewrite <- !Z.pow_add_r by lia.
          apply Z.pow_le_mono_r; unfold g in Hg; lia.
        - unfold N. nia. }
      pose proof (Zdigits2_ge (N / Z.pos mb) 52 Hq ltac:(lia)). lia. }
    rewrite (binary_round_aux_rounded (xorb sa false) N (Z.pos mb) e')
      by (try exact Hfine; lia).
    split; [lia | right].
    exists (xorb sa false), N, e'.
    repeat split; try lia.
    replace (xorb sa false) with sa by (destruct sa; reflexivity).
    cbn [scaled]. unfold N.
    rewrite cond_Zopp_mul_r. f_equal.
    rewrite <- !Z.mul_assoc, <- !Z.pow_add_r by lia.
    do 2 f_equal. lia.
Qed.


(** ** A rounded number is a number of the format *)

Lemma pack_valid (s : bool) (M E : Z) :
  0 <= M < 2 ^ 53 -> -1074 <= E ->
  (-1074 < E -> 2 ^ 52 <= M) ->
  valid_binary (pack s M E) = true.
Proof.
  intros HM HE Hnormal.
  destruct M as [ | m | m]; try lia; cbn [pack]; [reflexivity | ].
  change (emax - prec) with 971.
  destruct (E <=? 971) eqn:Hb; [ | reflexivity].
  apply Z.leb_le in Hb.
  cbn [SpecFloat.valid_binary].
  unfold SpecFloat.bounded, SpecFloat.canonical_mantissa.
  change (emax - prec) with 971.
  apply andb_true_intro. split; [ | apply Z.leb_le; exact Hb].
  apply Z.eqb_eq. rewrite fexp_value.
  pose proof (Zdigits2_le (Z.pos m) 53 ltac:(lia) ltac:(lia)) as Hd.
  cbn [Zdigits2] in Hd.
  destruct (Z_le_gt_dec E (-1074)) as [Hlow | Hhigh]; [lia | ].
  pose proof (Zdigits2_ge (Z.pos m) 52 (Hnormal ltac:(lia)) ltac:(lia))
    as Hd'.
  cbn [Zdigits2] in Hd'. lia.
Qed.

Lemma rounded_valid (s : bool) (N D e : Z) :
  0 <= N -> 0 < D -> e <= fexp prec emax (Zdigits2 (N / D) + e) ->
  valid_binary (rounded s N D e) = true.
Proof.
  intros HN HD Het.
  destruct (nearest_scaled_bounds N D e HN HD Het) as [HM Hnormal].
  unfold rounded.
  set (t := fexp prec emax (Zdigits2 (N / D) + e)) in *.
  assert (Ht : -1074 <= t) by (unfold t; rewrite fexp_value; lia).
  destruct (nearest N _ <? 2 ^ 53) eqn:Hc;
    [apply Z.ltb_lt in Hc | ]; apply pack_valid; try lia.
Qed.

Lemma Rounds_valid (c A D : Z) (f : spec_float) :
  Rounds c A D f -> valid_binary f = true.
Proof.
  intros [HD [[_ [s ->]] | (s & N & e & HN & _ & Het & _ & ->)]].
  - reflexivity.
  - apply rounded_valid; lia.
Qed.

(** ** One value has one nearest number *)

Lemma pack_compare_Eq (M1 E1 M2 E2 : Z) :
  0 <= M1 -> 0 <= M2 ->
  SFcompare (pack false M1 E1) (pack false M2 E2) = Some Eq ->
  pack false M1 E1 = pack false M2 E2.
Proof.
  intros H1 H2.
  destruct M1 as [ | m1 | m1], M2 as [ | m2 | m2]; try lia; cbn [pack];
    try reflexivity;
    repeat match goal with
           | |- context [?E <=? emax - prec] =>
               destruct (E <=? emax - prec)
           end;
    cbn [SFcompare]; try discriminate; try reflexivity.
  destruct (E1 ?= E2) eqn:He; try discriminate.
  rewrite Z.compare_eq_iff in He. subst E2.
  change (Pos.compare_cont Eq m1 m2) with (m1 ?= m2)%positive.
  destruct (m1 ?= m2)%positive eqn:Hm; try discriminate.
  rewrite Pos.compare_eq_iff in Hm. subst m2. reflexivity.
Qed.

Lemma rounded_ext (s : bool) (N1 D1 e1 N2 D2 e2 c : Z) :
  0 <= N1 -> 0 < D1 -> 0 <= N2 -> 0 < D2 ->
  e1 <= fexp prec emax (Zdigits2 (N1 / D1) + e1) ->
  e2 <= fexp prec emax (Zdigits2 (N2 / D2) + e2) ->
  c <= e1 -> c <= e2 ->
  N1 * 2 ^ (e1 - c) * D2 = N2 * 2 ^ (e2 - c) * D1 ->
  rounded s N1 D1 e1 = rounded s N2 D2 e2.
Proof.
  intros HN1 HD1 HN2 HD2 Het1 Het2 Hc1 Hc2 Heq.
  assert (Hfalse : rounded false N1 D1 e1 = rounded false N2 D2 e2).
  { pose proof (rounded_mono N1 D1 e1 N2 D2 e2 c HN1 HD1 HN2 HD2
                  Het1 Het2 Hc1 Hc2 ltac:(lia)) as H12.
    pose proof (rounded_mono N2 D2 e2 N1 D1 e1 c HN2 HD2 HN1 HD1
                  Het2 Het1 Hc2 Hc1 ltac:(lia)) as H21.
    pose proof (SFleb_antisym _ _ H12 H21) as Hc.
    destruct (nearest_scaled_bounds N1 D1 e1 HN1 HD1 Het1) as [HM1 _].
    destruct (nearest_scaled_bounds N2 D2 e2 HN2 HD2 Het2) as [HM2 _].
    unfold rounded in *.
    destruct (nearest N1 _ <? 2 ^ 53), (nearest N2 _ <? 2 ^ 53);
      apply pack_compare_Eq; try exact Hc; lia. }
  destruct s; [ | exact Hfalse].
  rewrite !rounded_opp, Hfalse. reflexivity.
Qed.

Theorem Rounds_unique (c A D : Z) (f1 f2 : spec_float) :
  Rounds c A D f1 -> Rounds c A D f2 -> A <> 0 -> f1 = f2.
Proof.
  intros [HD H1] [_ H2] HA.
  destruct H1 as [[-> _] | (s1 & N1 & e1 & HN1 & Hc1 & Het1 & E1 & ->)];
    [lia | ].
  destruct H2 as [[-> _] | (s2 & N2 & e2 & HN2 & Hc2 & Het2 & E2 & ->)];
    [lia | ].
  pose proof (pow2_pos (e1 - c) ltac:(lia)).
  pose proof (pow2_pos (e2 - c) ltac:(lia)).
  assert (Hs : s1 = s2).
  { destruct s1, s2; cbn [cond_Zopp] in E1, E2; try reflexivity; nia. }
  subst s2.
  apply (rounded_ext s1 N1 D e1 N2 D e2 c); try lia.
  destruct s1; cbn [cond_Zopp] in E1, E2; nia.
Qed.

(** ** Remainders *)

Lemma SFrem_Rounds (n : spec_float) (sd : bool) (md : positive) (ed : Z) :
  valid_binary n = true -> valid_binary (S754_finite sd md ed) = true ->
  SFfinite n ->
  Rounds (-1074) (Z.rem (scaled n) (Z.pos md * 2 ^ (ed + 1074))) 1
    (Number.SFrem n (S754_finite sd md ed)).
Proof.
  intros Vn Vd Fn.
  destruct n as [sn | sn | | sn mn en]; try contradiction.
  - split; [lia | left]. split; [ | eexists; reflexivity].
    cbn [scaled]. apply Z.rem_0_l.
    pose proof (pow2_pos (ed + 1074)). destruct (valid_digits _ _ _ Vd).
    nia.
  - destruct (valid_digits sn mn en Vn) as (_ & _ & Hen).
    destruct (valid_digits sd md ed Vd) as (_ & _ & Hed).
    cbn [Number.SFrem].
    set (e := Z.min en ed).
    pose proof (binary_normalize_Rounds
                  (cond_Zopp sn (Z.rem (Z.pos mn * 2 ^ (en - e))
                                       (Z.pos md * 2 ^ (ed - e))))
                  e (-1074) sn ltac:(lia) ltac:(lia)) as HR.
    replace (Z.rem (scaled (S754_finite sn mn en))
                   (Z.pos md * 2 ^ (ed + 1074)))
      with (cond_Zopp sn (Z.rem (Z.pos mn * 2 ^ (en - e))
                                (Z.pos md * 2 ^ (ed - e)))
            * 2 ^ (e - -1074)); [exact HR | ].
    pose proof (pow2_pos (e - -1074) ltac:(lia)) as HP.
    pose proof (pow2_pos (ed - e) ltac:(lia)) as HPd.
    rewrite cond_Zopp_mul_r.
    rewrite <- Z.mul_rem_distr_r by lia.
    rewrite <- !Z.mul_assoc, !pow2_shift by lia.
    cbn [scaled].
    change (en - -1074) with (en + 1074).
    change (ed - -1074) with (ed + 1074).
    destruct sn; cbn [cond_Zopp]; [ | reflexivity].
    symmetry. apply Z.rem_opp_l'.
Qed.

End RoundingFacts.

(** * The order of numbers

    The comparisons of finite numbers are the comparisons of their
    exact values, and an operation takes an interval of finite numbers
    into the interval of the results at its ends. *)

Module OrderFacts.

#[local] Open Scope float_scope.
Import FloatKinds FloatFacts ScalingFacts Rounding RoundingFacts.
Import Number Interval.

Lemma leb_value (a b : float) :
  finite a -> finite b -> (a <=? b) = true <-> (value a <= value b)%Z.
Proof.
  intros Fa Fb. rewrite leb_spec.
  apply SFleb_scaled; try apply Prim2SF_valid; assumption.
Qed.

Lemma ltb_value (a b : float) :
  finite a -> finite b -> (a <? b) = true <-> (value a < value b)%Z.
Proof.
  intros Fa Fb. rewrite ltb_spec.
  apply SFltb_scaled; try apply Prim2SF_valid; assumption.
Qed.

Lemma eqb_value (a b : float) :
  finite a -> finite b -> (a =? b) = true <-> value a = value b.
Proof.
  intros Fa Fb. rewrite eqb_spec.
  apply SFeqb_scaled; try apply Prim2SF_valid; assumption.
Qed.

Lemma within_finite (lo hi x : float) :
  finite lo -> finite hi -> within lo hi x -> finite x.
Proof.
  intros Flo Fhi [H1 H2]. rewrite leb_spec in H1, H2.
  exact (SFfinite_between _ _ _ Flo Fhi H1 H2).
Qed.

Lemma within_values (lo hi x : float) :
  finite lo -> finite hi -> within lo hi x ->
  finite x /\ (value lo <= value x <= value hi)%Z.
Proof.
  intros Flo Fhi Hw.
  pose proof (within_finite lo hi x Flo Fhi Hw) as Fx.
  destruct Hw as [H1 H2].
  apply leb_value in H1; try assumption.
  apply leb_value in H2; try assumption.
  split; [exact Fx | lia].
Qed.

Lemma values_within (lo hi x : float) :
  finite lo -> finite hi -> finite x ->
  (value lo <= value x <= value hi)%Z -> within lo hi x.
Proof.
  intros Flo Fhi Fx Hv. split; apply leb_value; try assumption; lia.
Qed.

(** Two numbers in a row between two finite ones are finite. *)
Lemma chain_finite (lo a b hi : float) :
  finite lo -> finite hi ->
  (lo <=? a) = true -> (a <=? b) = true -> (b <=? hi) = true ->
  finite a /\ finite b.
Proof.
  intros Flo Fhi H1 H2 H3. rewrite leb_spec in H1, H2, H3.
  unfold finite in *.
  destruct (Prim2SF lo) as [sl | sl | | sl ml el]; try contradiction;
    destruct (Prim2SF hi) as [sh | sh | | sh mh eh]; try contradiction;
    destruct (Prim2SF a) as [sa | [ | ] | | sa ma ea];
    destruct (Prim2SF b) as [sb | [ | ] | | sb mb eb];
    cbn [SFfinite]; try (split; exact I);
    unfold SFleb in *; cbn [SFcompare] in *; try discriminate;
    repeat match goal with
           | s : bool |- _ => destruct s
           end;
    discriminate.
Qed.

(** A wider interval. *)
Lemma within_weaken (lo hi lo' hi' x : float) :
  finite lo -> finite hi -> finite lo' -> finite hi' ->
  (lo' <=? lo) = true -> (hi <=? hi') = true ->
  within lo hi x -> within lo' hi' x.
Proof.
  intros Flo Fhi Flo' Fhi' H1 H2 Hw.
  destruct (within_values lo hi x Flo Fhi Hw) as [Fx Hv].
  apply leb_value in H1; try assumption.
  apply leb_value in H2; try assumption.
  apply values_within; try assumption. lia.
Qed.

(** The order of the results of one operation on two pairs of finite
    numbers follows the order of the exact results. *)
Section Monotone.

Variables (op : float -> float -> float)
          (SFop : spec_float -> spec_float -> spec_float)
          (c : Z) (exact : Z -> Z -> Z).

Hypothesis op_spec :
  forall x y, Prim2SF (op x y) = SFop (Prim2SF x) (Prim2SF y).

Hypothesis SFop_Rounds :
  forall a b,
    valid_binary a = true -> valid_binary b = true ->
    SFfinite a -> SFfinite b ->
    Rounds c (exact (scaled a) (scaled b)) 1 (SFop a b).

Lemma op_le (x y x' y' : float) :
  finite x -> finite y -> finite x' -> finite y' ->
  (exact (value x) (value y) <= exact (value x') (value y'))%Z ->
  (op x y <=? op x' y') = true.
Proof.
  intros Fx Fy Fx' Fy' Hle. rewrite leb_spec, !op_spec.
  apply (Rounds_mono c (exact (value x) (value y)) 1
           (exact (value x') (value y')) 1);
    try (apply SFop_Rounds; try apply Prim2SF_valid; assumption).
  lia.
Qed.

End Monotone.

Lemma add_le (x y x' y' : float) :
  finite x -> finite y -> finite x' -> finite y' ->
  (value x + value y <= value x' + value y')%Z ->
  (x + y <=? x' + y') = true.
Proof. exact (op_le add _ _ Z.add add_spec SFadd_Rounds x y x' y'). Qed.

Lemma sub_le (x y x' y' : float) :
  finite x -> finite y -> finite x' -> finite y' ->
  (value x - value y <= value x' - value y')%Z ->
  (x - y <=? x' - y') = true.
Proof. exact (op_le sub _ _ Z.sub sub_spec SFsub_Rounds x y x' y'). Qed.

Lemma mul_le (x y x' y' : float) :
  finite x -> finite y -> finite x' -> finite y' ->
  (value x * value y <= value x' * value y')%Z ->
  (x * y <=? x' * y') = true.
Proof. exact (op_le mul _ _ Z.mul mul_spec SFmul_Rounds x y x' y'). Qed.

(** A finite number below the exact sum, or difference, is not above
    the rounded one. *)
Lemma add_ge (x a b : float) :
  finite x -> finite a -> finite b ->
  (value x <= value a + value b)%Z -> (x <=? a + b) = true.
Proof.
  intros Fx Fa Fb Hle. rewrite leb_spec, add_spec.
  apply (Rounds_mono (-1074) (value x) 1 (value a + value b) 1);
    [ | | lia].
  - apply valid_Rounds; [apply Prim2SF_valid | exact Fx].
  - apply SFadd_Rounds; try apply Prim2SF_valid; assumption.
Qed.

Lemma sub_ge (x a b : float) :
  finite x -> finite a -> finite b ->
  (value x <= value a - value b)%Z -> (x <=? a - b) = true.
Proof.
  intros Fx Fa Fb Hle. rewrite leb_spec, sub_spec.
  apply (Rounds_mono (-1074) (value x) 1 (value a - value b) 1);
    [ | | lia].
  - apply valid_Rounds; [apply Prim2SF_valid | exact Fx].
  - apply SFsub_Rounds; try apply Prim2SF_valid; assumption.
Qed.

(** An exact sum, or difference, below a finite number is rounded to
    a number that is not above it. *)
Lemma add_le_value (a b x : float) :
  finite a -> finite b -> finite x ->
  (value a + value b <= value x)%Z -> (a + b <=? x) = true.
Proof.
  intros Fa Fb Fx Hle. rewrite leb_spec, add_spec.
  apply (Rounds_mono (-1074) (value a + value b) 1 (value x) 1);
    [ | | lia].
  - apply SFadd_Rounds; try apply Prim2SF_valid; assumption.
  - apply valid_Rounds; [apply Prim2SF_valid | exact Fx].
Qed.

Lemma sub_le_value (a b x : float) :
  finite a -> finite b -> finite x ->
  (value a - value b <= value x)%Z -> (a - b <=? x) = true.
Proof.
  intros Fa Fb Fx Hle. rewrite leb_spec, sub_spec.
  apply (Rounds_mono (-1074) (value a - value b) 1 (value x) 1);
    [ | | lia].
  - apply SFsub_Rounds; try apply Prim2SF_valid; assumption.
  - apply valid_Rounds; [apply Prim2SF_valid | exact Fx].
Qed.

(** The product by -1 is the opposite. *)
Lemma mul_minus_one (r : float) : finite r -> r * -1 = - r.
Proof.
  intros Fr. apply Prim2SF_inj. rewrite mul_spec, opp_spec.
  pose proof (Prim2SF_valid r) as Vr.
  change (Prim2SF (-1)) with (S754_finite true 4503599627370496 (-52)).
  unfold finite in Fr.
  destruct (Prim2SF r) as [s | s | | s m e] eqn:Hr; try contradiction.
  - destruct s; reflexivity.
  - pose proof (SFmul_Rounds (S754_finite s m e)
                  (S754_finite true 4503599627370496 (-52)) Vr eq_refl I I)
      as Hproduct.
    assert (Vo : valid_binary (S754_finite (negb s) m e) = true) by exact Vr.
    pose proof (valid_Rounds_at (-2148) (S754_finite (negb s) m e)
                  ltac:(lia) Vo I) as Hopp.
    assert (Heq : (scaled (S754_finite s m e)
                   * scaled (S754_finite true 4503599627370496 (-52)))%Z
                  = (scaled (S754_finite (negb s) m e)
                     * 2 ^ (-1074 - -2148))%Z).
    { cbn [scaled].
      change (cond_Zopp true (4503599627370496 * 2 ^ (-52 + 1074)))%Z
        with (- 2 ^ (-1074 - -2148))%Z.
      destruct s; cbn [negb cond_Zopp]; ring. }
    rewrite Heq in Hproduct.
    apply (Rounds_unique _ _ _ _ _ Hproduct Hopp).
    destruct (valid_digits _ _ _ Vr) as (_ & _ & He).
    pose proof (pow2_pos (e + 1074) ltac:(lia)).
    cbn [scaled]. destruct s; cbn [negb cond_Zopp]; nia.
Qed.

Lemma opp_value (r : float) :
  finite r -> finite (- r) /\ value (- r) = (- value r)%Z.
Proof.
  unfold finite, value. rewrite opp_spec.
  destruct (Prim2SF r) as [s | s | | s m e]; try contradiction; intros _;
    cbn [SFopp SFfinite scaled]; (split; [exact I | ]); try reflexivity.
  destruct s; cbn [negb cond_Zopp]; lia.
Qed.

(** A positive finite number. *)
Lemma positive_finite (c : float) :
  finite c -> (0 <? c) = true ->
  exists m e, Prim2SF c = S754_finite false m e.
Proof.
  unfold finite. rewrite ltb_spec.
  change (Prim2SF 0) with (S754_zero false).
  destruct (Prim2SF c) as [s | s | | [ | ] m e]; cbn;
    try contradiction; try discriminate.
  intros _ _. eexists; eexists; reflexivity.
Qed.

Lemma div_le (x x' c : float) :
  finite x -> finite x' -> finite c -> (0 <? c) = true ->
  (value x <= value x')%Z ->
  (x / c <=? x' / c) = true.
Proof.
  intros Fx Fx' Fc Hc Hle.
  destruct (positive_finite c Fc Hc) as (m & e & Hm).
  pose proof (Prim2SF_valid c) as Vc. rewrite Hm in Vc.
  rewrite leb_spec, !div_spec, Hm.
  apply (Rounds_mono (-2045) (value x * 2 ^ (971 - e)) (Z.pos m)
           (value x' * 2 ^ (971 - e)) (Z.pos m));
    try (apply SFdiv_Rounds; try apply Prim2SF_valid; assumption).
  destruct (valid_digits false m e Vc) as (_ & _ & He).
  pose proof (pow2_pos (971 - e) ltac:(lia)).
  apply Z.mul_le_mono_nonneg_r; [lia | ].
  apply Z.mul_le_mono_nonneg_r; [lia | exact Hle].
Qed.

(** ** Intervals through the operations *)

Lemma within_add_r (lo hi x c : float) :
  finite lo -> finite hi -> finite c ->
  within lo hi x -> within (lo + c) (hi + c) (x + c).
Proof.
  intros Flo Fhi Fc Hw.
  destruct (within_values lo hi x Flo Fhi Hw) as [Fx Hv].
  split; apply add_le; try assumption; lia.
Qed.

Lemma within_add_l (lo hi x c : float) :
  finite lo -> finite hi -> finite c ->
  within lo hi x -> within (c + lo) (c + hi) (c + x).
Proof.
  intros Flo Fhi Fc Hw.
  destruct (within_values lo hi x Flo Fhi Hw) as [Fx Hv].
  split; apply add_le; try assumption; lia.
Qed.

Lemma within_sub_l (lo hi x c : float) :
  finite lo -> finite hi -> finite c ->
  within lo hi x -> within (c - hi) (c - lo) (c - x).
Proof.
  intros Flo Fhi Fc Hw.
  destruct (within_values lo hi x Flo Fhi Hw) as [Fx Hv].
  split; apply sub_le; try assumption; lia.
Qed.

Lemma within_sub_r (lo hi x c : float) :
  finite lo -> finite hi -> finite c ->
  within lo hi x -> within (lo - c) (hi - c) (x - c).
Proof.
  intros Flo Fhi Fc Hw.
  destruct (within_values lo hi x Flo Fhi Hw) as [Fx Hv].
  split; apply sub_le; try assumption; lia.
Qed.

Lemma within_mul_r (lo hi x c : float) :
  finite lo -> finite hi -> finite c -> (0 <=? c) = true ->
  within lo hi x -> within (lo * c) (hi * c) (x * c).
Proof.
  intros Flo Fhi Fc Hc Hw.
  destruct (within_values lo hi x Flo Fhi Hw) as [Fx Hv].
  apply leb_value in Hc; [ | exact I | exact Fc].
  change (value 0) with 0%Z in Hc.
  split; apply mul_le; try assumption; nia.
Qed.

Lemma within_div_r (lo hi x c : float) :
  finite lo -> finite hi -> finite c -> (0 <? c) = true ->
  within lo hi x -> within (lo / c) (hi / c) (x / c).
Proof.
  intros Flo Fhi Fc Hc Hw.
  destruct (within_values lo hi x Flo Fhi Hw) as [Fx Hv].
  split; apply div_le; try assumption; lia.
Qed.


(** ** The remainder *)

Lemma rem_Rounds (x d : float) :
  finite x -> finite d -> (0 <? d) = true ->
  Prim2SF (x %% d) = SFrem (Prim2SF x) (Prim2SF d)
  /\ Rounds (-1074) (Z.rem (value x) (value d)) 1 (Prim2SF (x %% d)).
Proof.
  intros Fx Fd Hd.
  destruct (positive_finite d Fd Hd) as (m & e & Hm).
  pose proof (Prim2SF_valid d) as Vd. rewrite Hm in Vd.
  pose proof (SFrem_Rounds (Prim2SF x) false m e (Prim2SF_valid x) Vd Fx)
    as HR.
  assert (Hspec : Prim2SF (x %% d) = SFrem (Prim2SF x) (Prim2SF d)).
  { unfold rem. rewrite Hm. apply Prim2SF_SF2Prim.
    exact (Rounds_valid _ _ _ _ HR). }
  split; [exact Hspec | ].
  rewrite Hspec, Hm. unfold value at 2. rewrite Hm. exact HR.
Qed.

Lemma within_rem (x d : float) :
  finite x -> (0 <=? x) = true -> finite d -> (0 <? d) = true ->
  within 0 d (x %% d).
Proof.
  intros Fx Hx Fd Hd.
  destruct (rem_Rounds x d Fx Fd Hd) as [_ HR].
  apply leb_value in Hx; [ | exact I | exact Fx].
  apply ltb_value in Hd; [ | exact I | exact Fd].
  change (value 0) with 0%Z in Hx, Hd.
  pose proof (Z.rem_bound_pos (value x) (value d) Hx Hd) as Hb.
  split; rewrite leb_spec.
  - apply (Rounds_mono (-1074) 0 1 (Z.rem (value x) (value d)) 1);
      [ | exact HR | lia].
    exact (valid_Rounds (Prim2SF 0) eq_refl I).
  - apply (Rounds_mono (-1074) (Z.rem (value x) (value d)) 1 (value d) 1);
      [exact HR | | lia].
    apply valid_Rounds; [apply Prim2SF_valid | exact Fd].
Qed.

(** ** Strict and weak comparisons *)

Lemma ltb_leb (a b : float) : (a <? b) = true -> (a <=? b) = true.
Proof.
  rewrite ltb_spec, leb_spec. unfold SFltb, SFleb.
  destruct (SFcompare _ _) as [[ | | ] | ]; congruence.
Qed.

Lemma leb_not_ltb (a b : float) : (a <=? b) = true -> (b <? a) = false.
Proof.
  rewrite ltb_spec, leb_spec. unfold SFltb, SFleb.
  rewrite (SFcompare_swap (Prim2SF a) (Prim2SF b)).
  destruct (SFcompare _ _) as [[ | | ] | ]; cbn; congruence.
Qed.

Lemma not_ltb_leb (a b : float) :
  finite a -> finite b -> (a <? b) = false -> (b <=? a) = true.
Proof.
  intros Fa Fb H.
  apply leb_value; try assumption.
  destruct (Z_le_gt_dec (value b) (value a)) as [Hle | Hgt];
    [exact Hle | exfalso].
  assert (Hlt : (a <? b) = true) by (apply ltb_value; try assumption; lia).
  congruence.
Qed.

(** The difference of a finite number and a smaller one, when it is
    finite, is positive. *)
Lemma sub_positive (x y : float) :
  finite x -> finite y -> finite (x - y) -> (y <? x) = true ->
  (0 <? x - y) = true.
Proof.
  intros Fx Fy Fd Hlt.
  apply ltb_value in Hlt; try assumption.
  assert (Hge : (0 <=? x - y) = true)
    by (apply sub_ge; try assumption; [exact I | change (value 0) with 0%Z; lia]).
  assert (Hne : SFeqb (Prim2SF x) (Prim2SF y) = false).
  { destruct (SFeqb (Prim2SF x) (Prim2SF y)) eqn:Heq; [ | reflexivity].
    apply SFeqb_scaled in Heq; try apply Prim2SF_valid; try assumption.
    unfold value in Hlt. lia. }
  pose proof (SFsub_nonzero _ _ (Prim2SF_valid x) (Prim2SF_valid y)
                Fx Fy Hne) as Hnz.
  rewrite <- sub_spec in Hnz.
  rewrite leb_spec in Hge. rewrite ltb_spec.
  change (Prim2SF 0) with (S754_zero false) in *.
  unfold finite in Fd.
  destruct (Prim2SF (x - y)) as [s | s | | [ | ] m e];
    try contradiction; try discriminate; reflexivity.
Qed.

(** The quotient of a zero by a positive finite number is a zero, and
    so is the product of a zero and a finite number. *)
Lemma div_zero_l (c : float) :
  finite c -> (0 <? c) = true -> Prim2SF (0 / c) = S754_zero false.
Proof.
  intros Fc Hc. destruct (positive_finite c Fc Hc) as (m & e & Hm).
  rewrite div_spec, Hm. reflexivity.
Qed.

Lemma mul_zero_l (z c : float) (s : bool) :
  Prim2SF z = S754_zero s -> finite c ->
  exists s', Prim2SF (z * c) = S754_zero s'.
Proof.
  intros Hz Fc. rewrite mul_spec, Hz. apply SFmul_zero_l, Fc.
Qed.

End OrderFacts.


(** * The remainder operator on some numbers *)

Module RemainderFacts.

#[local] Open Scope float_scope.

(** The result has the sign of the dividend, also when it is a zero;
    a fraction has a remainder; dividing by a zero or dividing an
    infinity gives NaN, and dividing by an infinity gives the dividend. *)
Lemma rem_examples :
  370 %% 360 = 10
  /\ -90 %% 360 = -90
  /\ 270 %% 360 = 270
  /\ 360 %% 360 = 0
  /\ -360 %% 360 = -0
  /\ 5.5 %% 2.5 = 0.5
  /\ 1 %% 0 = nan
  /\ infinity %% 360 = nan
  /\ 1 %% infinity = 1.
Proof. vm_compute. repeat split. Qed.

End RemainderFacts.

(** * The value/angle mapping *)

Module MappingFacts.

#[local] Open Scope float_scope.
Import Number circularGeometry FloatFacts.

(** The examples of the repository's tests. *)
Lemma mapping_examples :
  let value_of a :=
    angleToValue {| atv_angle := a; atv_minValue := 0; atv_maxValue := 100;
                    atv_startAngle := 20; atv_endAngle := 100 |} in
  let angle_of v :=
    valueToAngle {| vta_value := v; vta_minValue := 0; vta_maxValue := 100;
                    vta_startAngle := 30; vta_endAngle := 90 |} in
  value_of 10 = Ok 0 /\ value_of 120 = Ok 100 /\ value_of 60 = Ok 50
  /\ angle_of 0 = Ok 30 /\ angle_of 100 = Ok 90 /\ angle_of 50 = Ok 60
  /\ angleToValue {| atv_angle := 50; atv_minValue := 0;
                     atv_maxValue := 100; atv_startAngle := 100;
                     atv_endAngle := 100 |} = Throw InvalidRange
  /\ valueToAngle {| vta_value := 50; vta_minValue := 0;
                     vta_maxValue := 100; vta_startAngle := 90;
                     vta_endAngle := 30 |} = Throw InvalidRange.
Proof. vm_compute. repeat split. Qed.

(** C1.  When [endAngle > startAngle], [angleToValue] returns
    [minValue] itself for [angle < startAngle], [maxValue] itself for
    [angle > endAngle], and otherwise the linear interpolation
    [minValue + (angle - startAngle) / (endAngle - startAngle)
     * (maxValue - minValue)]; nothing is assumed of the order of
    [minValue] and [maxValue] and the result is not clamped. *)
Theorem angleToValue_clamps_then_interpolates
    (angle minValue maxValue startAngle endAngle : float) :
  (endAngle >? startAngle) = true ->
  angleToValue {| atv_angle := angle; atv_minValue := minValue;
                  atv_maxValue := maxValue; atv_startAngle := startAngle;
                  atv_endAngle := endAngle |}
  = Ok (if angle <? startAngle then minValue
        else if angle >? endAngle then maxValue
        else minValue
             + (angle - startAngle) / (endAngle - startAngle)
               * (maxValue - minValue)).
Proof.
  intros Hrange. unfold gtb in Hrange.
  unfold angleToValue; cbn [atv_angle atv_minValue atv_maxValue
                              atv_startAngle atv_endAngle].
  rewrite (ltb_leb_false _ _ Hrange).
  destruct (angle <? startAngle); [reflexivity | ].
  destruct (angle >? endAngle); [reflexivity | ].
  f_equal. apply add_comm.
Qed.

(** The interpolation on an inverted scale ([maxValue < minValue]):
    a quarter of the way from 100 down to 0. *)
Lemma angleToValue_clamps_then_interpolates_witness :
  angleToValue {| atv_angle := 40; atv_minValue := 100;
                  atv_maxValue := 0; atv_startAngle := 20;
                  atv_endAngle := 100 |}
  = Ok 75.
Proof.
  exact (angleToValue_clamps_then_interpolates 40 100 0 20 100 eq_refl).
Defined.

(** C2.  [angleToValue] and [valueToAngle] throw the range error
    exactly when [endAngle <= startAngle], equal end points included;
    a call that throws returns no value, and every other call returns
    one. *)
Theorem mappings_throw_iff_range_invalid
    (p : AngleToValueParams) (q : ValueToAngleParams) :
  (angleToValue p = Throw InvalidRange
     <-> (atv_endAngle p <=? atv_startAngle p) = true)
  /\ (valueToAngle q = Throw InvalidRange
     <-> (vta_endAngle q <=? vta_startAngle q) = true)
  /\ ((exists v, angleToValue p = Ok v)
     <-> (atv_endAngle p <=? atv_startAngle p) = false)
  /\ ((exists a, valueToAngle q = Ok a)
     <-> (vta_endAngle q <=? vta_startAngle q) = false)
  /\ ((atv_endAngle p =? atv_startAngle p) = true
     -> angleToValue p = Throw InvalidRange)
  /\ ((vta_endAngle q =? vta_startAngle q) = true
     -> valueToAngle q = Throw InvalidRange).
Proof.
  unfold angleToValue, valueToAngle.
  repeat split.
  - destruct (atv_endAngle p <=? atv_startAngle p); [reflexivity | ].
    destruct (atv_angle p <? atv_startAngle p); [discriminate | ].
    destruct (atv_angle p >? atv_endAngle p); discriminate.
  - intros ->. reflexivity.
  - destruct (vta_endAngle q <=? vta_startAngle q);
      [reflexivity | discriminate].
  - intros ->. reflexivity.
  - intros [v Hv].
    destruct (atv_endAngle p <=? atv_startAngle p);
      [discriminate | reflexivity].
  - intros ->.
    destruct (atv_angle p <? atv_startAngle p); [eexists; reflexivity | ].
    destruct (atv_angle p >? atv_endAngle p); eexists; reflexivity.
  - intros [a Ha].
    destruct (vta_endAngle q <=? vta_startAngle q);
      [discriminate | reflexivity].
  - intros ->. eexists; reflexivity.
  - intros Heq. rewrite (eqb_leb _ _ Heq). reflexivity.
  - intros Heq. rewrite (eqb_leb _ _ Heq). reflexivity.
Qed.

(** C3, as stated, fails at the upper end: a slider from 16.1 to 90.3
    degrees over the values 0 to 100 puts the value 100 at
    [1 * (90.3 - 16.1) + 16.1], which is 90.29999999999998, not 90.3. *)
Lemma valueToAngle_of_maxValue_misses_endAngle :
  ~ (forall minValue maxValue startAngle endAngle : float,
       (endAngle >? startAngle) = true ->
       (maxValue <>? minValue) = true ->
       exists a,
         valueToAngle {| vta_value := maxValue; vta_minValue := minValue;
                         vta_maxValue := maxValue;
                         vta_startAngle := startAngle;
                         vta_endAngle := endAngle |} = Ok a
         /\ (a =? endAngle) = true).
Proof.
  intros Hclaim.
  destruct (Hclaim 0 100 16.1 90.3 eq_refl eq_refl) as (a & Ha & Hend).
  vm_compute in Ha. injection Ha as <-.
  vm_compute in Hend. discriminate Hend.
Qed.

(** C3, amended.  When [endAngle > startAngle], [valueToAngle] returns
    [startAngle + (value - minValue) / (maxValue - minValue)
     * (endAngle - startAngle)] as binary64 arithmetic computes it, for
    every [value], inside the range of values or not.  When moreover
    [maxValue] differs from [minValue] and neither
    [maxValue - minValue] nor [endAngle - startAngle] overflows, the
    angle of [minValue] is [startAngle], and the angle of [maxValue] is
    [(endAngle - startAngle) + startAngle], which is [endAngle] up to
    the rounding of that difference and that sum. *)
Theorem valueToAngle_interpolates_without_clamping
    (value minValue maxValue startAngle endAngle : float) :
  (endAngle >? startAngle) = true ->
  let angle_of v :=
    valueToAngle {| vta_value := v; vta_minValue := minValue;
                    vta_maxValue := maxValue; vta_startAngle := startAngle;
                    vta_endAngle := endAngle |} in
  angle_of value
  = Ok (startAngle
        + (value - minValue) / (maxValue - minValue)
          * (endAngle - startAngle))
  /\ ((maxValue <>? minValue) = true ->
      is_finite (maxValue - minValue) = true ->
      is_finite (endAngle - startAngle) = true ->
      (exists a, angle_of minValue = Ok a /\ (a =? startAngle) = true)
      /\ angle_of maxValue = Ok (endAngle - startAngle + startAngle)).
Proof.
  intros Hrange angle_of. unfold gtb in Hrange.
  assert (Hcompute : forall v,
             angle_of v
             = Ok ((v - minValue) / (maxValue - minValue)
                   * (endAngle - startAngle) + startAngle)).
  { intros v. unfold angle_of, valueToAngle.
    cbn [vta_value vta_minValue vta_maxValue vta_startAngle vta_endAngle].
    rewrite (ltb_leb_false _ _ Hrange). reflexivity. }
  split.
  - rewrite Hcompute. f_equal. apply add_comm.
  - intros Hdiffer Hvalues Hangles.
    destruct (sub_finite_nonzero _ _ Hvalues Hdiffer) as [Hfin Hnonzero].
    destruct (sub_finite_inv _ _ Hvalues) as [_ Hmin].
    destruct (sub_finite_inv _ _ Hangles) as [_ Hstart].
    split.
    + eexists. split; [apply Hcompute | ].
      rewrite (sub_diag _ Hmin).
      apply zero_ratio_scaled;
        [exact Hnonzero | apply is_finite_SFfinite, Hangles | exact Hstart].
    + rewrite Hcompute, (div_diag _ Hfin Hnonzero), mul_1_l. reflexivity.
Qed.

(** On the values 0 to 100 over the angles 30 to 90: the value 150 lies
    outside the values and its angle, 120, outside the angles; 0 is at
    30 and 100 at 90. *)
Lemma valueToAngle_interpolates_without_clamping_witness :
  let angle_of v :=
    valueToAngle {| vta_value := v; vta_minValue := 0;
                    vta_maxValue := 100; vta_startAngle := 30;
                    vta_endAngle := 90 |} in
  angle_of 150 = Ok 120
  /\ (exists a, angle_of 0 = Ok a /\ (a =? 30) = true)
  /\ angle_of 100 = Ok 90.
Proof.
  destruct (valueToAngle_interpolates_without_clamping 150 0 100 30 90 eq_refl)
    as [Hformula Hends].
  destruct (Hends eq_refl eq_refl eq_refl) as [Hmin Hmax].
  split; [exact Hformula | split; [exact Hmin | exact Hmax]].
Defined.

End MappingFacts.

(** * The conversion between angle descriptions *)

Module ConversionFacts.

#[local] Open Scope float_scope.
Import Number circularGeometry Spec.
Import FloatKinds ScalingFacts Rounding RoundingFacts Interval OrderFacts.

(** The string dispatch of the source takes the branches of the four
    steps; the reduction is the source's [% 360]. *)
Lemma convertAngle_dispatch
    (degree : float) (from to : AngleDescription) :
  convertAngle degree from (Some to)
  = convertAngle_steps (fun x => x %% 360) degree from to
  /\ convertAngle degree from None
     = convertAngle_steps (fun x => x %% 360) degree from ccw_pos_x.
Proof.
  destruct from as [[ | ] [ | | | ]], to as [[ | ] [ | | | ]];
    split; reflexivity.
Qed.

(** [x % 360] is, for every number [x], the remainder of the exact
    division truncated toward zero: NaN for NaN and the infinities, and
    else the number of [x - 360 * trunc (x / 360)], which needs no
    rounding. *)
Lemma rem_360_truncated (x : float) : x %% 360 = truncated x.
Proof.
  unfold rem, truncated.
  change (Prim2SF 360) with (S754_finite false 6333186975989760 (-44)).
  pose proof (Prim2SF_valid x) as Vx.
  destruct (Prim2SF x) as [s | s | | s m e] eqn:Hx; try reflexivity.
  unfold of_scaled. f_equal.
  pose proof (SFrem_Rounds (S754_finite s m e) false 6333186975989760 (-44)
                Vx eq_refl I) as HR.
  change (Z.pos 6333186975989760 * 2 ^ (-44 + 1074))%Z with turn in HR.
  set (v := scaled (S754_finite s m e)) in *.
  assert (Hturn : turn <> 0%Z) by (unfold turn; lia).
  rewrite <- (Z.rem_eq v turn Hturn).
  pose proof (binary_normalize_Rounds (Z.rem v turn) (-1074) (-1074) s
                ltac:(lia) ltac:(lia)) as HS.
  rewrite Z.sub_diag, Z.pow_0_r, Z.mul_1_r in HS.
  destruct (Z.eq_dec (Z.rem v turn) 0) as [Hz | Hnz].
  - rewrite Hz. cbn [binary_normalize SFrem].
    set (e0 := Z.min e (-44)).
    assert (Hr : Z.rem (Z.pos m * 2 ^ (e - e0))
                       (6333186975989760 * 2 ^ (-44 - e0)) = 0%Z).
    { destruct (valid_digits s m e Vx) as (_ & _ & He).
      pose proof (pow2_pos (e0 - -1074) ltac:(lia)) as HP.
      pose proof (pow2_pos (-44 - e0) ltac:(lia)) as HPd.
      assert (Hs : (Z.rem (Z.pos m * 2 ^ (e - e0))
                          (6333186975989760 * 2 ^ (-44 - e0))
                    * 2 ^ (e0 - -1074))%Z = Z.abs (Z.rem v turn)).
      { rewrite <- Z.mul_rem_distr_r by lia.
        rewrite <- !Z.mul_assoc, !pow2_shift by lia.
        unfold v. cbn [scaled].
        change (e - -1074)%Z with (e + 1074)%Z.
        change (6333186975989760 * 2 ^ (-44 - -1074))%Z with turn.
        destruct s; cbn [cond_Zopp].
        - rewrite Z.rem_opp_l', Z.abs_opp. symmetry. apply Z.abs_eq.
          apply Z.rem_nonneg; lia.
        - symmetry. apply Z.abs_eq. apply Z.rem_nonneg; lia. }
      rewrite Hz in Hs. change (Z.abs 0) with 0%Z in Hs.
      apply Z.eq_mul_0 in Hs. destruct Hs as [H | H]; [exact H | lia]. }
    rewrite Hr. destruct s; reflexivity.
  - exact (Rounds_unique _ _ _ _ _ HR HS Hnz).
Qed.

(** For a positive number the truncated quotient is the floor: the
    remainder is the reduction into the turn from 0 to 360. *)
Lemma truncated_normalized (x : float) :
  finite x -> (0 <? x) = true -> truncated x = normalized x.
Proof.
  intros Fx Hx.
  destruct (positive_finite x Fx Hx) as (m & e & Hm).
  apply ltb_value in Hx; [ | exact I | exact Fx].
  change (value 0) with 0%Z in Hx. unfold value in Hx.
  unfold truncated, normalized. rewrite Hm in *.
  rewrite Z.quot_div_nonneg by (unfold turn; lia).
  reflexivity.
Qed.

(** ** Degrees from 0 to 360 *)

Lemma flip_within (d : float) :
  within 0 360 d -> within 0 360 (flip d).
Proof.
  intros Hw. unfold flip.
  destruct (d =? 0).
  - split; reflexivity.
  - exact (within_sub_l 0 360 d 360 I I I Hw).
Qed.

(** A degree from 0 to 360 turned by [k]: the sum is finite and not
    below [k]. *)
Lemma turned_positive (k d : float) :
  finite k -> finite (k + 0) -> finite (k + 360) ->
  (0 <? k + 0) = true ->
  within 0 360 d -> finite (k + d) /\ (0 <? k + d) = true.
Proof.
  intros Fk F0 F360 Hk Hw.
  pose proof (within_add_l 0 360 d k I I Fk Hw) as Hsum.
  destruct (within_values _ _ _ F0 F360 Hsum) as [Fs Hv].
  split; [exact Fs | ].
  apply ltb_value; [exact I | exact Fs | ].
  apply ltb_value in Hk; [ | exact I | exact F0].
  lia.
Qed.

Lemma turned_within (k d : float) :
  finite k -> finite (k + 0) -> finite (k + 360) ->
  (0 <? k + 0) = true ->
  within 0 360 d -> within 0 360 ((k + d) %% 360).
Proof.
  intros Fk F0 F360 Hk Hw.
  destruct (turned_positive k d Fk F0 F360 Hk Hw) as [Fs Hs].
  apply within_rem; try exact I; try exact Fs; try reflexivity.
  apply ltb_leb, Hs.
Qed.

(** [convertAngle] takes a degree from 0 to 360 to a degree from 0 to
    360. *)
Lemma convertAngle_within
    (d : float) (from to : AngleDescription) :
  within 0 360 d ->
  exists r, convertAngle d from (Some to) = Ok r /\ within 0 360 r.
Proof.
  intros Hw. rewrite (proj1 (convertAngle_dispatch d from to)).
  unfold convertAngle_steps.
  assert (Hd : within 0 360
                 (if direction_eqb (direction from) (direction to)
                  then d else flip d)).
  { destruct (direction_eqb _ _); [exact Hw | ].
    apply flip_within, Hw. }
  set (d' := if direction_eqb (direction from) (direction to)
             then d else flip d) in *.
  destruct (axis_eqb _ _) eqn:Haxis;
    [eexists; split; [reflexivity | exact Hd] | ].
  destruct (same_line _ _) eqn:Hline.
  { eexists; split; [reflexivity | ].
    apply turned_within; try exact Hd; try exact I; reflexivity. }
  destruct (listed _ offset_90) eqn:H90.
  { eexists; split; [reflexivity | ].
    apply turned_within; try exact Hd; try exact I; reflexivity. }
  destruct (listed _ offset_270) eqn:Hlist.
  { eexists; split; [reflexivity | ].
    apply turned_within; try exact Hd; try exact I; reflexivity. }
  exfalso. clear Hd d'.
  destruct from as [[ | ] [ | | | ]], to as [[ | ] [ | | | ]];
    discriminate.
Qed.

(** C5, as stated, fails where a sum is negative.  From
    counterclockwise from +x to counterclockwise from -x the degree
    -270 becomes [(180 + -270) % 360], which is -90 and not the 270 of
    the reduction into the turn from 0 to 360; and to clockwise from -x
    the degree 600 becomes [(180 + (360 - 600)) % 360], which is -60
    and not 300. *)
Lemma convertAngle_of_a_negative_sum :
  (convertAngle (-270) ccw_pos_x
     (Some {| direction := ccw; axis := neg_x |}) = Ok (-90)
   /\ convertAngle_steps normalized (-270) ccw_pos_x
        {| direction := ccw; axis := neg_x |} = Ok 270
   /\ (-90 <? 0) = true)
  /\ (convertAngle 600 ccw_pos_x
        (Some {| direction := cw; axis := neg_x |}) = Ok (-60)
      /\ convertAngle_steps normalized 600 ccw_pos_x
           {| direction := cw; axis := neg_x |} = Ok 300
      /\ (-60 <? 0) = true).
Proof. vm_compute. repeat split. Qed.

(** C5, amended.  [convertAngle] is the four-step algorithm in which
    "modulo 360" is the remainder of the division truncated toward
    zero, which has the sign of the sum: the degree is flipped to
    [360 - d] (0 staying 0) when the directions differ; equal axes
    return it unchanged; axes on one line give the remainder of
    [180 + degree]; perpendicular axes give that of [90 + degree] or
    [270 + degree] by the two lists of eight pairings.  An omitted
    target is counterclockwise from +x.  For a degree from 0 to 360
    every sum is positive, and the remainder is the reduction into the
    turn from 0 to 360. *)
Theorem convertAngle_steps_with_the_truncated_remainder
    (degree : float) (from to : AngleDescription) :
  convertAngle degree from (Some to)
  = convertAngle_steps truncated degree from to
  /\ convertAngle degree from None
     = convertAngle_steps truncated degree from ccw_pos_x
  /\ ((0 <=? degree) = true -> (degree <=? 360) = true ->
      convertAngle_steps truncated degree from to
      = convertAngle_steps normalized degree from to).
Proof.
  destruct (convertAngle_dispatch degree from to) as [-> ->].
  unfold convertAngle_steps.
  rewrite !rem_360_truncated.
  split; [reflexivity | ]. split; [reflexivity | ].
  intros Hlow Hhigh.
  assert (Hd : within 0 360
                 (if direction_eqb (direction from) (direction to)
                  then degree else flip degree)).
  { destruct (direction_eqb _ _); [split; assumption | ].
    apply flip_within. split; assumption. }
  set (d' := if direction_eqb (direction from) (direction to)
             then degree else flip degree) in *.
  destruct (axis_eqb _ _); [reflexivity | ].
  destruct (same_line _ _).
  { f_equal.
    destruct (turned_positive 180 d' I I I eq_refl Hd) as [Fs Hs].
    apply truncated_normalized; assumption. }
  destruct (listed _ offset_90).
  { f_equal.
    destruct (turned_positive 90 d' I I I eq_refl Hd) as [Fs Hs].
    apply truncated_normalized; assumption. }
  destruct (listed _ offset_270); [ | reflexivity].
  f_equal.
  destruct (turned_positive 270 d' I I I eq_refl Hd) as [Fs Hs].
  apply truncated_normalized; assumption.
Qed.

(** At 90 degrees, from clockwise from -y to counterclockwise from
    +x. *)
Lemma convertAngle_steps_with_the_truncated_remainder_witness :
  convertAngle 90 {| direction := cw; axis := neg_y |} (Some ccw_pos_x)
  = convertAngle_steps truncated 90 {| direction := cw; axis := neg_y |}
      ccw_pos_x
  /\ convertAngle_steps truncated 90 {| direction := cw; axis := neg_y |}
       ccw_pos_x
     = convertAngle_steps normalized 90
         {| direction := cw; axis := neg_y |} ccw_pos_x.
Proof.
  destruct (convertAngle_steps_with_the_truncated_remainder
              90 {| direction := cw; axis := neg_y |} ccw_pos_x)
    as (Hcode & _ & Hturn).
  split; [exact Hcode | apply Hturn; reflexivity].
Defined.

(** [convertAngle] returns a number on every description. *)
Lemma convertAngle_returns
    (degree : float) (from : AngleDescription)
    (to : option AngleDescription) :
  exists converted, convertAngle degree from to = Ok converted.
Proof.
  destruct from as [[ | ] [ | | | ]], to as [[[ | ] [ | | | ]] | ];
    eexists; reflexivity.
Qed.

(** C6.  On the two directions and four axes the [default] branch of
    the [switch] is never taken: [convertAngle] returns a number and
    throws nothing. *)
Theorem convertAngle_never_throws
    (degree : float) (from : AngleDescription)
    (to : option AngleDescription) :
  (exists converted, convertAngle degree from to = Ok converted)
  /\ (forall e, convertAngle degree from to <> Throw e).
Proof.
  destruct (convertAngle_returns degree from to) as [converted Hok].
  split; [exists converted; exact Hok | ].
  intros e. rewrite Hok. discriminate.
Qed.

End ConversionFacts.

(** * Angles and screen positions *)

Module PositionFacts.

#[local] Open Scope float_scope.
Import Number circularGeometry Assumed.
Import Interval OrderFacts.

(** C9.  Counterclockwise from +x, on a canvas of side 200 and at
    radius 50: degree 0 is the position (150, 100), 90 is (100, 50),
    180 is (50, 100) and 270 is (100, 150); and [positionToAngle]
    takes these four positions back to 0, 90, 180 and 270.  The engine
    is any whose [Math] functions have their usual values at the
    cardinal directions. *)
Theorem cardinal_directions (engine : JSMath) :
  CardinalValues engine ->
  let at_degree d := {| degree := d; description := ccw_pos_x |} in
  angleToPosition (at_degree 0) 50 200 = Ok {| x := 150; y := 100 |}
  /\ angleToPosition (at_degree 90) 50 200 = Ok {| x := 100; y := 50 |}
  /\ angleToPosition (at_degree 180) 50 200 = Ok {| x := 50; y := 100 |}
  /\ angleToPosition (at_degree 270) 50 200 = Ok {| x := 100; y := 150 |}
  /\ positionToAngle {| x := 150; y := 100 |} 200 ccw_pos_x = Ok 0
  /\ positionToAngle {| x := 100; y := 50 |} 200 ccw_pos_x = Ok 90
  /\ positionToAngle {| x := 50; y := 100 |} 200 ccw_pos_x = Ok 180
  /\ positionToAngle {| x := 100; y := 150 |} 200 ccw_pos_x = Ok 270.
Proof.
  intros [Hs0 Hc0 Hs1 Hc1 He Hn Hw Hs] at_degree.
  cbv -[Math_sin Math_cos Math_atan2] in Hs0, Hc0, Hs1, Hc1, He, Hn, Hw, Hs.
  repeat split; cbv -[Math_sin Math_cos Math_atan2];
    rewrite ?Hs0, ?Hc0, ?Hs1, ?Hc1, ?He, ?Hn, ?Hw, ?Hs;
    vm_compute; reflexivity.
Qed.

(** The engine on the axes has these values. *)
Lemma cardinal_directions_witness :
  let position_of d :=
    angleToPosition (engine := AxisEngine.math)
      {| degree := d; description := ccw_pos_x |} 50 200 in
  let angle_of p :=
    positionToAngle (engine := AxisEngine.math) p 200 ccw_pos_x in
  position_of 0 = Ok {| x := 150; y := 100 |}
  /\ position_of 90 = Ok {| x := 100; y := 50 |}
  /\ position_of 180 = Ok {| x := 50; y := 100 |}
  /\ position_of 270 = Ok {| x := 100; y := 150 |}
  /\ angle_of {| x := 150; y := 100 |} = Ok 0
  /\ angle_of {| x := 100; y := 50 |} = Ok 90
  /\ angle_of {| x := 50; y := 100 |} = Ok 180
  /\ angle_of {| x := 100; y := 150 |} = Ok 270.
Proof.
  apply (cardinal_directions AxisEngine.math).
  constructor; vm_compute; reflexivity.
Defined.

(** A pointer just below the positive x axis: [Math.atan2] answers a
    negative angle too small for [theta + 2 * Math.PI] to differ from
    [2 * Math.PI], and [positionToAngle] returns 360.  The assumption is
    that the arc tangent of this tiny quotient is the quotient. *)
Lemma positionToAngle_next_to_pos_x (engine : JSMath) :
  Math_atan2 (100 - 100.00000000000001) 50
    = (100 - 100.00000000000001) / 50 ->
  positionToAngle {| x := 150; y := 100.00000000000001 |} 200 ccw_pos_x
    = Ok 360.
Proof.
  intros Hatan.
  cbv -[Math_sin Math_cos Math_atan2] in Hatan.
  cbv -[Math_sin Math_cos Math_atan2]. rewrite Hatan.
  vm_compute. reflexivity.
Qed.

(** C10, as stated, fails in binary64 arithmetic.  For the pointer at
    (150, 100.00000000000001) on a canvas of side 200,
    [positionToAngle] returns 360, which is not below 360; and
    [convertAngle] takes the degree 1e-20, which is between 0 and 360,
    to [360 - 1e-20], which is 360. *)
Lemma positionToAngle_returns_360 :
  (positionToAngle (engine := AxisEngine.math)
     {| x := 150; y := 100.00000000000001 |} 200 ccw_pos_x = Ok 360
   /\ (360 <? 360) = false)
  /\ ((0 <=? 1e-20) = true /\ (1e-20 <? 360) = true
      /\ convertAngle 1e-20 ccw_pos_x
           (Some {| direction := cw; axis := pos_x |}) = Ok 360).
Proof.
  split; [split | split; [ | split]]; vm_compute; reflexivity.
Qed.

(** C10, amended.  In binary64 arithmetic the interval is closed at
    360.  Whenever [Math.atan2] answers an angle from [-Math.PI] to
    [Math.PI] (as it does for every pair of numbers, not NaN),
    [positionToAngle] returns a degree from 0 to 360, both included,
    whatever the position, the size and the target description: the
    angle is brought into the interval from 0 to [2 * Math.PI], the
    degree into the interval from 0 to 360, and [convertAngle] takes a
    degree from 0 to 360 to a degree from 0 to 360. *)
Theorem positionToAngle_range_is_closed
    (engine : JSMath) (position : Position) (svgSize : float)
    (angleType : AngleDescription) :
  let theta :=
    Math_atan2 (svgSize / 2 - y position) (x position - svgSize / 2) in
  (- PI <=? theta) = true -> (theta <=? PI) = true ->
  (exists degree,
     positionToAngle position svgSize angleType = Ok degree
     /\ (0 <=? degree) = true /\ (degree <=? 360) = true)
  /\ (forall (d : float) (from to : AngleDescription),
        (0 <=? d) = true -> (d <=? 360) = true ->
        exists r,
          convertAngle d from (Some to) = Ok r
          /\ (0 <=? r) = true /\ (r <=? 360) = true).
Proof.
  intros theta Hlow Hhigh.
  split; [ | intros d from to H0 H360;
             exact (ConversionFacts.convertAngle_within d from to
                      (conj H0 H360))].
  assert (Hatan : within (- PI) PI theta) by (split; assumption).
  unfold positionToAngle. fold theta.
  assert (Ftheta : finite theta)
    by (exact (within_finite (- PI) PI theta I I Hatan)).
  assert (Hnorm : within 0 (2 * PI)
                    (if theta <? 0 then theta + 2 * PI else theta)).
  { destruct (theta <? 0) eqn:Hneg.
    - assert (Hw : within (- PI) 0 theta)
        by (split; [exact Hlow | apply ltb_leb, Hneg]).
      pose proof (within_add_r (- PI) 0 theta (2 * PI) I I I Hw) as Hs.
      apply (within_weaken (- PI + 2 * PI) (0 + 2 * PI)); try exact I;
        try reflexivity.
      exact Hs.
    - apply (within_weaken 0 PI); try exact I; try reflexivity.
      split; [ | exact Hhigh].
      apply not_ltb_leb; [exact Ftheta | exact I | exact Hneg]. }
  set (theta' := if theta <? 0 then theta + 2 * PI else theta) in *.
  pose proof (within_div_r 0 (2 * PI) theta' PI I I I eq_refl Hnorm) as Hq.
  pose proof (within_mul_r (0 / PI) (2 * PI / PI) (theta' / PI) 180
                I I I eq_refl Hq) as Hdeg.
  apply ConversionFacts.convertAngle_within.
  apply (within_weaken (0 / PI * 180) (2 * PI / PI * 180)); try exact I;
    try reflexivity.
  exact Hdeg.
Qed.

(** The pointer just below the positive x axis, where the engine on
    the axes answers a tiny negative angle: the degree is 360. *)
Lemma positionToAngle_range_is_closed_witness :
  (exists degree,
     positionToAngle (engine := AxisEngine.math)
       {| x := 150; y := 100.00000000000001 |} 200 ccw_pos_x = Ok degree
     /\ (0 <=? degree) = true /\ (degree <=? 360) = true)
  /\ (forall (d : float) (from to : AngleDescription),
        (0 <=? d) = true -> (d <=? 360) = true ->
        exists r,
          convertAngle d from (Some to) = Ok r
          /\ (0 <=? r) = true /\ (r <=? 360) = true).
Proof.
  apply (positionToAngle_range_is_closed AxisEngine.math
           {| x := 150; y := 100.00000000000001 |} 200 ccw_pos_x);
    vm_compute; reflexivity.
Defined.

End PositionFacts.

(** * The rounded-end arc path *)

Module PathFacts.

#[local] Open Scope float_scope.
Import Number circularGeometry svgPaths Assumed.

(** The four positions of a path exist whatever the options are:
    [angleToPosition] converts to the description counterclockwise from
    +x, which [convertAngle] always does. *)
Lemma angleToPosition_returns (engine : JSMath)
    (angle : AngleWithDescription) (radius size : float) :
  exists p, angleToPosition angle radius size = Ok p.
Proof.
  unfold angleToPosition.
  destruct (ConversionFacts.convertAngle_returns
              (degree angle) (description angle) (Some ccw_pos_x))
    as [converted ->].
  cbn [bind].
  destruct (converted / 180 * PI <=? PI);
    [destruct (converted / 180 * PI <=? PI / 2)
    | destruct (converted / 180 * PI <=? PI * 1.5)];
    eexists; reflexivity.
Qed.

(** The path of every input, by its parts. *)
Lemma arcCommands_returns (engine : JSMath) (opts : ArcOpts) :
  let finish := nudgedEndAngle (startAngle opts) (endAngle opts) in
  let large := finish - startAngle opts >=? 180 in
  let outer := innerRadius opts + thickness opts in
  let at_angle d r :=
    angleToPosition {| degree := d; description := angleType opts |}
                    r (svgSize opts) in
  exists inner_start inner_end outer_start outer_end,
    at_angle (startAngle opts) (innerRadius opts) = Ok inner_start
    /\ at_angle finish (innerRadius opts) = Ok inner_end
    /\ at_angle finish outer = Ok outer_start
    /\ at_angle (startAngle opts) outer = Ok outer_end
    /\ arcCommands opts
       = Ok {| startPoint := inner_start;
               innerArc :=
                 {| rx := innerRadius opts; ry := innerRadius opts;
                    largeArcFlag := large;
                    sweepFlag := is_cw (arcDirection opts);
                    target := inner_end |};
               firstButt :=
                 {| rx := thickness opts / 2; ry := thickness opts / 2;
                    largeArcFlag := large;
                    sweepFlag := negb (is_cw (arcDirection opts));
                    target := outer_start |};
               outerArc :=
                 {| rx := outer; ry := outer;
                    largeArcFlag := large;
                    sweepFlag := negb (is_cw (arcDirection opts));
                    target := outer_end |};
               secondButt :=
                 {| rx := thickness opts / 2; ry := thickness opts / 2;
                    largeArcFlag := large;
                    sweepFlag := negb (is_cw (arcDirection opts));
                    target := inner_start |} |}.
Proof.
  intros finish large outer at_angle.
  destruct (angleToPosition_returns engine
              {| degree := startAngle opts; description := angleType opts |}
              (innerRadius opts) (svgSize opts)) as [p1 H1].
  destruct (angleToPosition_returns engine
              {| degree := finish; description := angleType opts |}
              (innerRadius opts) (svgSize opts)) as [p2 H2].
  destruct (angleToPosition_returns engine
              {| degree := finish; description := angleType opts |}
              outer (svgSize opts)) as [p3 H3].
  destruct (angleToPosition_returns engine
              {| degree := startAngle opts; description := angleType opts |}
              outer (svgSize opts)) as [p4 H4].
  exists p1, p2, p3, p4. unfold at_angle.
  repeat (split; [assumption | ]).
  unfold arcCommands. fold finish. fold outer.
  rewrite H1, H2, H3, H4. cbn [bind]. fold large.
  destruct large, (is_cw (arcDirection opts)); reflexivity.
Qed.

(** C7, as stated, fails: on a clockwise arc the outer arc carries the
    flag of the caps, not the flag of the inner arc. *)
Lemma outer_arc_sweeps_with_the_caps :
  ~ (forall (engine : JSMath) (opts : ArcOpts) (p : ArcPath),
       arcCommands opts = Ok p ->
       Spec.caps_sweep_against_both_arcs (arcDirection opts) p).
Proof.
  intros Hclaim.
  destruct (arcCommands_returns AxisEngine.math
              {| startAngle := 0; endAngle := 90; angleType := ccw_pos_x;
                 innerRadius := 90; thickness := 10; svgSize := 200;
                 arcDirection := cw |})
    as (p1 & p2 & p3 & p4 & _ & _ & _ & _ & Hpath).
  destruct (Hclaim _ _ _ Hpath) as (_ & Houter & _).
  discriminate Houter.
Qed.

(** C7, amended.  Every input has a path, whose text
    [arcPathWithRoundedEnds] returns.  Its inner arc sweeps as
    [direction] says (flag 1 exactly for clockwise); the outer arc,
    which runs back from the end angle to the start angle, and the two
    caps all carry the complementary flag; and the four arcs carry the
    same large-arc flag. *)
Theorem sweep_flags_of_the_path
    (engine : JSMath) (text : NumberText) (opts : ArcOpts) :
  exists p,
    arcCommands opts = Ok p
    /\ arcPathWithRoundedEnds opts = Ok (path_text p)
    /\ sweepFlag (innerArc p) = is_cw (arcDirection opts)
    /\ sweepFlag (outerArc p) = negb (sweepFlag (innerArc p))
    /\ sweepFlag (firstButt p) = negb (sweepFlag (innerArc p))
    /\ sweepFlag (secondButt p) = negb (sweepFlag (innerArc p))
    /\ largeArcFlag (firstButt p) = largeArcFlag (innerArc p)
    /\ largeArcFlag (outerArc p) = largeArcFlag (innerArc p)
    /\ largeArcFlag (secondButt p) = largeArcFlag (innerArc p).
Proof.
  destruct (arcCommands_returns engine opts)
    as (p1 & p2 & p3 & p4 & _ & _ & _ & _ & Hpath).
  eexists. split; [exact Hpath | ].
  unfold arcPathWithRoundedEnds. rewrite Hpath.
  cbn [bind sweepFlag largeArcFlag innerArc outerArc firstButt secondButt].
  repeat split.
Qed.

(** C8 (the code at its failing input).  The angles -90 and 270 are
    congruent modulo 360, one full turn apart, and not equal; yet the
    remainders [-90 % 360] and [270 % 360] are -90 and 270, so the end
    angle is not reduced.  On a canvas of side 200 the inner arc then
    ends where it starts, and so does the outer arc: the full circle is
    lost.  From 0 to 360 the end angle is reduced by 0.001. *)
Theorem full_turn_through_zero_is_not_nudged (engine : JSMath) :
  BottomValues engine ->
  let opts :=
    {| startAngle := -90; endAngle := 270; angleType := ccw_pos_x;
       innerRadius := 90; thickness := 10; svgSize := 200;
       arcDirection := ccw |} in
  Exact.congruent_mod_360 (-90) 270
  /\ 270 - -90 = 360
  /\ (-90 %% 360 = -90 /\ 270 %% 360 = 270)
  /\ nudgedEndAngle (-90) 270 = 270
  /\ nudgedEndAngle 0 360 = 360 - milli
  /\ exists p,
       arcCommands opts = Ok p
       /\ target (innerArc p) = startPoint p
       /\ target (outerArc p) = target (firstButt p).
Proof.
  intros [Hsu Hcu Hsd Hcd] opts.
  cbv -[Math_sin Math_cos Math_atan2] in Hsu, Hcu, Hsd, Hcd.
  split; [exists 1%Z; lra | ].
  repeat split; try (vm_compute; reflexivity).
  eexists. unfold opts.
  cbv -[Math_sin Math_cos Math_atan2].
  rewrite ?Hsu, ?Hcu, ?Hsd, ?Hcd.
  repeat split; vm_compute; reflexivity.
Qed.

Lemma full_turn_through_zero_is_not_nudged_witness :
  nudgedEndAngle (-90) 270 = 270
  /\ exists p,
       arcCommands (engine := AxisEngine.math)
         {| startAngle := -90; endAngle := 270; angleType := ccw_pos_x;
            innerRadius := 90; thickness := 10; svgSize := 200;
            arcDirection := ccw |} = Ok p
       /\ target (innerArc p) = startPoint p
       /\ target (outerArc p) = target (firstButt p).
Proof.
  assert (Hassumed : BottomValues AxisEngine.math)
    by (constructor; vm_compute; reflexivity).
  destruct (full_turn_through_zero_is_not_nudged AxisEngine.math Hassumed)
    as (_ & _ & _ & Hkept & _ & Hpath).
  split; [exact Hkept | exact Hpath].
Defined.

End PathFacts.
(** * The component: what its handlers do *)

Module SliderFacts.

#[local] Open Scope float_scope.
Import Number circularGeometry CircularSlider.

Section Handlers.

Context {engine : JSMath} {dom : SvgDom}.

(** ** [processSelection] *)

Lemma positionToAngle_returns
    (position : Position) (size : float) (d : AngleDescription) :
  exists angle, positionToAngle position size d = Ok angle.
Proof.
  unfold positionToAngle. apply ConversionFacts.convertAngle_returns.
Qed.

Lemma angleToValue_returns (params : AngleToValueParams) :
  (atv_endAngle params <=? atv_startAngle params) = false ->
  exists value, angleToValue params = Ok value.
Proof.
  intros Hrange. unfold angleToValue. rewrite Hrange.
  destruct (atv_angle params <? atv_startAngle params);
    [ | destruct (atv_angle params >? atv_endAngle params)];
    eexists; reflexivity.
Qed.

Lemma angleToValue_throws (params : AngleToValueParams) :
  (atv_endAngle params <=? atv_startAngle params) = true ->
  angleToValue params = Throw InvalidRange.
Proof.
  intros Hrange. unfold angleToValue. rewrite Hrange. reflexivity.
Qed.

Lemma selected_cases (props : CircularSliderProps) (x y : float) :
  ((endAngle props <=? startAngle props) = true
   /\ selected props x y = Throw InvalidRange)
  \/ ((endAngle props <=? startAngle props) = false
      /\ exists value, selected props x y = Ok value).
Proof.
  unfold selected.
  destruct (positionToAngle_returns (coordsInSvg x y) (sizeW props)
              (angleType props)) as [angle ->].
  cbn [bind].
  destruct (endAngle props <=? startAngle props) eqn:Hrange.
  - left. split; [reflexivity | ]. apply angleToValue_throws, Hrange.
  - right. split; [reflexivity | ]. apply angleToValue_returns, Hrange.
Qed.

Lemma processSelection_cases
    (props : CircularSliderProps) (x y : float) (this : Instance) :
  processSelection props x y this
  = if negb (onChange (knob props)) then returns this
    else match svgRef this with
         | None => returns this
         | Some _ =>
             match selected props x y with
             | Throw e => throws e this
             | Ok value =>
                 if negb (disabled props)
                 then call (onChange_call (coerce props value)) this
                 else returns this
             end
         end.
Proof. reflexivity. Qed.

(** An outcome that has not thrown and has left the instance. *)
Ltac returned impossible :=
  cbn [returns call thrown calls after];
  split;
    [ split; [intros H; discriminate H | impossible]
    | split;
        [ left; reflexivity
        | split; [intros H; exfalso; apply H; reflexivity | reflexivity] ] ].

(** [processSelection] leaves the instance as it was, and throws
    nothing or the error of the range. *)
Lemma processSelection_leaves
    (props : CircularSliderProps) (x y : float) (this : Instance) :
  after (processSelection props x y this) = this.
Proof.
  rewrite processSelection_cases.
  destruct (onChange (knob props)); [ | reflexivity].
  destruct (svgRef this) as [svg | ]; [ | reflexivity].
  destruct (selected props x y) as [value | e]; [ | reflexivity].
  destruct (disabled props); reflexivity.
Qed.

Lemma processSelection_thrown
    (props : CircularSliderProps) (x y : float) (this : Instance) :
  thrown (processSelection props x y this) = None
  \/ (thrown (processSelection props x y this) = Some InvalidRange
      /\ (endAngle props <=? startAngle props) = true).
Proof.
  rewrite processSelection_cases.
  destruct (onChange (knob props)); [ | left; reflexivity].
  destruct (svgRef this) as [svg | ]; [ | left; reflexivity].
  destruct (selected_cases props x y)
    as [[Hrange ->] | [Hrange [value ->]]].
  - right. split; [reflexivity | exact Hrange].
  - left. destruct (disabled props); reflexivity.
Qed.

(** X15.  [processSelection] throws exactly when an [onChange] handler is
    given, the [svg] element is mounted and [endAngle <= startAngle],
    whether the slider is disabled or not, and then the error of the
    range; when it throws it has called nothing; it never touches the
    instance. *)
Theorem processSelection_throws_on_an_invalid_range
    (props : CircularSliderProps) (x y : float) (this : Instance) :
  let o := processSelection props x y this in
  (thrown o = Some InvalidRange
   <-> onChange (knob props) = true
       /\ svgRef this <> None
       /\ (endAngle props <=? startAngle props) = true)
  /\ (thrown o = None \/ thrown o = Some InvalidRange)
  /\ (thrown o <> None -> calls o = [])
  /\ after o = this.
Proof.
  cbv zeta. rewrite processSelection_cases.
  destruct (onChange (knob props)); cbn [negb].
  2: { returned ltac:(intros (H & _); discriminate H). }
  destruct (svgRef this) as [svg | ].
  2: { returned ltac:(intros (_ & H & _); exfalso; apply H; reflexivity). }
  destruct (selected_cases props x y)
    as [[Hrange ->] | [Hrange [value ->]]]; rewrite Hrange.
  - cbn [throws thrown calls after].
    split; [split; [intros _ | reflexivity] | ].
    + split; [reflexivity | ]. split; [discriminate | reflexivity].
    + split; [right; reflexivity | ]. split; reflexivity.
  - destruct (disabled props); cbn [negb];
      returned ltac:(intros (_ & _ & H); discriminate H).
Qed.

(** ** What the handlers never do *)

Lemma silent_nil : silent [].
Proof. intros value H. destruct H. Qed.

Lemma silent_app (a b : list Call) : silent a -> silent b -> silent (a ++ b).
Proof.
  intros Ha Hb value H. apply in_app_or in H.
  destruct H as [H | H]; [apply (Ha value H) | apply (Hb value H)].
Qed.

Lemma silent_finished : silent [onControlFinished_call].
Proof. intros value [H | H]; [discriminate H | destruct H]. Qed.

Lemma silent_stop : silent [stopPropagation_call].
Proof. intros value [H | H]; [discriminate H | destruct H]. Qed.

Lemma processSelection_silent
    (props : CircularSliderProps) (x y : float) (this : Instance) :
  disabled props = true
  \/ onChange (knob props) = false
  \/ (endAngle props <=? startAngle props) = true ->
  calls (processSelection props x y this) = [].
Proof.
  intros H. rewrite processSelection_cases.
  destruct (onChange (knob props)); cbn [negb]; [ | reflexivity].
  destruct (svgRef this) as [svg | ]; [ | reflexivity].
  destruct (selected_cases props x y)
    as [[Hrange ->] | [Hrange [value ->]]]; [reflexivity | ].
  destruct (disabled props); [reflexivity | ].
  destruct H as [H | [H | H]]; try discriminate H.
  rewrite Hrange in H. discriminate H.
Qed.

Lemma handleMousePosition_silent
    (props : CircularSliderProps) (ev : MouseEvent) (this : Instance) :
  not_interactive props ->
  calls (handleMousePosition props ev this) = [].
Proof.
  intros H. unfold handleMousePosition.
  destruct (animated props) eqn:Ha; [reflexivity | ].
  destruct (noControl props) eqn:Hn; [reflexivity | ].
  cbn [orb]. apply processSelection_silent.
  destruct H as [H | [H | [H | [H | H]]]]; try congruence; tauto.
Qed.

Lemma invoke_silent
    (props : CircularSliderProps) (i : Invocation) (this : Instance) :
  not_interactive props -> silent (calls (invoke props i this)).
Proof.
  intros H. destruct i as [ev | ev | ev | | ev | ]; cbn [invoke].
  - unfold onMouseEnter. destruct (buttons ev =? 1)%Z;
      [ | apply silent_nil].
    unfold onMouseDown. rewrite handleMousePosition_silent by exact H.
    apply silent_nil.
  - unfold onMouseDown. rewrite handleMousePosition_silent by exact H.
    apply silent_nil.
  - unfold handleMouseMove. rewrite handleMousePosition_silent by exact H.
    apply silent_nil.
  - unfold removeMouseListeners.
    destruct (onControlFinished props);
      [apply silent_finished | apply silent_nil].
  - unfold onTouch.
    destruct (animated props) eqn:Ha; [apply silent_nil | ].
    destruct (noControl props) eqn:Hn; [apply silent_nil | ].
    cbn [orb].
    destruct (_ || _); [apply silent_nil | ].
    destruct (changedTouches ev) as [ | touch rest]; [apply silent_nil | ].
    assert (Hsel : calls (processSelection props (touch_clientX touch)
                            (touch_clientY touch) this) = []).
    { apply processSelection_silent.
      destruct H as [H | [H | [H | [H | H]]]]; try congruence; tauto. }
    unfold and_then.
    destruct (thrown (processSelection _ _ _ _));
      [rewrite Hsel; apply silent_nil | ].
    cbn [calls]. rewrite Hsel. cbn [app].
    destruct (_ || _); [ | apply silent_nil].
    destruct (onControlFinished props);
      [apply silent_finished | apply silent_nil].
  - unfold onClick. destruct (controllable props);
      [apply silent_stop | apply silent_nil].
Qed.

(** X16.  Whatever handlers are invoked, with whatever events and in whatever
    order, [knob.onChange] is never called while the slider is
    disabled, animated or without control, or has no [onChange], or
    has [endAngle <= startAngle]. *)
Theorem onChange_needs_an_interactive_slider
    (props : CircularSliderProps) (invocations : list Invocation)
    (this : Instance) :
  disabled props = true
  \/ animated props = true
  \/ noControl props = true
  \/ onChange (knob props) = false
  \/ (endAngle props <=? startAngle props) = true ->
  forall value,
    ~ In (onChange_call value) (snd (session props invocations this)).
Proof.
  intros H. fold (silent (snd (session props invocations this))).
  revert this.
  induction invocations as [ | i rest IH]; intros this; cbn [session].
  - apply silent_nil.
  - specialize (IH (after (invoke props i this))).
    destruct (session props rest (after (invoke props i this)))
      as [final later].
    cbn [snd] in *. apply silent_app; [ | exact IH].
    apply invoke_silent, H.
Qed.

(** ** The listeners *)

Lemma onMouseDown_listens
    (props : CircularSliderProps) (ev : MouseEvent) (this : Instance) :
  idle_or_dragging this ->
  listening (after (onMouseDown props ev this)) drag_listeners.
Proof.
  intros H. unfold onMouseDown, handleMousePosition.
  pose proof (processSelection_leaves props) as Hafter.
  destruct (animated props || noControl props);
    [cbn [after returns] | rewrite Hafter];
    destruct H as [H | H]; unfold listening in *; rewrite H; reflexivity.
Qed.

Lemma removeMouseListeners_forgets
    (props : CircularSliderProps) (this : Instance) :
  idle_or_dragging this ->
  listening (after (removeMouseListeners props this)) [].
Proof.
  intros H. unfold removeMouseListeners.
  destruct (onControlFinished props); cbn [after call returns];
    destruct H as [H | H]; unfold listening in *; rewrite H; reflexivity.
Qed.

Lemma invoke_keeps_idle_or_dragging
    (props : CircularSliderProps) (i : Invocation) (this : Instance) :
  idle_or_dragging this -> idle_or_dragging (after (invoke props i this)).
Proof.
  intros H.
  pose proof (processSelection_leaves props) as Hafter.
  destruct i as [ev | ev | ev | | ev | ]; cbn [invoke].
  - unfold onMouseEnter. destruct (buttons ev =? 1)%Z; [ | exact H].
    right. apply onMouseDown_listens, H.
  - right. apply onMouseDown_listens, H.
  - unfold handleMouseMove, handleMousePosition.
    destruct (animated props || noControl props); [exact H | ].
    rewrite Hafter. exact H.
  - left. apply removeMouseListeners_forgets, H.
  - unfold onTouch.
    destruct (animated props || noControl props); [exact H | ].
    destruct (_ || _); [exact H | ].
    destruct (changedTouches ev) as [ | touch rest]; [exact H | ].
    unfold and_then.
    destruct (thrown (processSelection _ _ _ _)) eqn:Hthrown.
    + rewrite Hafter. exact H.
    + cbn [after]. rewrite Hafter.
      destruct (_ || _); [ | exact H].
      destruct (onControlFinished props); exact H.
  - unfold onClick. destruct (controllable props); exact H.
Qed.

(** X17.  On an element that is mounted without listeners, whatever handlers
    are invoked, with whatever events and in whatever order, the
    element ends with no listener or with exactly the three of a drag
    (mousemove, mouseleave, mouseup), each once; from there a press
    registers exactly the three, however many presses came before, and
    a release leaves none. *)
Theorem drag_listeners_are_registered_once
    (props : CircularSliderProps) (invocations : list Invocation)
    (this : Instance) :
  svgRef this = Some {| listeners := [] |} ->
  let final := fst (session props invocations this) in
  (svgRef final = Some {| listeners := [] |}
   \/ svgRef final = Some {| listeners := drag_listeners |})
  /\ (forall ev,
        svgRef (after (onMouseDown props ev final))
        = Some {| listeners := drag_listeners |})
  /\ svgRef (after (removeMouseListeners props final))
     = Some {| listeners := [] |}.
Proof.
  intros Hfresh. cbv zeta.
  assert (Hinv : idle_or_dragging (fst (session props invocations this))).
  { assert (Hstart : idle_or_dragging this) by (left; exact Hfresh).
    clear Hfresh. revert this Hstart.
    induction invocations as [ | i rest IH]; intros this Hstart;
      cbn [session].
    - exact Hstart.
    - specialize (IH (after (invoke props i this))
                     (invoke_keeps_idle_or_dragging props i this Hstart)).
      destruct (session props rest (after (invoke props i this)))
        as [final later].
      exact IH. }
  split; [exact Hinv | ]. split.
  - intros ev. apply onMouseDown_listens, Hinv.
  - apply removeMouseListeners_forgets, Hinv.
Qed.

(** ** A drag *)

Lemma processSelection_reports
    (props : CircularSliderProps) (x y : float) (this : Instance)
    (svg : SvgElement) (value : float) :
  disabled props = false ->
  onChange (knob props) = true ->
  svgRef this = Some svg ->
  selected props x y = Ok value ->
  processSelection props x y this
  = call (onChange_call (coerce props value)) this.
Proof.
  intros Hd Hc Hsvg Hvalue.
  rewrite processSelection_cases, Hc, Hsvg, Hvalue, Hd. reflexivity.
Qed.

(** X18.  On an interactive slider with both functions given,
    [endAngle > startAngle] and an element mounted without listeners:
    a press, a move and a release call [knob.onChange] with the
    coerced value of the position of the press, then with that of the
    move, then [onControlFinished]; and the release leaves the element
    without listeners, as it was before the press. *)
Theorem drag_reports_each_position_then_finishes
    (props : CircularSliderProps) (pressed moved : MouseEvent)
    (this : Instance) :
  animated props = false ->
  noControl props = false ->
  disabled props = false ->
  onChange (knob props) = true ->
  onControlFinished props = true ->
  (endAngle props <=? startAngle props) = false ->
  svgRef this = Some {| listeners := [] |} ->
  exists first second,
    selected props (clientX pressed) (clientY pressed) = Ok first
    /\ selected props (clientX moved) (clientY moved) = Ok second
    /\ session props
         [invoke_onMouseDown pressed;
          invoke_handleMouseMove moved;
          invoke_removeMouseListeners] this
       = (this,
          [onChange_call (coerce props first);
           onChange_call (coerce props second);
           onControlFinished_call]).
Proof.
  intros Ha Hn Hd Hc Hf Hrange Hsvg.
  destruct (selected_cases props (clientX pressed) (clientY pressed))
    as [[Hbad _] | [_ [first Hfirst]]];
    [rewrite Hrange in Hbad; discriminate Hbad | ].
  destruct (selected_cases props (clientX moved) (clientY moved))
    as [[Hbad _] | [_ [second Hsecond]]];
    [rewrite Hrange in Hbad; discriminate Hbad | ].
  exists first, second.
  split; [exact Hfirst | ]. split; [exact Hsecond | ].
  destruct this as [ref]. cbn [svgRef] in Hsvg. subst ref.
  cbn [session invoke].
  unfold onMouseDown, handleMouseMove, handleMousePosition,
    removeMouseListeners.
  rewrite Ha, Hn, Hf. cbn [orb svgRef].
  erewrite (processSelection_reports props (clientX pressed)
              (clientY pressed) _ _ first Hd Hc);
    [ | reflexivity | exact Hfirst].
  cbn [after call].
  erewrite (processSelection_reports props (clientX moved)
              (clientY moved) _ _ second Hd Hc);
    [ | reflexivity | exact Hsecond].
  reflexivity.
Qed.

(** ** The end of a touch *)

(** X19.  On an interactive slider with both functions given, a mounted
    element and [endAngle > startAngle], the touch that ends (a
    touchend with no touch left, or a touchcancel with at most one
    left) calls [knob.onChange] with the coerced value of the position
    of the first changed touch, and after it [onControlFinished]; it
    returns, and leaves the instance as it was. *)
Theorem touch_end_reports_the_value_first
    (props : CircularSliderProps) (ev : TouchEvent) (this : Instance)
    (svg : SvgElement) (touch : Touch) (rest : list Touch) :
  animated props = false ->
  noControl props = false ->
  disabled props = false ->
  onChange (knob props) = true ->
  onControlFinished props = true ->
  (endAngle props <=? startAngle props) = false ->
  svgRef this = Some svg ->
  changedTouches ev = touch :: rest ->
  (type ev = touchend /\ touches ev = [])
  \/ (type ev = touchcancel /\ (length (touches ev) <= 1)%nat) ->
  exists value,
    selected props (touch_clientX touch) (touch_clientY touch) = Ok value
    /\ onTouch props ev this
       = {| after := this;
            calls := [onChange_call (coerce props value);
                      onControlFinished_call];
            thrown := None |}.
Proof.
  intros Ha Hn Hd Hc Hf Hrange Hsvg Htouch Hend.
  destruct (selected_cases props (touch_clientX touch) (touch_clientY touch))
    as [[Hbad _] | [_ [value Hvalue]]];
    [rewrite Hrange in Hbad; discriminate Hbad | ].
  exists value. split; [exact Hvalue | ].
  unfold onTouch. rewrite Ha, Hn, Htouch. cbn [orb].
  rewrite processSelection_cases, Hc, Hsvg, Hvalue, Hd. cbn [negb].
  destruct Hend as [[-> ->] | [-> Hlen]].
  - cbn. rewrite Hf. reflexivity.
  - assert (Hfew : (1 <? length (touches ev))%nat = false)
      by (apply Nat.ltb_ge, Hlen).
    rewrite Hfew. cbn. rewrite Hf. reflexivity.
Qed.

(** ** What the handlers throw *)

Lemma handleMousePosition_returns
    (props : CircularSliderProps) (ev : MouseEvent) (this : Instance) :
  (endAngle props <=? startAngle props) = false ->
  thrown (handleMousePosition props ev this) = None.
Proof.
  intros Hrange. unfold handleMousePosition.
  destruct (animated props || noControl props); [reflexivity | ].
  destruct (processSelection_thrown props (clientX ev) (clientY ev) this)
    as [Hnone | [_ Hbad]]; [exact Hnone | ].
  rewrite Hrange in Hbad. discriminate Hbad.
Qed.

(** X20.  With [endAngle > startAngle], no handler of the mouse throws,
    whatever the event and the state; the handler of the touches
    throws only for an event whose [changedTouches] is empty, when it
    reads the first of them. *)
Theorem handlers_return_on_a_valid_range
    (props : CircularSliderProps) (i : Invocation) (this : Instance) :
  (endAngle props <=? startAngle props) = false ->
  thrown (invoke props i this) = None
  \/ (exists ev,
        i = invoke_onTouch ev
        /\ changedTouches ev = []
        /\ thrown (invoke props i this) = Some UndefinedTouch).
Proof.
  intros Hrange.
  destruct i as [ev | ev | ev | | ev | ]; cbn [invoke].
  - left. unfold onMouseEnter. destruct (buttons ev =? 1)%Z;
      [ | reflexivity].
    apply handleMousePosition_returns, Hrange.
  - left. apply handleMousePosition_returns, Hrange.
  - left. apply handleMousePosition_returns, Hrange.
  - left. unfold removeMouseListeners.
    destruct (onControlFinished props); reflexivity.
  - unfold onTouch.
    destruct (animated props || noControl props); [left; reflexivity | ].
    destruct (_ || _); [left; reflexivity | ].
    destruct (changedTouches ev) as [ | touch rest] eqn:Hchanged.
    + right. exists ev. repeat split. exact Hchanged.
    + left. unfold and_then.
      destruct (processSelection_thrown
                  props (touch_clientX touch) (touch_clientY touch) this)
        as [Hnone | [_ Hbad]].
      * rewrite Hnone. cbn [thrown].
        destruct (_ || _); [ | reflexivity].
        destruct (onControlFinished props); reflexivity.
      * rewrite Hrange in Hbad. discriminate Hbad.
  - left. unfold onClick. destruct (controllable props); reflexivity.
Qed.

End Handlers.

(** ** [render] *)

Lemma arcPathWithRoundedEnds_returns
    (engine : JSMath) (text : NumberText) (opts : svgPaths.ArcOpts) :
  exists d, svgPaths.arcPathWithRoundedEnds opts = Ok d.
Proof.
  unfold svgPaths.arcPathWithRoundedEnds.
  destruct (PathFacts.arcCommands_returns engine opts)
    as (p1 & p2 & p3 & p4 & _ & _ & _ & _ & ->).
  eexists. reflexivity.
Qed.

(** X21.  [render] throws exactly when [endAngle <= startAngle], and then the
    error of the range, which [valueToAngle] throws for the angle of
    the knob; otherwise it returns the element, whatever the value,
    the sizes and the engine are. *)
Theorem render_throws_on_an_invalid_range
    (engine : JSMath) (text : NumberText)
    (props : CircularSliderProps) (uuid : string) :
  (render props uuid = Throw InvalidRange
   <-> (endAngle props <=? startAngle props) = true)
  /\ ((exists element, render props uuid = Ok element)
      <-> (endAngle props <=? startAngle props) = false).
Proof.
  unfold render, valueToAngle.
  cbn [vta_value vta_minValue vta_maxValue vta_startAngle vta_endAngle].
  destruct (endAngle props <=? startAngle props).
  - cbn [bind]. split; split; try reflexivity; try discriminate.
    intros [element H]. discriminate H.
  - cbn [bind].
    set (knobAngle := _ * _ + startAngle props).
    destruct (PathFacts.angleToPosition_returns engine
                {| degree := knobAngle; description := angleType props |}
                (sizeW props / 2 - trackWidth props + trackWidth props / 2)
                (sizeW props)) as [knobPosition ->].
    cbn [bind].
    match goal with
    | |- context [bind (svgPaths.arcPathWithRoundedEnds ?o) _] =>
        destruct (arcPathWithRoundedEnds_returns engine text o) as [arc ->]
    end.
    cbn [bind].
    match goal with
    | |- context [bind (svgPaths.arcPathWithRoundedEnds ?o) _] =>
        destruct (arcPathWithRoundedEnds_returns engine text o)
          as [background ->]
    end.
    cbn [bind].
    split; split; try reflexivity; try discriminate.
    intros _. eexists. reflexivity.
Qed.

(** ** Examples *)

Lemma onChange_needs_an_interactive_slider_witness :
  disabled Examples.disabledProps = true
  /\ forall value,
       ~ In (onChange_call value)
            (snd (session (engine := AxisEngine.math) (dom := OriginDom.dom)
                    Examples.disabledProps
                    [invoke_onMouseDown Examples.press;
                     invoke_handleMouseMove Examples.press;
                     invoke_onTouch Examples.touchEnds;
                     invoke_removeMouseListeners]
                    Examples.mounted)).
Proof.
  split; [reflexivity | ].
  apply (onChange_needs_an_interactive_slider
           (engine := AxisEngine.math) (dom := OriginDom.dom)).
  left. reflexivity.
Defined.

Lemma drag_listeners_are_registered_once_witness :
  let final :=
    fst (session (engine := AxisEngine.math) (dom := OriginDom.dom)
           Examples.baseProps
           [invoke_onMouseDown Examples.press;
            invoke_onMouseDown Examples.press;
            invoke_handleMouseMove Examples.press]
           Examples.mounted) in
  (svgRef final = Some {| listeners := [] |}
   \/ svgRef final = Some {| listeners := drag_listeners |})
  /\ (forall ev,
        svgRef (after (onMouseDown (engine := AxisEngine.math)
                         (dom := OriginDom.dom)
                         Examples.baseProps ev final))
        = Some {| listeners := drag_listeners |})
  /\ svgRef (after (removeMouseListeners Examples.baseProps final))
     = Some {| listeners := [] |}.
Proof.
  apply (drag_listeners_are_registered_once
           (engine := AxisEngine.math) (dom := OriginDom.dom)).
  reflexivity.
Defined.

Lemma touch_end_reports_the_value_first_witness :
  exists value,
    selected (engine := AxisEngine.math) (dom := OriginDom.dom)
      Examples.baseProps 50 100 = Ok value
    /\ onTouch (engine := AxisEngine.math) (dom := OriginDom.dom)
         Examples.baseProps Examples.touchEnds Examples.mounted
       = {| after := Examples.mounted;
            calls := [onChange_call (coerce Examples.baseProps value);
                      onControlFinished_call];
            thrown := None |}.
Proof.
  apply (touch_end_reports_the_value_first
           (engine := AxisEngine.math) (dom := OriginDom.dom)
           Examples.baseProps Examples.touchEnds Examples.mounted
           {| listeners := [] |} Examples.lastTouch []);
    try reflexivity.
  left. split; reflexivity.
Defined.

Lemma drag_reports_each_position_then_finishes_witness :
  exists first second,
    selected (engine := AxisEngine.math) (dom := OriginDom.dom)
      Examples.baseProps 50 100 = Ok first
    /\ selected (engine := AxisEngine.math) (dom := OriginDom.dom)
         Examples.baseProps 50 100 = Ok second
    /\ session (engine := AxisEngine.math) (dom := OriginDom.dom)
         Examples.baseProps
         [invoke_onMouseDown Examples.press;
          invoke_handleMouseMove Examples.press;
          invoke_removeMouseListeners] Examples.mounted
       = (Examples.mounted,
          [onChange_call (coerce Examples.baseProps first);
           onChange_call (coerce Examples.baseProps second);
           onControlFinished_call]).
Proof.
  apply (drag_reports_each_position_then_finishes
           (engine := AxisEngine.math) (dom := OriginDom.dom)
           Examples.baseProps Examples.press Examples.press
           Examples.mounted);
    reflexivity.
Defined.

Lemma handlers_return_on_a_valid_range_witness :
  thrown (invoke (engine := AxisEngine.math) (dom := OriginDom.dom)
            Examples.baseProps (invoke_onMouseDown Examples.press)
            Examples.mounted) = None
  \/ (exists ev,
        invoke_onMouseDown Examples.press = invoke_onTouch ev
        /\ changedTouches ev = []
        /\ thrown (invoke (engine := AxisEngine.math) (dom := OriginDom.dom)
                     Examples.baseProps (invoke_onMouseDown Examples.press)
                     Examples.mounted) = Some UndefinedTouch).
Proof.
  apply (handlers_return_on_a_valid_range
           (engine := AxisEngine.math) (dom := OriginDom.dom)).
  reflexivity.
Defined.

End SliderFacts.
(** * Binary64: whole degrees, and a value range of no width *)

Module WholeDegreeFacts.

Import circularGeometry WholeDegrees.

(** The numbers of some whole degrees. *)
Lemma number_examples :
  number 0 = 0%float /\ number 1 = 1%float /\ number 90 = 90%float
  /\ number 270 = 270%float /\ number 359 = 359%float.
Proof. repeat split. Qed.

Lemma description_listed (d : AngleDescription) : In d descriptions.
Proof.
  destruct d as [[ | ] [ | | | ]]; cbn; tauto.
Qed.

Lemma returned_inv (r : Result float) (expected : float) :
  returned r expected = true -> r = Ok expected.
Proof.
  destruct r as [f | e]; cbn [returned]; [ | discriminate].
  intros H. apply FloatAxioms.Leibniz.eqb_spec in H. rewrite H. reflexivity.
Qed.

Lemma all_agree : forallb agrees (seq 0 360) = true.
Proof. vm_compute. reflexivity. Qed.

Lemma agrees_below (n : Z) (from to : AngleDescription) :
  (0 <= n < 360)%Z ->
  convertAngle (number n) from (Some to)
  = Ok (number (converted n from to))
  /\ convertAngle (number (converted n from to)) to (Some from)
     = Ok (number n).
Proof.
  intros Hn.
  pose proof all_agree as Hall.
  rewrite forallb_forall in Hall.
  specialize (Hall (Z.to_nat n)).
  assert (Hin : In (Z.to_nat n) (seq 0 360)) by (apply in_seq; lia).
  specialize (Hall Hin). unfold agrees in Hall.
  rewrite Z2Nat.id in Hall by lia.
  rewrite forallb_forall in Hall.
  specialize (Hall from (description_listed from)).
  rewrite forallb_forall in Hall.
  specialize (Hall to (description_listed to)).
  apply andb_true_iff in Hall. destruct Hall as [Hthere Hback].
  split; apply returned_inv; assumption.
Qed.

(** X6.  On the whole degrees from 0 to 359, [convertAngle] computes in
    binary64 exactly what integer arithmetic gives: between any two
    descriptions it returns the number of
    [(sense * n + offset) mod 360], again a whole degree from 0 to
    359. *)
Theorem convertAngle_is_exact_on_whole_degrees
    (n : Z) (from to : AngleDescription) :
  (0 <= n < 360)%Z ->
  convertAngle (number n) from (Some to)
  = Ok (number (converted n from to))
  /\ (0 <= converted n from to < 360)%Z.
Proof.
  intros Hn. split.
  - apply (agrees_below n from to Hn).
  - unfold converted. apply Z.mod_pos_bound. lia.
Qed.

Lemma convertAngle_is_exact_on_whole_degrees_witness :
  convertAngle (number 90) {| direction := cw; axis := neg_y |}
               (Some ccw_pos_x)
  = Ok (number (converted 90 {| direction := cw; axis := neg_y |}
                          ccw_pos_x))
  /\ (0 <= converted 90 {| direction := cw; axis := neg_y |} ccw_pos_x
      < 360)%Z.
Proof.
  apply convertAngle_is_exact_on_whole_degrees. lia.
Defined.

(** X7.  On the whole degrees from 0 to 359, converting to another
    description and back returns, in binary64, exactly the degree
    converted. *)
Theorem convertAngle_round_trip_on_whole_degrees
    (n : Z) (from to : AngleDescription) :
  (0 <= n < 360)%Z ->
  exists there,
    convertAngle (number n) from (Some to) = Ok there
    /\ convertAngle there to (Some from) = Ok (number n).
Proof.
  intros Hn. exists (number (converted n from to)).
  apply (agrees_below n from to Hn).
Qed.

Lemma convertAngle_round_trip_on_whole_degrees_witness :
  exists there,
    convertAngle (number 359) {| direction := cw; axis := pos_y |}
                 (Some {| direction := ccw; axis := neg_x |}) = Ok there
    /\ convertAngle there {| direction := ccw; axis := neg_x |}
                    (Some {| direction := cw; axis := pos_y |})
       = Ok (number 359).
Proof.
  apply convertAngle_round_trip_on_whole_degrees. lia.
Defined.

Lemma all_compose : forallb composes (seq 0 360) = true.
Proof. vm_compute. reflexivity. Qed.

Lemma converted_composes (n : Z) (a b c : AngleDescription) :
  (0 <= n < 360)%Z ->
  converted (converted n a b) b c = converted n a c.
Proof.
  intros Hn.
  pose proof all_compose as Hall.
  rewrite forallb_forall in Hall.
  specialize (Hall (Z.to_nat n)).
  assert (Hin : In (Z.to_nat n) (seq 0 360)) by (apply in_seq; lia).
  specialize (Hall Hin). unfold composes in Hall.
  rewrite Z2Nat.id in Hall by lia.
  rewrite forallb_forall in Hall.
  specialize (Hall a (description_listed a)).
  rewrite forallb_forall in Hall.
  specialize (Hall b (description_listed b)).
  rewrite forallb_forall in Hall.
  specialize (Hall c (description_listed c)).
  apply Z.eqb_eq in Hall. exact Hall.
Qed.

(** X5.  On the whole degrees from 0 to 359, converting from a
    description to a second and on to a third returns, in binary64,
    exactly what converting from the first to the third at once
    returns. *)
Theorem convertAngle_composes_on_whole_degrees
    (n : Z) (a b c : AngleDescription) :
  (0 <= n < 360)%Z ->
  exists via once,
    convertAngle (number n) a (Some b) = Ok via
    /\ convertAngle via b (Some c) = Ok once
    /\ convertAngle (number n) a (Some c) = Ok once.
Proof.
  intros Hn.
  assert (Hvia : (0 <= converted n a b < 360)%Z)
    by (unfold converted; apply Z.mod_pos_bound; lia).
  exists (number (converted n a b)), (number (converted n a c)).
  split; [apply (agrees_below n a b Hn) | ].
  split; [ | apply (agrees_below n a c Hn)].
  rewrite <- (converted_composes n a b c Hn).
  apply (agrees_below (converted n a b) b c Hvia).
Qed.

Lemma convertAngle_composes_on_whole_degrees_witness :
  exists via once,
    convertAngle (number 30) {| direction := cw; axis := pos_y |}
                 (Some {| direction := ccw; axis := neg_x |}) = Ok via
    /\ convertAngle via {| direction := ccw; axis := neg_x |}
                    (Some {| direction := cw; axis := neg_y |}) = Ok once
    /\ convertAngle (number 30) {| direction := cw; axis := pos_y |}
                    (Some {| direction := cw; axis := neg_y |}) = Ok once.
Proof.
  apply convertAngle_composes_on_whole_degrees. lia.
Defined.

End WholeDegreeFacts.

(** ** A value range of no width *)

Module EmptyRangeFacts.

#[local] Open Scope float_scope.
Import Number circularGeometry FloatKinds.

Lemma SFcompare_eq_finite (s1 s2 : bool) (m1 m2 : positive) (e1 e2 : Z) :
  SFcompare (S754_finite s1 m1 e1) (S754_finite s2 m2 e2) = Some Eq ->
  s1 = s2 /\ m1 = m2 /\ e1 = e2.
Proof.
  cbn [SFcompare].
  destruct s1, s2; try discriminate;
    destruct (Z.compare e1 e2) eqn:He; try discriminate;
    intros H; injection H as H;
    apply Z.compare_eq in He;
    [apply CompOpp_iff in H; cbn [CompOpp] in H | ];
    apply Pos.compare_eq in H; auto.
Qed.

(** The difference of two equal numbers is a zero, or NaN when they
    are the same infinity. *)
Lemma SFsub_of_equal (a b : spec_float) :
  SFeqb a b = true -> SFzero_or_nan (SFsub prec emax a b).
Proof.
  unfold SFeqb.
  destruct a as [sa | sa | | sa ma ea], b as [sb | sb | | sb mb eb];
    try (cbn; discriminate);
    try (destruct sa, sb; cbn; (discriminate || exact (fun _ => I))).
  destruct (SFcompare _ _) as [[ | | ] | ] eqn:Hcmp; try discriminate.
  intros _. apply SFcompare_eq_finite in Hcmp.
  destruct Hcmp as (-> & -> & ->).
  rewrite (FloatFacts.SFsub_diag (S754_finite sb mb eb) I). exact I.
Qed.

Lemma SFdiv_by_zero_or_nan (n d : spec_float) :
  SFzero_or_nan d -> SFnot_finite (SFdiv prec emax n d).
Proof.
  destruct n as [sn | sn | | sn mn en], d as [sd | sd | | sd md ed];
    cbn; tauto.
Qed.

Lemma SFmul_not_finite (r k : spec_float) :
  SFnot_finite r -> SFnot_finite (SFmul prec emax r k).
Proof.
  destruct r as [sr | sr | | sr mr er], k as [sk | sk | | sk mk ek];
    cbn; tauto.
Qed.

Lemma SFadd_not_finite (r s : spec_float) :
  SFnot_finite r -> SFnot_finite (SFadd prec emax r s).
Proof.
  destruct r as [sr | sr | | sr mr er], s as [ss | ss | | ss ms es];
    cbn; try tauto; destruct sr, ss; cbn; tauto.
Qed.

Lemma not_finite_is_finite (a : float) :
  SFnot_finite (Prim2SF a) -> is_finite a = false.
Proof.
  unfold is_finite, is_nan, is_infinity.
  rewrite !eqb_spec, abs_spec.
  change (Prim2SF infinity) with (S754_infinity false).
  destruct (Prim2SF a) as [s | s | | s m e]; cbn; try tauto;
    intros _; try reflexivity; destruct s; reflexivity.
Qed.

(** X14.  [valueToAngle] does not guard the width of the value range: with
    [maxValue === minValue] (and [endAngle > startAngle], so that it
    does not throw) the ratio is a quotient by zero, and the angle
    returned is NaN or an infinity for every value, never a finite
    number. *)
Theorem valueToAngle_of_a_value_range_of_no_width
    (params : ValueToAngleParams) :
  (vta_endAngle params <=? vta_startAngle params) = false ->
  (vta_maxValue params =? vta_minValue params) = true ->
  exists angle,
    valueToAngle params = Ok angle /\ is_finite angle = false.
Proof.
  intros Hrange Hequal. unfold valueToAngle. rewrite Hrange.
  eexists. split; [reflexivity | ].
  apply not_finite_is_finite.
  rewrite add_spec, mul_spec, div_spec.
  unfold SF64add, SF64mul, SF64div.
  apply SFadd_not_finite, SFmul_not_finite, SFdiv_by_zero_or_nan.
  rewrite sub_spec. apply SFsub_of_equal.
  rewrite <- eqb_spec. exact Hequal.
Qed.

Lemma valueToAngle_of_a_value_range_of_no_width_witness :
  exists angle,
    valueToAngle {| vta_value := 5; vta_minValue := 10; vta_maxValue := 10;
                    vta_startAngle := 0; vta_endAngle := 270 |} = Ok angle
    /\ is_finite angle = false.
Proof.
  apply valueToAngle_of_a_value_range_of_no_width; reflexivity.
Defined.

End EmptyRangeFacts.

(** ** An arc of no length *)

Module EmptyArcFacts.

#[local] Open Scope float_scope.
Import Number circularGeometry svgPaths FloatKinds.

(** No number is both equal to itself modulo 360 and different from
    itself: a number that is not NaN equals itself, and the remainder
    of NaN is NaN, which equals nothing. *)
Lemma nudgedEndAngle_diag (a : float) : nudgedEndAngle a a = a.
Proof.
  unfold nudgedEndAngle, neqb.
  destruct (a =? a) eqn:Hself; cbn [negb].
  - rewrite andb_false_r. reflexivity.
  - assert (Hrem : (a %% 360 =? a %% 360) = false).
    { rewrite eqb_spec in Hself. unfold Number.rem.
      destruct (Prim2SF a) as [s | s | | s m e] eqn:Ha.
      - destruct s; discriminate Hself.
      - destruct s; discriminate Hself.
      - reflexivity.
      - rewrite (FloatFacts.SFeqb_refl (S754_finite s m e) I) in Hself.
        discriminate Hself. }
    rewrite Hrem. reflexivity.
Qed.

(** The difference of a number and itself is [+0] or NaN, below 180. *)
Lemma sub_diag_small (a : float) : (a - a >=? 180) = false.
Proof.
  unfold geb. rewrite leb_spec, sub_spec.
  change (Prim2SF 180) with (S754_finite false 6333186975989760 (-45)).
  destruct (Prim2SF a) as [s | s | | s m e] eqn:Ha.
  - destruct s; reflexivity.
  - destruct s; reflexivity.
  - reflexivity.
  - unfold SF64sub.
    rewrite (FloatFacts.SFsub_diag (S754_finite s m e) I). reflexivity.
Qed.

(** X13.  An arc whose end angle is its start angle, whatever number that is
    (NaN and the infinities included): the end angle is not moved, the
    large-arc flag of the four arcs is 0, the inner arc ends at the
    start point of the path and the outer arc where the first cap
    ended, so that only the two caps are drawn. *)
Theorem arc_of_no_length
    (engine : JSMath) (opts : ArcOpts) :
  endAngle opts = startAngle opts ->
  exists path,
    arcCommands opts = Ok path
    /\ target (innerArc path) = startPoint path
    /\ target (outerArc path) = target (firstButt path)
    /\ largeArcFlag (innerArc path) = false
    /\ largeArcFlag (firstButt path) = false
    /\ largeArcFlag (outerArc path) = false
    /\ largeArcFlag (secondButt path) = false.
Proof.
  intros Hsame.
  destruct (PathFacts.arcCommands_returns engine opts)
    as (p1 & p2 & p3 & p4 & H1 & H2 & H3 & H4 & ->).
  rewrite Hsame, nudgedEndAngle_diag in *.
  rewrite sub_diag_small.
  eexists. split; [reflexivity | ].
  cbn [target innerArc outerArc firstButt secondButt startPoint
       largeArcFlag].
  rewrite H1 in H2. injection H2 as <-.
  rewrite H3 in H4. injection H4 as <-.
  repeat split.
Qed.

Lemma arc_of_no_length_witness :
  exists path,
    arcCommands (engine := AxisEngine.math)
      {| startAngle := 90; endAngle := 90; angleType := ccw_pos_x;
         innerRadius := 40; thickness := 10; svgSize := 100;
         arcDirection := ccw |} = Ok path
    /\ target (innerArc path) = startPoint path
    /\ target (outerArc path) = target (firstButt path)
    /\ largeArcFlag (innerArc path) = false
    /\ largeArcFlag (firstButt path) = false
    /\ largeArcFlag (outerArc path) = false
    /\ largeArcFlag (secondButt path) = false.
Proof.
  apply (arc_of_no_length AxisEngine.math). reflexivity.
Defined.

End EmptyArcFacts.

(** ** The values of the two end angles *)

Module MappingEndFacts.

#[local] Open Scope float_scope.
Import Number circularGeometry FloatKinds FloatFacts.

Lemma ltb_asym (a b : float) : (a <? b) = true -> (b <? a) = false.
Proof.
  rewrite !ltb_spec. unfold SFltb.
  rewrite (SFcompare_swap (Prim2SF a) (Prim2SF b)).
  destruct (SFcompare (Prim2SF a) (Prim2SF b)) as [[ | | ] | ];
    simpl; congruence.
Qed.

Lemma ltb_irrefl (a : float) : (a <? a) = false.
Proof.
  destruct (a <? a) eqn:H; [ | reflexivity].
  rewrite (ltb_asym a a H) in H. discriminate H.
Qed.

Lemma ltb_neqb (a b : float) : (a <? b) = true -> (b <>? a) = true.
Proof.
  intros Hlt. unfold neqb.
  destruct (b =? a) eqn:Heq; [ | reflexivity].
  pose proof (eqb_leb b a Heq) as Hle.
  rewrite (ltb_leb_false a b Hlt) in Hle. discriminate Hle.
Qed.

(** X23.  In binary64 arithmetic, when [endAngle > startAngle] and
    neither [endAngle - startAngle] nor [maxValue - minValue]
    overflows, the interpolation meets the two clamps: the value of
    [startAngle] is [minValue] (up to the sign of a zero), and the
    value of [endAngle] is [(maxValue - minValue) + minValue], which
    is [maxValue] up to the rounding of that difference and that
    sum. *)
Theorem angleToValue_at_the_end_angles
    (minValue maxValue startAngle endAngle : float) :
  (endAngle >? startAngle) = true ->
  is_finite (endAngle - startAngle) = true ->
  is_finite (maxValue - minValue) = true ->
  let value_of a :=
    angleToValue {| atv_angle := a; atv_minValue := minValue;
                    atv_maxValue := maxValue; atv_startAngle := startAngle;
                    atv_endAngle := endAngle |} in
  (exists v, value_of startAngle = Ok v /\ (v =? minValue) = true)
  /\ value_of endAngle = Ok (maxValue - minValue + minValue).
Proof.
  intros Hrange Hangles Hvalues value_of. unfold gtb in Hrange.
  destruct (sub_finite_nonzero _ _ Hangles (ltb_neqb _ _ Hrange))
    as [Hfin Hnonzero].
  destruct (sub_finite_inv _ _ Hangles) as [_ Hstart].
  destruct (sub_finite_inv _ _ Hvalues) as [_ Hmin].
  unfold value_of, angleToValue.
  cbn [atv_angle atv_minValue atv_maxValue atv_startAngle atv_endAngle].
  rewrite (ltb_leb_false _ _ Hrange), !ltb_irrefl.
  unfold gtb. rewrite (ltb_asym _ _ Hrange), ltb_irrefl.
  split.
  - eexists. split; [reflexivity | ].
    rewrite (sub_diag _ Hstart).
    apply zero_ratio_scaled;
      [exact Hnonzero | apply is_finite_SFfinite, Hvalues | exact Hmin].
  - rewrite (div_diag _ Hfin Hnonzero), mul_1_l. reflexivity.
Qed.

(** On the values 0 to 10 over the angles 0 to 270. *)
Lemma angleToValue_at_the_end_angles_witness :
  let value_of a :=
    angleToValue {| atv_angle := a; atv_minValue := 0;
                    atv_maxValue := 10; atv_startAngle := 0;
                    atv_endAngle := 270 |} in
  (exists v, value_of 0 = Ok v /\ (v =? 0) = true)
  /\ value_of 270 = Ok (10 - 0 + 0).
Proof.
  apply (angleToValue_at_the_end_angles 0 10 0 270); reflexivity.
Defined.

End MappingEndFacts.
(** * Binary64: the order of the values of two angles *)

Module MappingOrderFacts.

#[local] Open Scope float_scope.
Import Number circularGeometry FloatKinds FloatFacts.
Import Rounding RoundingFacts Interval OrderFacts.

(** Inside the arc: the parts of the interpolation are finite, the
    product is not below zero, and a larger angle has the larger
    product. *)
Lemma interpolation_order (a b s e c : float) :
  finite s -> finite e -> finite c ->
  finite (e - s) -> (s <? e) = true -> (0 <=? c) = true ->
  within s e a -> within s e b -> (a <=? b) = true ->
  let product x := (x - s) / (e - s) * c in
  finite (product a) /\ finite (product b)
  /\ (0 <= value (product a))%Z
  /\ (value (product a) <= value (product b))%Z.
Proof.
  intros Fs Fe Fc Fw Hlt Hc Ha Hb Hab product.
  subst product. cbv beta.
  pose proof (sub_positive e s Fe Fs Fw Hlt) as Hw.
  assert (Fa : finite a) by exact (within_finite s e a Fs Fe Ha).
  assert (Fb : finite b) by exact (within_finite s e b Fs Fe Hb).
  assert (Hzero : s - s = 0) by (apply sub_diag, Fs).
  assert (Hone : (e - s) / (e - s) = 1).
  { apply div_diag; [exact Fw | ].
    destruct (positive_finite (e - s) Fw Hw) as (m & x & ->). exact I. }
  pose proof (div_zero_l (e - s) Fw Hw) as Hq0.
  destruct (mul_zero_l (0 / (e - s)) c false Hq0 Fc) as [s0 Hp0].
  assert (Fq0 : finite (0 / (e - s))) by (unfold finite; rewrite Hq0; exact I).
  assert (Fp0 : finite (0 / (e - s) * c))
    by (unfold finite; rewrite Hp0; exact I).
  assert (Vp0 : value (0 / (e - s) * c) = 0%Z)
    by (unfold value; rewrite Hp0; reflexivity).
  assert (Fc1 : finite (1 * c)) by (rewrite mul_1_l; exact Fc).
  assert (Hparts : forall x, within s e x ->
            finite (x - s) /\ finite ((x - s) / (e - s))
            /\ finite ((x - s) / (e - s) * c)
            /\ (0 <= value ((x - s) / (e - s) * c))%Z).
  { intros x Hx.
    pose proof (within_sub_r s e x s Fs Fe Fs Hx) as Hd.
    rewrite Hzero in Hd.
    destruct (within_values 0 (e - s) (x - s) I Fw Hd) as [Fd _].
    pose proof (within_div_r 0 (e - s) (x - s) (e - s) I Fw Fw Hw Hd) as Hr.
    rewrite Hone in Hr.
    destruct (within_values (0 / (e - s)) 1 _ Fq0 I Hr) as [Fr _].
    pose proof (within_mul_r (0 / (e - s)) 1 _ c Fq0 I Fc Hc Hr) as Hp.
    destruct (within_values _ _ _ Fp0 Fc1 Hp) as [Fp Hv].
    repeat split; try assumption. lia. }
  destruct (Hparts a Ha) as (Fda & Fra & Fpa & Hpa).
  destruct (Hparts b Hb) as (Fdb & Frb & Fpb & Hpb).
  repeat split; try assumption.
  apply leb_value in Hab; try assumption.
  assert (Hd : (a - s <=? b - s) = true)
    by (apply sub_le; try assumption; lia).
  apply leb_value in Hd; try assumption.
  assert (Hr : ((a - s) / (e - s) <=? (b - s) / (e - s)) = true)
    by (apply div_le; assumption).
  apply leb_value in Hr; try assumption.
  apply leb_value in Hc; [ | exact I | exact Fc].
  change (value 0) with 0%Z in Hc.
  assert (Hp : ((a - s) / (e - s) * c <=? (b - s) / (e - s) * c) = true)
    by (apply mul_le; try assumption; nia).
  apply leb_value in Hp; assumption.
Qed.

(** Above [endAngle] the value is [maxValue] itself, and the value at
    [endAngle] can exceed it by its rounding: over the arc from 0 to
    270 and the values from -5 to 0.2, the angle 270 has the value
    0.20000000000000018 and the angle 271 the value 0.2. *)
Lemma value_at_endAngle_above_maxValue :
  let value_of x :=
    angleToValue {| atv_angle := x; atv_minValue := -5; atv_maxValue := 0.2;
                    atv_startAngle := 0; atv_endAngle := 270 |} in
  value_of 270 = Ok 0.20000000000000018
  /\ value_of 271 = Ok 0.2
  /\ (0.2 <? 0.20000000000000018) = true.
Proof. vm_compute. repeat split. Qed.

(** X4.  In binary64 arithmetic, with [endAngle > startAngle],
    [minValue <= maxValue] and neither [endAngle - startAngle] nor
    [maxValue - minValue] overflowing: up to [endAngle] a larger angle
    never gets a smaller value, and no value is below [minValue].
    (Above [endAngle] the value is [maxValue] itself, which the value
    at [endAngle] can exceed by its rounding.) *)
Theorem angleToValue_monotone_up_to_endAngle
    (a b minValue maxValue startAngle endAngle : float) :
  (endAngle >? startAngle) = true ->
  is_finite (endAngle - startAngle) = true ->
  is_finite (maxValue - minValue) = true ->
  (minValue <=? maxValue) = true ->
  is_finite a = true ->
  (a <=? b) = true -> (b <=? endAngle) = true ->
  let value_of x :=
    angleToValue {| atv_angle := x; atv_minValue := minValue;
                    atv_maxValue := maxValue; atv_startAngle := startAngle;
                    atv_endAngle := endAngle |} in
  exists va vb,
    value_of a = Ok va /\ value_of b = Ok vb
    /\ (minValue <=? va) = true /\ (va <=? vb) = true.
Proof.
  intros Hrange Hangles Hvalues Horder Ha Hab Hbe value_of.
  unfold gtb in Hrange.
  destruct (sub_finite_inv _ _ Hangles) as [Fe Fs].
  destruct (sub_finite_inv _ _ Hvalues) as [Fhi Flo].
  pose proof (is_finite_SFfinite _ Hangles) as Fw.
  pose proof (is_finite_SFfinite _ Hvalues) as Fc.
  pose proof (is_finite_SFfinite _ Ha) as Fa.
  assert (Fb : finite b) by exact (within_finite a endAngle b Fa Fe
                                     (conj Hab Hbe)).
  fold (finite endAngle) in Fe. fold (finite startAngle) in Fs.
  fold (finite maxValue) in Fhi. fold (finite minValue) in Flo.
  fold (finite (endAngle - startAngle)) in Fw.
  fold (finite (maxValue - minValue)) in Fc.
  fold (finite a) in Fa.
  assert (Hc : (0 <=? maxValue - minValue) = true).
  { apply sub_ge; try assumption; [exact I | ].
    apply leb_value in Horder; try assumption.
    change (value 0) with 0%Z. lia. }
  assert (Hae : (a <=? endAngle) = true).
  { apply leb_value; try assumption.
    apply leb_value in Hab; try assumption.
    apply leb_value in Hbe; try assumption. lia. }
  assert (Hself : (minValue <=? minValue) = true)
    by (apply leb_value; try assumption; lia).
  unfold value_of, angleToValue.
  cbn [atv_angle atv_minValue atv_maxValue atv_startAngle atv_endAngle].
  rewrite (ltb_leb_false _ _ Hrange).
  unfold gtb.
  rewrite (leb_not_ltb a endAngle Hae), (leb_not_ltb b endAngle Hbe).
  assert (Hzone : forall x, finite x ->
            (x <? startAngle) = false -> (x <=? endAngle) = true ->
            within startAngle endAngle x).
  { intros x Fx Hlow Hhigh. split; [ | exact Hhigh].
    apply not_ltb_leb; assumption. }
  assert (Hsum : forall x, within startAngle endAngle x ->
            (minValue
             <=? (x - startAngle) / (endAngle - startAngle)
                 * (maxValue - minValue) + minValue) = true).
  { intros x Hx.
    destruct (interpolation_order x x startAngle endAngle
                (maxValue - minValue) Fs Fe Fc Fw Hrange Hc Hx Hx)
      as (Fp & _ & Hp & _).
    { apply leb_value; try exact (within_finite _ _ _ Fs Fe Hx); lia. }
    apply add_ge; try assumption. lia. }
  destruct (a <? startAngle) eqn:Halow;
    destruct (b <? startAngle) eqn:Hblow.
  - exists minValue, minValue. repeat split; assumption.
  - eexists; eexists. split; [reflexivity | ]. split; [reflexivity | ].
    split; [exact Hself | ].
    apply Hsum, Hzone; assumption.
  - exfalso.
    apply ltb_value in Hblow; try assumption.
    apply leb_value in Hab; try assumption.
    assert (Hlt : (a <? startAngle) = true)
      by (apply ltb_value; try assumption; lia).
    congruence.
  - eexists; eexists. split; [reflexivity | ]. split; [reflexivity | ].
    pose proof (Hzone a Fa Halow Hae) as Hwa.
    pose proof (Hzone b Fb Hblow Hbe) as Hwb.
    split; [apply Hsum, Hwa | ].
    destruct (interpolation_order a b startAngle endAngle
                (maxValue - minValue) Fs Fe Fc Fw Hrange Hc Hwa Hwb Hab)
      as (Fpa & Fpb & _ & Hp).
    apply add_le; try assumption. lia.
Qed.

(** Over the arc from 20 to 100 degrees and the values from 0 to 100:
    the angles 30 and 70. *)
Lemma angleToValue_monotone_up_to_endAngle_witness :
  exists va vb,
    angleToValue {| atv_angle := 30; atv_minValue := 0; atv_maxValue := 100;
                    atv_startAngle := 20; atv_endAngle := 100 |} = Ok va
    /\ angleToValue {| atv_angle := 70; atv_minValue := 0;
                       atv_maxValue := 100; atv_startAngle := 20;
                       atv_endAngle := 100 |} = Ok vb
    /\ (0 <=? va) = true /\ (va <=? vb) = true.
Proof.
  apply (angleToValue_monotone_up_to_endAngle 30 70 0 100 20 100);
    reflexivity.
Defined.

(** X24.  In binary64 arithmetic, with [endAngle > startAngle],
    [minValue < maxValue] and neither difference overflowing: between
    [minValue] and [maxValue] a larger value never gets a smaller
    angle, and no angle is below [startAngle]. *)
Theorem valueToAngle_monotone_between_the_values
    (a b minValue maxValue startAngle endAngle : float) :
  (endAngle >? startAngle) = true ->
  is_finite (endAngle - startAngle) = true ->
  (minValue <? maxValue) = true ->
  is_finite (maxValue - minValue) = true ->
  (minValue <=? a) = true -> (a <=? b) = true ->
  (b <=? maxValue) = true ->
  let angle_of v :=
    valueToAngle {| vta_value := v; vta_minValue := minValue;
                    vta_maxValue := maxValue; vta_startAngle := startAngle;
                    vta_endAngle := endAngle |} in
  exists xa xb,
    angle_of a = Ok xa /\ angle_of b = Ok xb
    /\ (startAngle <=? xa) = true /\ (xa <=? xb) = true.
Proof.
  intros Hrange Hangles Hvalues Hwidth Hlow Hab Hhigh angle_of.
  unfold gtb in Hrange.
  destruct (sub_finite_inv _ _ Hangles) as [Fe Fs].
  destruct (sub_finite_inv _ _ Hwidth) as [Fhi Flo].
  pose proof (is_finite_SFfinite _ Hangles) as Fc.
  pose proof (is_finite_SFfinite _ Hwidth) as Fw.
  fold (finite endAngle) in Fe. fold (finite startAngle) in Fs.
  fold (finite maxValue) in Fhi. fold (finite minValue) in Flo.
  fold (finite (endAngle - startAngle)) in Fc.
  fold (finite (maxValue - minValue)) in Fw.
  destruct (chain_finite minValue a b maxValue Flo Fhi Hlow Hab Hhigh)
    as [Fa Fb].
  assert (Hwa : within minValue maxValue a).
  { split; [exact Hlow | ].
    apply leb_value; try assumption.
    apply leb_value in Hab; try assumption.
    apply leb_value in Hhigh; try assumption. lia. }
  assert (Hwb : within minValue maxValue b).
  { split; [ | exact Hhigh].
    apply leb_value; try assumption.
    apply leb_value in Hab; try assumption.
    apply leb_value in Hlow; try assumption. lia. }
  assert (Hc : (0 <=? endAngle - startAngle) = true).
  { apply sub_ge; try assumption; [exact I | ].
    apply ltb_value in Hrange; try assumption.
    change (value 0) with 0%Z. lia. }
  unfold angle_of, valueToAngle.
  cbn [vta_value vta_minValue vta_maxValue vta_startAngle vta_endAngle].
  rewrite (ltb_leb_false _ _ Hrange).
  destruct (interpolation_order a b minValue maxValue
              (endAngle - startAngle) Flo Fhi Fc Fw Hvalues Hc Hwa Hwb Hab)
    as (Fpa & Fpb & Hpa & Hp).
  eexists; eexists. split; [reflexivity | ]. split; [reflexivity | ].
  split.
  - apply add_ge; try assumption. lia.
  - apply add_le; try assumption. lia.
Qed.

(** Over the values from 0 to 100 and the arc from 30 to 90 degrees:
    the values 25 and 75. *)
Lemma valueToAngle_monotone_between_the_values_witness :
  exists xa xb,
    valueToAngle {| vta_value := 25; vta_minValue := 0; vta_maxValue := 100;
                    vta_startAngle := 30; vta_endAngle := 90 |} = Ok xa
    /\ valueToAngle {| vta_value := 75; vta_minValue := 0;
                       vta_maxValue := 100; vta_startAngle := 30;
                       vta_endAngle := 90 |} = Ok xb
    /\ (30 <=? xa) = true /\ (xa <=? xb) = true.
Proof.
  apply (valueToAngle_monotone_between_the_values 25 75 0 100 30 90);
    reflexivity.
Defined.

End MappingOrderFacts.

(** * Binary64: the coercion of the value *)

Module CoercionFacts.

#[local] Open Scope float_scope.
Import Number CircularSlider FloatKinds FloatFacts ScalingFacts.

(** A number below [2 ^ 1022] in magnitude is a zero or has an exponent
    of at most 969. *)
Lemma exponent_of_small (v : float) :
  (abs v <? 0x1p1022) = true -> SFexponent_le 969 (Prim2SF v).
Proof.
  rewrite ltb_spec, abs_spec.
  change (Prim2SF 0x1p1022) with (S754_finite false 4503599627370496 970).
  pose proof (Prim2SF_valid v) as Hvalid.
  destruct (Prim2SF v) as [s | s | | s m e]; cbn [SFabs SFexponent_le].
  - exact (fun _ => I).
  - discriminate.
  - discriminate.
  - destruct (valid_digits s m e Hvalid) as (_ & Hnormal & _).
    unfold SFltb. cbn [SFcompare].
    destruct (Z.compare e 970) eqn:He; try discriminate.
    + apply Z.compare_eq in He. subst e.
      destruct (Pos.compare_cont Eq m 4503599627370496) eqn:Hm;
        try discriminate.
      intros _. exfalso.
      destruct (digits2_pos_bounds m) as [Hlow _].
      rewrite (Hnormal ltac:(lia)) in Hlow.
      change (2 ^ (53 - 1))%Z with 4503599627370496%Z in Hlow.
      apply Pos2Z.pos_lt_pos in Hm. lia.
    + intros _. rewrite Z.compare_lt_iff in He. lia.
Qed.

(** The double of such a number is a zero or has an exponent of at most
    970. *)
Lemma exponent_of_double (v : float) :
  SFexponent_le 969 (Prim2SF v) -> SFexponent_le 970 (Prim2SF (v * 2)).
Proof.
  intros Hv. pose proof (Prim2SF_valid v) as Hvalid.
  rewrite mul_spec. unfold SF64mul.
  change (Prim2SF 2) with (SFpow2 1).
  destruct (Prim2SF v) as [s | s | | s m e]; cbn [SFexponent_le] in Hv;
    try contradiction.
  - exact I.
  - destruct (valid_digits s m e Hvalid) as (Hd & Hnormal & He).
    destruct (Z.eq_dec e (-1074)) as [-> | Hne].
    + destruct (Z_lt_le_dec (Z.pos (digits2_pos m)) 53) as [Hsub | Hfull].
      * rewrite (SFmul_2_subnormal s m Hsub). cbn [SFexponent_le]. lia.
      * rewrite SFmul_pow2; [cbn [SFexponent_le]; lia | | lia].
        apply Pos2Z.inj. lia.
    + rewrite SFmul_pow2; [cbn [SFexponent_le]; lia | | lia].
      apply Hnormal. lia.
Qed.

(** A whole number multiplied by 2 or by 4, rounded, and divided by 2
    or by 4 again is the number; so is the half of a whole number
    multiplied by 4, rounded, and divided by 4 again. *)
Lemma scaled_round (h scale : float) (k : Z) :
  Prim2SF scale = SFpow2 k ->
  match Prim2SF h with
  | S754_zero _ => True
  | S754_finite s m e =>
      digits2_pos m = 53%positive
      /\ (-1074 < e)%Z
      /\ SFwhole (S754_finite s m (e + k))
  | _ => False
  end ->
  Math.round (h * scale) / scale = h.
Proof.
  intros Hscale Hh.
  assert (Hproduct : Math.round (h * scale) = h * scale
                     /\ Prim2SF (h * scale)
                        = match Prim2SF h with
                          | S754_finite s m e => S754_finite s m (e + k)
                          | other => other
                          end).
  { assert (Hsf : Prim2SF (h * scale)
                  = match Prim2SF h with
                    | S754_finite s m e => S754_finite s m (e + k)
                    | other => other
                    end).
    { rewrite mul_spec, Hscale. unfold SF64mul.
      destruct (Prim2SF h) as [s | s | | s m e]; try contradiction.
      - cbn. destruct s; reflexivity.
      - destruct Hh as (Hd & He & _ & Hbound & _).
        apply SFmul_pow2; [exact Hd | lia]. }
    split; [ | exact Hsf].
    apply round_of_whole. rewrite Hsf.
    destruct (Prim2SF h) as [s | s | | s m e]; try contradiction.
    - exact I.
    - apply Hh. }
  destruct Hproduct as [-> Hsf].
  pose proof (Prim2SF_valid h) as Hvalid.
  apply Prim2SF_inj. rewrite div_spec, Hsf, Hscale. unfold SF64div.
  destruct (Prim2SF h) as [s | s | | s m e]; try contradiction.
  - cbn. destruct s; reflexivity.
  - destruct Hh as (Hd & He & _ & Hbound & _).
    destruct (valid_digits s m e Hvalid) as (_ & _ & Hmax).
    rewrite SFdiv_pow2; [f_equal; lia | exact Hd | lia].
Qed.

(** A whole number stays whole when its exponent grows. *)
Lemma SFwhole_scaled (s : bool) (m : positive) (e k : Z) :
  SFwhole (S754_finite s m e) -> (0 <= k)%Z -> (e + k <= 971)%Z ->
  SFwhole (S754_finite s m (e + k)).
Proof.
  intros (Hd & He & j & Hj) Hk Hbound. cbn [SFwhole].
  split; [exact Hd | ]. split; [lia | ].
  exists (Z.to_pos (Z.pos j * 2 ^ (Z.max 0 (- e) - Z.max 0 (- (e + k))))).
  assert (Hpow : (0 < 2 ^ (Z.max 0 (- e) - Z.max 0 (- (e + k))))%Z)
    by (apply Z.pow_pos_nonneg; lia).
  rewrite Z2Pos.id by lia.
  rewrite <- Z.mul_assoc, <- Z.pow_add_r by lia.
  rewrite Hj. f_equal. f_equal. lia.
Qed.

Lemma whole_times (y scale : float) (k : Z) :
  Prim2SF scale = SFpow2 k -> (0 <= k)%Z ->
  SFwhole (Prim2SF y) -> SFexponent_le (971 - k) (Prim2SF y) ->
  Math.round (y * scale) / scale = y.
Proof.
  intros Hscale Hk Hwhole Hexp. apply (scaled_round y scale k Hscale).
  destruct (Prim2SF y) as [s | s | | s m e]; try contradiction.
  - exact I.
  - cbn [SFexponent_le] in Hexp.
    pose proof Hwhole as (Hd & He & _).
    split; [exact Hd | ]. split; [lia | ].
    apply SFwhole_scaled; [exact Hwhole | exact Hk | lia].
Qed.

Lemma half_times_four (n : float) :
  SFwhole (Prim2SF n) -> SFexponent_le 970 (Prim2SF n) ->
  Math.round (n / 2 * 4) / 4 = n / 2.
Proof.
  intros Hwhole Hexp. apply (scaled_round (n / 2) 4 2 eq_refl).
  rewrite div_spec. unfold SF64div. change (Prim2SF 2) with (SFpow2 1).
  destruct (Prim2SF n) as [s | s | | s m e]; try contradiction.
  - cbn. exact I.
  - cbn [SFexponent_le] in Hexp.
    pose proof Hwhole as (Hd & He & _).
    rewrite SFdiv_pow2; [ | exact Hd | lia].
    split; [exact Hd | ]. split; [lia | ].
    replace (e - 1 + 2)%Z with (e + 1)%Z by lia.
    apply SFwhole_scaled; [exact Hwhole | lia | lia].
Qed.

(** X22.  In binary64 arithmetic, for every value below [2 ^ 1022] in
    magnitude, of the three coercions the coarsest that is asked for
    decides: with [coerceToInt] the value passed on is
    [Math.round(value)] whatever the other two properties are, with
    [coerceToHalf] and no [coerceToInt] it is
    [Math.round(value * 2) / 2] whatever [coerceToQuarter] is, and the
    coercions that follow change nothing any more. *)
Theorem coarsest_coercion_decides_in_binary64
    (props : CircularSliderProps) (value : float) :
  (abs value <? 0x1p1022) = true ->
  coerce props value
  = if coerceToInt props then Math.round value
    else if coerceToHalf props then Math.round (value * 2) / 2
    else if coerceToQuarter props then Math.round (value * 4) / 4
    else value.
Proof.
  intros Hsmall.
  pose proof (exponent_of_small value Hsmall) as Hexp.
  assert (Hfinite : forall v E, SFexponent_le E (Prim2SF v) ->
                                SFfinite (Prim2SF v)).
  { intros v E. destruct (Prim2SF v); cbn; tauto. }
  unfold coerce.
  destruct (coerceToInt props).
  - destruct (round_whole value (Hfinite _ _ Hexp)) as [Hwhole Hkeeps].
    specialize (Hkeeps 969%Z ltac:(lia) Hexp).
    assert (Hhalf : Math.round (Math.round value * 2) / 2
                    = Math.round value).
    { apply (whole_times _ 2 1 eq_refl); [lia | exact Hwhole | ].
      destruct (Prim2SF (Math.round value)); cbn in *; try tauto. lia. }
    assert (Hquarter : Math.round (Math.round value * 4) / 4
                       = Math.round value).
    { apply (whole_times _ 4 2 eq_refl); [lia | exact Hwhole | ].
      exact Hkeeps. }
    destruct (coerceToHalf props), (coerceToQuarter props);
      rewrite ?Hhalf, ?Hquarter; reflexivity.
  - destruct (coerceToHalf props); [ | reflexivity].
    destruct (coerceToQuarter props); [ | reflexivity].
    pose proof (exponent_of_double value Hexp) as Hdouble.
    destruct (round_whole (value * 2) (Hfinite _ _ Hdouble))
      as [Hwhole Hkeeps].
    apply half_times_four; [exact Hwhole | ].
    apply Hkeeps; [lia | exact Hdouble].
Qed.

(** With the three coercions, 7.3 is coerced to 7. *)
Lemma coarsest_coercion_decides_in_binary64_witness :
  coerce Examples.coercingProps 7.3
  = if coerceToInt Examples.coercingProps then Math.round 7.3
    else if coerceToHalf Examples.coercingProps
    then Math.round (7.3 * 2) / 2
    else if coerceToQuarter Examples.coercingProps
    then Math.round (7.3 * 4) / 4
    else 7.3.
Proof.
  exact (coarsest_coercion_decides_in_binary64
           Examples.coercingProps 7.3 eq_refl).
Defined.

End CoercionFacts.
(** * Binary64: the position of an angle lies on its side of the centre *)

Module QuadrantFacts.

#[local] Open Scope float_scope.
Import Number circularGeometry FloatKinds FloatFacts.
Import Rounding RoundingFacts Interval OrderFacts.

(** The product of a number from 0 to 1 and a radius that is not
    negative is finite and not negative. *)
Lemma share_of_radius (u radius : float) :
  finite radius -> (0 <=? radius) = true -> within 0 1 u ->
  finite (u * radius) /\ (0 <= value (u * radius))%Z.
Proof.
  intros Fr Hr Hu.
  pose proof (within_mul_r 0 1 u radius I I Fr Hr Hu) as Hp.
  destruct (mul_zero_l 0 radius false eq_refl Fr) as [s0 Hzero].
  assert (F0 : finite (0 * radius)) by (unfold finite; rewrite Hzero; exact I).
  assert (V0 : value (0 * radius) = 0%Z)
    by (unfold value; rewrite Hzero; reflexivity).
  assert (F1 : finite (1 * radius)) by (rewrite mul_1_l; exact Fr).
  destruct (within_values _ _ _ F0 F1 Hp) as [Fp Hv].
  split; [exact Fp | lia].
Qed.

(** The same, turned to the other side. *)
Lemma share_of_radius_turned (u radius : float) :
  finite radius -> (0 <=? radius) = true -> within 0 1 u ->
  finite (u * radius * -1) /\ (value (u * radius * -1) <= 0)%Z.
Proof.
  intros Fr Hr Hu.
  destruct (share_of_radius u radius Fr Hr Hu) as [Fp Hp].
  rewrite (mul_minus_one _ Fp).
  destruct (opp_value _ Fp) as [Fo Vo].
  split; [exact Fo | lia].
Qed.

(** X25.  In binary64 arithmetic, for an angle counterclockwise from
    +x, whatever the radius (not negative) and the size are: the
    position lies above the centre of the canvas, or level with it
    ([y] not above [svgSize / 2], the y axis pointing down), in the
    two branches of [angleToPosition] for the upper quadrants, and
    below or level in the two for the lower ones; and to the right of
    the centre or level in the branches for the first and the fourth
    quadrant, to the left or level in those for the second and the
    third.  The engine has to answer a sine and a cosine from 0 to 1
    at the one argument the branch reflects the angle to. *)
Theorem position_lies_on_the_side_of_the_angle
    (engine : JSMath) (a radius svgSize : float) :
  let rad := a / 180 * PI in
  let upper := rad <=? PI in
  let right :=
    if rad <=? PI then rad <=? PI / 2 else negb (rad <=? PI * 1.5) in
  let reflected :=
    if rad <=? PI then (if rad <=? PI / 2 then rad else PI - rad)
    else if rad <=? PI * 1.5 then rad - PI
    else 2 * PI - rad in
  is_finite radius = true -> (0 <=? radius) = true ->
  is_finite (svgSize / 2) = true ->
  (0 <=? Math_sin reflected) = true -> (Math_sin reflected <=? 1) = true ->
  (0 <=? Math_cos reflected) = true -> (Math_cos reflected <=? 1) = true ->
  exists p,
    angleToPosition {| degree := a; description := ccw_pos_x |}
                    radius svgSize = Ok p
    /\ (if right then svgSize / 2 <=? x p else x p <=? svgSize / 2) = true
    /\ (if upper then y p <=? svgSize / 2 else svgSize / 2 <=? y p) = true.
Proof.
  intros rad upper right reflected Hradius Hr Hhalf Hs0 Hs1 Hc0 Hc1.
  pose proof (is_finite_SFfinite _ Hradius) as Fr.
  pose proof (is_finite_SFfinite _ Hhalf) as Fh.
  fold (finite radius) in Fr. fold (finite (svgSize / 2)) in Fh.
  assert (Hsin : within 0 1 (Math_sin reflected)) by (split; assumption).
  assert (Hcos : within 0 1 (Math_cos reflected)) by (split; assumption).
  destruct (share_of_radius _ radius Fr Hr Hsin) as [Fs Vs].
  destruct (share_of_radius _ radius Fr Hr Hcos) as [Fc Vc].
  destruct (share_of_radius_turned _ radius Fr Hr Hsin) as [Fs' Vs'].
  destruct (share_of_radius_turned _ radius Fr Hr Hcos) as [Fc' Vc'].
  unfold angleToPosition. cbn [degree description].
  change (convertAngle a ccw_pos_x (Some ccw_pos_x)) with (Ok a).
  cbn [bind]. fold rad.
  unfold upper, right, reflected in *.
  destruct (rad <=? PI); [destruct (rad <=? PI / 2) | destruct (rad <=? PI * 1.5)];
    cbn [negb]; eexists; (split; [reflexivity | ]); cbn [x y]; split.
  - apply add_ge; try assumption. lia.
  - apply sub_le_value; try assumption. lia.
  - apply add_le_value; try assumption. lia.
  - apply sub_le_value; try assumption. lia.
  - apply add_le_value; try assumption. lia.
  - apply sub_ge; try assumption. lia.
  - apply add_ge; try assumption. lia.
  - apply sub_ge; try assumption. lia.
Qed.

(** With the engine on the axes: the angle 359.9999999 degrees is in
    the fourth quadrant, and its position at radius 50 on a canvas of
    side 200 is to the right of the centre and below it. *)
Lemma position_lies_on_the_side_of_the_angle_witness :
  exists p,
    angleToPosition (engine := AxisEngine.math)
      {| degree := 359.9999999; description := ccw_pos_x |} 50 200 = Ok p
    /\ (200 / 2 <=? x p) = true
    /\ (200 / 2 <=? y p) = true.
Proof.
  apply (position_lies_on_the_side_of_the_angle AxisEngine.math
           359.9999999 50 200);
    vm_compute; reflexivity.
Defined.

End QuadrantFacts.

(** * From an angle to its position and back *)

Module RoundTripFacts.

#[local] Open Scope float_scope.
Import Number circularGeometry WholeDegrees.





End RoundTripFacts.

